(** * Moonshine VM orchestration layer (vm/src/VM.js)

    A shallow embedding of [shine.VM]: the environment binder
    ([_bindLib], [_resetGlobals]), the accessors, the execution driver
    ([load], [execute]), the suspend/resume protocol and [dispose].

    JavaScript objects live in an explicit heap, the VM instance is a record
    of its fields (an absent or deleted field is [None]), and every method is
    a computation in a small state-and-exception monad that also records the
    calls made to collaborators that are not part of VM.js (the interpreter,
    the coroutine library, the file manager, the event listeners, the error
    normalizer).  Those collaborators are section variables. *)

From Stdlib Require Import ZArith Ascii String.
From stdpp Require Import gmap strings list fin_maps.

#[local] Set Warnings "-register-all".
#[local] Open Scope Z_scope.

(** ** JavaScript values *)

(** Primitive values.  Numbers that the VM handles are integers (status
    codes, program counters); [SNaN] is what arithmetic on [undefined]
    gives. *)
Inductive scalar :=
| SUndefined
| SNull
| SBool (b : bool)
| SNum (n : Z)
| SNaN
| SStr (s : string).

(** Values: primitives and references.  [VBound f] is the adapter
    [function () { return func.apply(context, arguments); }] that [_bindLib]
    builds around the library function [f]; [VTable l] refers to the
    [shine.Table] instance stored at heap address [l]. *)
Inductive value :=
| VScalar (s : scalar)
| VFunc (f : nat)
| VBound (f : nat)
| VTable (l : nat)
| VObject (o : nat).

#[global] Instance scalar_eq_dec : EqDecision scalar.
Proof. solve_decision. Defined.
#[global] Instance value_eq_dec : EqDecision value.
Proof. solve_decision. Defined.

(** JavaScript truthiness, as used by [if (x)], [!x] and [x || y]. *)
Definition truthy_scalar (s : scalar) : bool :=
  match s with
  | SUndefined | SNull | SNaN => false
  | SBool b => b
  | SNum n => negb (n =? 0)
  | SStr s => negb (String.eqb s "")
  end.

Definition truthy (v : value) : bool :=
  match v with
  | VScalar s => truthy_scalar s
  | _ => true
  end.

(** [n - 1] on a field that may be absent: [undefined - 1] is [NaN]. *)
Definition minus_one (n : option Z) : scalar :=
  match n with
  | Some n => SNum (n - 1)
  | None => SNaN
  end.

(** String conversion of a field that may be absent, as [+] does it. *)
Definition to_display (s : option string) : string :=
  match s with
  | Some s => s
  | None => "undefined"
  end.

(** ** Strings: [String.prototype.split] on the line feed *)

Definition LF : ascii := ascii_of_nat 10.

(** [s.split('\n')]: one piece more than there are line feeds; the empty
    string gives one empty piece. *)
Fixpoint split_lines (s : string) : list string :=
  match s with
  | EmptyString => [EmptyString]
  | String c s' =>
      if Ascii.eqb c LF then EmptyString :: split_lines s'
      else match split_lines s' with
           | piece :: pieces => String c piece :: pieces
           | [] => [String c EmptyString]
           end
  end.

(** [pieces.join('\n')], the inverse of [split_lines]. *)
Fixpoint join_lines (pieces : list string) : string :=
  match pieces with
  | [] => EmptyString
  | [piece] => piece
  | piece :: rest => (piece ++ String LF (join_lines rest))%string
  end.

(** ** The heap of [shine.Table] instances *)

(** A table instance is seen through its own string-keyed properties;
    what it inherits is a parameter of the development
    ([Table_prototype]). *)
Abbreviation table := (gmap string value).

(** Objects are allocated in sequence; an address is an index. *)
Abbreviation heap := (list table).

Definition alloc (t : table) (h : heap) : nat * heap :=
  (length h, h ++ [t]).

(** [h[l][k]], with [None] for a dangling address or an absent property. *)
Definition get_prop (h : heap) (l : nat) (k : string) : option value :=
  h !! l ≫= λ t, t !! k.

(** [h[l][k] = v]. *)
Definition set_prop (h : heap) (l : nat) (k : string) (v : value) : heap :=
  match h !! l with
  | Some t => <[l := <[k := v]> t]> h
  | None => h
  end.

(** ** Library descriptions

    [shine.lib] is a tree of plain JavaScript objects.  [_bindLib] tells its
    entries apart by their constructor, in this order: a [shine.Table]
    instance, a plain [Object], a function, anything else.  An object is the
    list of its own enumerable properties in enumeration order; a key that
    is listed twice holds its last value. *)
Inductive libentry :=
| LTable (props : gmap string scalar)
| LObject (entries : list (string * libentry))
| LFunc (f : nat)
| LScalar (s : scalar)
| LHostObject (o : nat).

Abbreviation libobject := (list (string * libentry)).

(** [lib[k]] for an own property. *)
Fixpoint obj_get (k : string) (es : libobject) : option libentry :=
  match es with
  | [] => None
  | (k', e) :: es' =>
      match obj_get k es' with
      | Some e' => Some e'
      | None => if decide (k = k') then Some e else None
      end
  end.

(** The entries that [_bindLib] turns into a [shine.Table]. *)
Definition is_table_entry (e : libentry) : bool :=
  match e with
  | LTable _ | LObject _ => true
  | _ => false
  end.

(** ** [shine.VM.prototype._bindLib]

    [bind_entry] is the body of the [for] loop for one entry; the nested
    [fix] is the loop over a nested object, [result] being the object that
    [shine.gc.createObject()] returned.  [new shine.Table(result)] allocates
    the table that holds the properties of [result].
    [new shine.Table(shine.utils.toObject(t))] allocates a copy of the
    properties of the library table [t]. *)
Fixpoint bind_entry (e : libentry) (h : heap) {struct e} : value * heap :=
  match e with
  | LTable props =>
      let '(l, h') := alloc (VScalar <$> props) h in (VTable l, h')
  | LObject entries =>
      let '(result, h1) :=
        (fix loop (es : libobject) (acc : table * heap) {struct es} :=
           match es with
           | [] => acc
           | (k, e') :: es' =>
               let '(v, h') := bind_entry e' acc.2 in
               loop es' (<[k := v]> acc.1, h')
           end) entries (∅, h) in
      let '(l, h') := alloc result h1 in (VTable l, h')
  | LFunc f => (VBound f, h)
  | LScalar s => (VScalar s, h)
  | LHostObject o => (VObject o, h)
  end.

(** The loop of [_bindLib] on its own. *)
Fixpoint bind_loop (es : libobject) (acc : table * heap) : table * heap :=
  match es with
  | [] => acc
  | (k, e) :: es' =>
      let '(v, h') := bind_entry e acc.2 in
      bind_loop es' (<[k := v]> acc.1, h')
  end.

Definition _bindLib (lib : libobject) (h : heap) : nat * heap :=
  let '(result, h1) := bind_loop lib (∅, h) in
  alloc result h1.

(** ** Execution units, files and raised values *)

(** What [resume] tells apart with [instanceof]: a [shine.Coroutine], a
    [shine.Closure], or anything else, which it calls as a function. *)
Inductive unit_kind := KCoroutine | KClosure | KFunction.

(** A resumable unit: an object, known by its identity. *)
Record runit := Unit { kind : unit_kind; oid : nat }.

(** A [shine.File]: its [data] is absent until the bytecode is loaded. *)
Record File := mkFile { file_id : nat; data : option nat }.

(** [new shine.Function(vm, file, file.data, vm._globals)]. *)
Record thread := Thread {
  th_file : File;
  th_data : nat;
  th_globals : option nat }.

Record CoConfig := mkCoConfig { uiOnly : bool }.

#[global] Instance File_eq_dec : EqDecision File.
Proof. solve_decision. Defined.
#[global] Instance thread_eq_dec : EqDecision thread.
Proof. solve_decision. Defined.

(** An entry of [luaStack]: a line of a native trace, or the pair
    [[unit, pc]]. *)
Inductive stack_entry :=
| TraceLine (line : string)
| Frame (f : runit) (pc : scalar).

(** A [shine.Error]. *)
Record ShineError := mkShineError {
  err_message : string;
  err_stack : option string;
  luaStack : option (list stack_entry) }.

(** What a [throw] can carry: a primitive, a [shine.Error], or any other
    object, of which only [name], [message] and [stack] are read (each may be
    absent). *)
Inductive thrown :=
| ThrownScalar (s : scalar)
| ThrownNative (name : string) (msg : option string) (stk : option string)
| ThrownShine (e : ShineError).

(** The errors the engine raises by itself. *)
Definition TypeError (what : string) : thrown :=
  ThrownNative "TypeError" (Some what) None.

(** [new Error(msg)] and [new URIError(msg)]. *)
Definition Error (m : string) : thrown := ThrownNative "Error" (Some m) None.
Definition URIError (m : string) : thrown :=
  ThrownNative "URIError" (Some m) None.

(** ** Status codes *)

Definition RUNNING : Z := 0.
Definition SUSPENDING : Z := 1.
Definition SUSPENDED : Z := 2.
Definition RESUMING : Z := 3.
Definition DEAD : Z := 4.

(** ** The VM instance and the process around it *)

(** A request handed to [shine.FileManager.load], waiting for its
    callback. *)
Record request := Request {
  req_url : string;
  req_execute : value;
  req_coConfig : option CoConfig }.

Record FileManager := mkFileManager { requests : list request }.

(** The fields of a [shine.VM].  [None] is a field that was never assigned
    or that [delete] removed. *)
Record VM := mkVM {
  fileManager : option FileManager;
  _env : option (gmap string value);
  _coroutineStack : option (list nat);
  _status : Z;
  _resumeStack : list runit;
  _callbackQueue : list nat;
  _globals : option nat;
  _files : option (list File);
  _thread : option thread }.

(** What [window.setTimeout] was given: the check of [suspend], or the
    [resume] closure of [execute], with the thread whose coroutine the
    variable [co] of that call of [execute] holds (see [retarget]). *)
Inductive timer :=
| TSuspendCheck
| TCoResume (t : thread) (cfg : CoConfig).

(** [co] and [resume] are variables of a call of [execute], shared by the
    turns of its loop: once a later turn has stored its coroutine in [co],
    the timers that the earlier turns have scheduled step that coroutine.
    [retarget t0 t] is that change of the pending timers, from the
    coroutine of the thread [t0] to that of [t]; a thread is told from
    another by its file, its data and its globals. *)
Definition retarget (t0 t : thread) (ts : list timer) : list timer :=
  (λ x, match x with
        | TCoResume t' cfg => if decide (t' = t0) then TCoResume t cfg else x
        | TSuspendCheck => x
        end) <$> ts.

(** State shared by every VM of the process: the heap, the [_pc] field of
    the units, the host's timers, and the static pools of [shine.Closure]
    and [shine.Coroutine]. *)
Record Process := mkProcess {
  tables : heap;
  pcs : gmap nat Z;
  timers : list timer;
  Closure_graveyard : list nat;
  Closure_current : option nat;
  Coroutine_graveyard : list nat }.

Record World := mkWorld { vm : VM; proc : Process }.

Definition with_vm (f : VM → VM) (w : World) : World :=
  mkWorld (f (vm w)) (proc w).

Definition with_proc (f : Process → Process) (w : World) : World :=
  mkWorld (vm w) (f (proc w)).

Definition set_status (s : Z) (v : VM) : VM :=
  mkVM (fileManager v) (_env v) (_coroutineStack v) s (_resumeStack v)
       (_callbackQueue v) (_globals v) (_files v) (_thread v).

Definition set_resumeStack (st : list runit) (v : VM) : VM :=
  mkVM (fileManager v) (_env v) (_coroutineStack v) (_status v) st
       (_callbackQueue v) (_globals v) (_files v) (_thread v).

Definition set_callbackQueue (q : list nat) (v : VM) : VM :=
  mkVM (fileManager v) (_env v) (_coroutineStack v) (_status v)
       (_resumeStack v) q (_globals v) (_files v) (_thread v).

Definition set_globals (g : option nat) (v : VM) : VM :=
  mkVM (fileManager v) (_env v) (_coroutineStack v) (_status v)
       (_resumeStack v) (_callbackQueue v) g (_files v) (_thread v).

Definition set_thread (t : option thread) (v : VM) : VM :=
  mkVM (fileManager v) (_env v) (_coroutineStack v) (_status v)
       (_resumeStack v) (_callbackQueue v) (_globals v) (_files v) t.

Definition set_fileManager (fm : option FileManager) (v : VM) : VM :=
  mkVM fm (_env v) (_coroutineStack v) (_status v)
       (_resumeStack v) (_callbackQueue v) (_globals v) (_files v) (_thread v).

(** [delete this._files; delete this._thread; delete this._globals;
    delete this._env; delete this._coroutineStack]. *)
Definition delete_owned (v : VM) : VM :=
  mkVM (fileManager v) None None (_status v) (_resumeStack v)
       (_callbackQueue v) None None None.

Definition set_tables (h : heap) (p : Process) : Process :=
  mkProcess h (pcs p) (timers p) (Closure_graveyard p) (Closure_current p)
            (Coroutine_graveyard p).

Definition set_timers (ts : list timer) (p : Process) : Process :=
  mkProcess (tables p) (pcs p) ts (Closure_graveyard p) (Closure_current p)
            (Coroutine_graveyard p).

(** [shine.Closure._graveyard.length = 0; shine.Closure._current = undefined;
    shine.Coroutine._graveyard.length = 0]. *)
Definition clear_pools (p : Process) : Process :=
  mkProcess (tables p) (pcs p) (timers p) [] None [].

Definition pools_empty (p : Process) : Prop :=
  Closure_graveyard p = [] ∧ Closure_current p = None ∧
  Coroutine_graveyard p = [].

(** ** Observable calls *)

Inductive notification :=
| FileLoaded (f : File)
| Executing (t : thread) (coConfig : option CoConfig).

(** The calls a method makes to its collaborators, in the order made. *)
Inductive event :=
| EvDrive (f : runit)
| EvCallback (c : nat)
| EvNormalize (e : thrown)
| EvConstruct (t : thread)
| EvTrigger (n : notification)
| EvCall (t : thread)
| EvCoStep (t : thread)
| EvDisposeFile (f : File)
| EvDisposeThread (t : thread)
| EvDisposeFileManager.

(** ** Computations

    A method either returns, or raises, or does not terminate within the
    fuel it was given (only the loop that drains the callback queue can). *)
Inductive result (A : Type) :=
| Ok (a : A) (w : World) (tr : list event)
| Raise (e : thrown) (w : World) (tr : list event)
| Diverge.
Arguments Ok {A} a w tr.
Arguments Raise {A} e w tr.
Arguments Diverge {A}.

Definition M (A : Type) : Type := World → result A.

Definition ret {A} (a : A) : M A := λ w, Ok a w [].

Definition throw {A} (e : thrown) : M A := λ w, Raise e w [].

Definition bind {A B} (m : M A) (k : A → M B) : M B := λ w,
  match m w with
  | Ok a w1 t1 =>
      match k a w1 with
      | Ok b w2 t2 => Ok b w2 (t1 ++ t2)
      | Raise e w2 t2 => Raise e w2 (t1 ++ t2)
      | Diverge => Diverge
      end
  | Raise e w1 t1 => Raise e w1 t1
  | Diverge => Diverge
  end.

(** [try { m } catch (e) { handler e }]. *)
Definition try_catch {A} (m : M A) (handler : thrown → M A) : M A := λ w,
  match m w with
  | Raise e w1 t1 =>
      match handler e w1 with
      | Ok b w2 t2 => Ok b w2 (t1 ++ t2)
      | Raise e' w2 t2 => Raise e' w2 (t1 ++ t2)
      | Diverge => Diverge
      end
  | r => r
  end.

Definition diverge {A} : M A := λ _, Diverge.

Definition gets {A} (f : World → A) : M A := λ w, Ok (f w) w [].

Definition modify (f : World → World) : M unit := λ w, Ok tt (f w) [].

Definition emit (e : event) : M unit := λ w, Ok tt w [e].

(** A call into a collaborator: it may change anything and may raise. *)
Abbreviation external := (World → World * option thrown).

Definition call_external (f : external) : M unit := λ w,
  match f w with
  | (w', None) => Ok tt w' []
  | (w', Some e) => Raise e w' []
  end.

#[global] Instance M_ret : MRet M := @ret.
#[global] Instance M_bind : MBind M := λ A B k m, bind m k.

Definition trace_of {A} (r : result A) : list event :=
  match r with
  | Ok _ _ tr | Raise _ _ tr => tr
  | Diverge => []
  end.

(** ** Property access on values *)

(** [v[k]].  [None] is the TypeError of reading a property of [undefined]
    or [null].  Only tables have properties here: those of functions and of
    host objects are not modelled and read as [undefined]. *)
Definition js_get (h : heap) (v : value) (k : string) : option value :=
  match v with
  | VScalar SUndefined | VScalar SNull => None
  | VTable l => Some (default (VScalar SUndefined) (get_prop h l k))
  | _ => Some (VScalar SUndefined)
  end.

(** [v[k] = x], with the same TypeError; an assignment to a property of
    another primitive is dropped, and so is, here, one to a property of a
    function or of a host object. *)
Definition js_set (h : heap) (v : value) (k : string) (x : value)
  : option heap :=
  match v with
  | VScalar SUndefined | VScalar SNull => None
  | VTable l => Some (set_prop h l k x)
  | _ => Some h
  end.

(** [x instanceof shine.Table]. *)
Definition is_Table (v : value) : bool :=
  match v with
  | VTable _ => true
  | _ => false
  end.

(** One turn of the first loop of [_resetGlobals]:
    [if (globals[i] instanceof shine.Table)
       globals['package'].loaded[i] = globals[i]]. *)
Definition register_loaded (g : nat) (h : heap) (i : string) : option heap :=
  gi ← js_get h (VTable g) i;
  if is_Table gi then
    pkg ← js_get h (VTable g) "package";
    loaded ← js_get h pkg "loaded";
    js_set h loaded i gi
  else Some h.

(** [globals['package'].loaded._G = globals]. *)
Definition register_G (g : nat) (h : heap) : option heap :=
  pkg ← js_get h (VTable g) "package";
  loaded ← js_get h pkg "loaded";
  js_set h loaded "_G" (VTable g).

(** The own properties of a table, as [for (i in t)] enumerates them. *)
Definition own_keys (h : heap) (l : nat) : list string :=
  (map_to_list (default ∅ (h !! l))).*1.

(** A loop over a list whose body may raise: the state reached, and whether
    the loop ran to its end. *)
Fixpoint for_each {A S} (body : S → A → option S) (xs : list A) (s : S)
  : S * bool :=
  match xs with
  | [] => (s, true)
  | x :: xs' =>
      match body s x with
      | Some s' => for_each body xs' s'
      | None => (s, false)
      end
  end.

(** What the second loop of [_resetGlobals] amounts to when every key of
    [env] is assigned as a property of the globals table (see
    [overlay_turns] for the loop itself). *)
Definition overlay_env (g : nat) (env : gmap string value) (h : heap) : heap :=
  foldl (λ h kv, set_prop h g kv.1 kv.2) h (map_to_list env).

(** A host environment that has no property of its own named
    [hasOwnProperty] or [__proto__]. *)
Definition plain_env (env : gmap string value) : Prop :=
  env !! "hasOwnProperty" = None ∧ env !! "__proto__" = None.

(** ** Reading the global namespace *)

(** [globals.package.loaded[k]], for the globals table at [g]. *)
Definition loaded_entry (h : heap) (g : nat) (k : string) : option value :=
  match get_prop h g "package" with
  | Some (VTable pk) =>
      match get_prop h pk "loaded" with
      | Some (VTable ld) => get_prop h ld k
      | _ => None
      end
  | _ => None
  end.

(** [globals.package.loaded._G === globals]. *)
Definition package_loaded_G (h : heap) (g : nat) : Prop :=
  loaded_entry h g "_G" = Some (VTable g).

(** Every top-level table of the library [lib] is at once a global and an
    entry of [package.loaded], under its own name. *)
Definition library_tables_reachable (lib : libobject) (h : heap) (g : nat)
  : Prop :=
  ∀ k e, obj_get k lib = Some e → is_table_entry e = true →
    ∃ x, loaded_entry h g k = Some (VTable x) ∧
         get_prop h g k = Some (VTable x).

(** ** Calls by the host *)

(** A call that the host makes: of a method of the VM, or of a function
    that the VM gave to the file manager ([CallLoaded]) or to the scheduler
    ([CallTimer]). *)
Inductive call :=
| CallSetGlobal (name : string) (v : value)
| CallGetGlobal (name : string)
| CallSuspend
| CallResume (fuel : nat)
| CallLoad (url : string) (exec : value) (coConfig : option CoConfig)
| CallLoaded (url : string) (exec : value) (coConfig : option CoConfig)
    (err : option string) (file : File)
| CallExecute (coConfig : option CoConfig) (file : option File)
| CallTimer.

(** The [setGlobal] calls of a run. *)
Definition sets_of (cs : list call) : list (string * value) :=
  omap (λ c, match c with
             | CallSetGlobal name v => Some (name, v)
             | _ => None
             end) cs.

(** ** Sample collaborators and states

    Used to run the methods on concrete inputs. *)
Module Sample.

(** Code that changes nothing and returns. *)
Definition quiet : external := λ w, (w, None).

(** Code that raises [e]. *)
Definition raising (e : thrown) : external := λ w, (w, Some e).

(** A normalizer that raises what it is given. *)
Definition rethrow : thrown → option thrown := Some.

(** The function [1] adds the callback [2] to the queue; the others do
    nothing. *)
Definition functions (c : nat) : external := λ w,
  match c with
  | 1%nat =>
      (with_vm (λ v, set_callbackQueue (_callbackQueue v ++ [2%nat]) v) w,
       None)
  | _ => (w, None)
  end.

(** A library with [package.loaded], a [string] table and a function. *)
Definition lib : libobject :=
  [("package", LObject [("loaded", LTable ∅);
                        ("path", LScalar (SStr "?.lua"))]);
   ("string", LObject [("len", LFunc 1)]);
   ("print", LFunc 2)].

(** What a failing host function raises: an [Error] with a two-line
    trace. *)
Definition native_fault : thrown :=
  ThrownNative "Error" (Some "boom")
    (Some ("Error: boom" ++ String LF "    at host")%string).

(** A host environment that rebinds [string] and adds [host]. *)
Definition host_env : gmap string value :=
  <["string" := VScalar (SNum 5)]> (<["host" := VFunc 9]> ∅).

(** A host environment that rebinds [package]. *)
Definition host_env_package : gmap string value :=
  <["package" := VScalar (SNum 0)]> ∅.

(** A host environment that rebinds no library name. *)
Definition host_env_plain : gmap string value := <["host" := VFunc 9]> ∅.

(** [setGlobal] calls that rebind [string] and add [x]. *)
Definition host_sets : list (string * value) :=
  [("x", VScalar (SNum 1)); ("string", VScalar SNull)].

(** A process whose pools are in use. *)
Definition process : Process :=
  mkProcess [] {[ 11%nat := 7 ]} [] [21%nat] (Some 22%nat) [23%nat].

Definition closure1 : runit := Unit KClosure 11.
Definition closure2 : runit := Unit KClosure 12.
Definition coroutine3 : runit := Unit KCoroutine 13.

(** A freshly constructed VM, before [_resetGlobals]. *)
Definition blank : VM :=
  mkVM (Some (mkFileManager [])) (Some ∅) (Some []) RUNNING [] [] None None
       None.

(** A VM with three suspended units and two queued callbacks. *)
Definition suspended : World :=
  mkWorld
    (set_callbackQueue [1%nat; 3%nat]
       (set_resumeStack [closure1; closure2; coroutine3] blank))
    process.

(** A VM with one suspended closure and one queued callback. *)
Definition suspended_closure : World :=
  mkWorld (set_callbackQueue [3%nat] (set_resumeStack [closure1] blank))
          process.

(** A VM with nothing suspended and one queued callback. *)
Definition idle : World :=
  mkWorld (set_callbackQueue [3%nat] blank) process.

Definition loaded_file : File := mkFile 1 (Some 100%nat).
Definition pending_file : File := mkFile 2 None.

(** A VM whose [_files] holds a loaded file and then one whose data has
    not arrived. *)
Definition two_files : World :=
  mkWorld
    (mkVM (Some (mkFileManager [])) (Some ∅) (Some []) RUNNING [] [] None
          (Some [loaded_file; pending_file]) None)
    process.

(** A [shine.Error] raised by guest code that has no trace yet. *)
Definition guest_fault : ShineError :=
  mkShineError "attempt to call a nil value" None None.

(** The function [1] adds the callback [2] to the queue, the function [3]
    raises, the others do nothing. *)
Definition faulty_functions (c : nat) : external := λ w,
  match c with
  | 1%nat =>
      (with_vm (λ v, set_callbackQueue (_callbackQueue v ++ [2%nat]) v) w,
       None)
  | 3%nat => (w, Some native_fault)
  | _ => (w, None)
  end.

(** A VM with nothing suspended and three queued callbacks. *)
Definition queued : World :=
  mkWorld (set_callbackQueue [1%nat; 3%nat; 4%nat] blank) process.

(** A coroutine that keeps the number of steps it still has to take in the
    [_pc] slot [50]: a step takes one off, and the coroutine is dead when
    none is left. *)
Definition steps_left (w : World) : nat :=
  Z.to_nat (default 0 (pcs (proc w) !! 50%nat)).

Definition counting_step : external := λ w,
  (with_proc (λ p, mkProcess (tables p)
                     (<[50%nat := Z.of_nat (pred (steps_left w))]> (pcs p))
                     (timers p) (Closure_graveyard p) (Closure_current p)
                     (Coroutine_graveyard p)) w,
   None).

Definition counting_status (w : World) : Z :=
  if decide (steps_left w = 0%nat) then DEAD else SUSPENDED.

(** A VM about to run a coroutine that needs three steps. *)
Definition three_steps : World :=
  mkWorld blank
    (mkProcess [] {[ 50%nat := 3 ]} [] [] None []).

Definition main_thread : thread := Thread loaded_file 100 None.

Definition second_file : File := mkFile 3 (Some 300%nat).

(** A VM whose [_files] holds two loaded files. *)
Definition two_loaded : World :=
  mkWorld
    (mkVM (Some (mkFileManager [])) (Some ∅) (Some []) RUNNING [] [] None
          (Some [loaded_file; second_file]) None)
    process.

(** The main function of the file whose data is [100] raises; the others
    return. *)
Definition faulty_call (t : thread) : external :=
  if decide (th_data t = 100%nat) then raising native_fault else quiet.

(** A normalizer that reports the error and lets the caller go on. *)
Definition swallow : thrown → option thrown := λ _, None.

(** A VM whose globals table binds [x], in a process whose pools are in
    use. *)
Definition other_vm : World :=
  mkWorld
    (set_globals (Some 0%nat) blank)
    (mkProcess [ {[ "x"%string := VScalar (SNum 1) ]} ] {[ 11%nat := 7 ]} []
               [21%nat] (Some 22%nat) [23%nat]).

(** A library without [package]. *)
Definition bare_lib : libobject := [("print"%string, LFunc 2)].

(** A unit that stores [RUNNING] as it goes on, and returns. *)
Definition restoring : external := λ w,
  (with_vm (set_status RUNNING) w, None).

(** The callback [5] calls [suspend]; the others do nothing. *)
Definition suspending_functions (c : nat) : external := λ w,
  match c with
  | 5%nat =>
      (with_proc (λ p, set_timers (timers p ++ [TSuspendCheck]) p)
         (with_vm (set_status SUSPENDING) w), None)
  | _ => (w, None)
  end.

(** A VM with nothing suspended and the callback [5] queued. *)
Definition queued_suspend : World :=
  mkWorld (set_callbackQueue [5%nat] blank) process.

(** What a table inherits, for the samples: [constructor]. *)
Definition prototype (k : string) : option value :=
  if decide (k = "constructor"%string) then Some (VFunc 7) else None.

(** A host environment whose [hasOwnProperty] is a number. *)
Definition host_env_shadowing : gmap string value :=
  <["hasOwnProperty"%string := VScalar (SNum 1)]> ∅.

(** A run of calls on a VM: two [setGlobal] calls that rebind [x] and
    [string], around a [suspend], a [resume], a timer and the execution of
    a file. *)
Definition host_calls : list call :=
  [CallSetGlobal "x"%string (VScalar (SNum 1));
   CallSuspend;
   CallResume 3;
   CallTimer;
   CallExecute None (Some loaded_file);
   CallSetGlobal "string"%string (VScalar SNull);
   CallGetGlobal "x"%string].

End Sample.

(** ** The methods of [shine.VM] *)

Section VM.

(** [shine.lib], the standard library description. *)
Variable lib : libobject.

(** [f.resume()] on a coroutine, [f._run()] on a closure, [f()] on a
    function, each on the object of the given identity. *)
Variable Coroutine_resume : nat → external.
Variable Closure_run : nat → external.
Variable call_function : nat → external.

(** [shine.Error.catchExecutionError(e)], a static function of the error
    type, which is given [e] and nothing of the VM: it returns ([None]) or
    raises. *)
Variable catchExecutionError : thrown → option thrown.

(** [thread.call()]; [co()] for [co = shine.lib.coroutine.wrap(thread)]
    and the status of that coroutine. *)
Variable Function_call : thread → external.
Variable coroutine_step : thread → external.
Variable coroutine_status : thread → World → Z.

(** The listeners of [shine.EventEmitter]. *)
Variable listeners : notification → external.

(** [file.dispose()], [thread.dispose()], [fileManager.dispose()]. *)
Variable File_dispose : File → external.
Variable Function_dispose : thread → external.
Variable FileManager_dispose : external.

(** The properties that a [shine.Table] inherits, from
    [shine.Table.prototype] and from [Object.prototype]: what a read of a
    name finds there, [None] when the prototypes have no such property.
    They are taken to be ordinary writable data properties, but for
    [__proto__]. *)
Variable Table_prototype : string → option value.

(** [t.__proto__ = v] for the table at the given address: the accessor of
    [Object.prototype], which stores no property of the table but may
    replace its prototype, or raise.  Reads of inherited names are given as
    the code has them for tables that still have the prototype they were
    made with. *)
Variable set_prototype : nat → value → external.

(** [env.hasOwnProperty(i)] when the host's [env] has, under the name
    [hasOwnProperty], a function of its own (the function of the given
    identity): what the call does, and either what it raises or whether
    what it returns is truthy. *)
Variable env_hasOwnProperty : nat → string → World → World * (thrown + bool).

(** *** Construction and the environment binder *)

(** [this._env.hasOwnProperty(i)]: the function of [Object.prototype],
    unless [env] has a property of its own under that name, which is then
    called, and cannot be called when it is not a function. *)
Definition env_owns (env : gmap string value) (i : string) : M bool :=
  match env !! "hasOwnProperty" with
  | None => mret (bool_decide (is_Some (env !! i)))
  | Some (VFunc f) | Some (VBound f) =>
      λ w, match env_hasOwnProperty f i w with
           | (w', inl e) => Raise e w' []
           | (w', inr b) => Ok b w' []
           end
  | Some _ => throw (TypeError "this._env.hasOwnProperty is not a function")
  end.

(** [this._globals[name] = v]: a property of the globals table, but for
    the name [__proto__]. *)
Definition assign_global (name : string) (v : value) : M unit :=
  g ← gets (λ w, _globals (vm w));
  match g with
  | None => throw (TypeError "Cannot set properties of undefined")
  | Some g =>
      if decide (name = "__proto__") then call_external (set_prototype g v)
      else
        modify (with_proc (λ p, set_tables (set_prop (tables p) g name v) p))
  end.

(** One turn of the second loop of [_resetGlobals], for the key [i]:
    [if (this._env.hasOwnProperty(i)) this._globals[i] = this._env[i]];
    the fields [_env] and [_globals] are read anew on every turn. *)
Definition overlay_turn (i : string) : M unit :=
  env ← gets (λ w, _env (vm w));
  match env with
  | None => throw (TypeError "Cannot read properties of undefined")
  | Some env =>
      own ← env_owns env i;
      if own : bool
      then assign_global i (default (VScalar SUndefined) (env !! i))
      else mret tt
  end.

(** The loop [for (var i in this._env)], over the keys that [env] had when
    the loop began. *)
Fixpoint overlay_turns (keys : list string) : M unit :=
  match keys with
  | [] => mret tt
  | i :: rest => overlay_turn i;; overlay_turns rest
  end.

Definition _resetGlobals : M unit :=
  h ← gets (λ w, tables (proc w));
  let '(g, h1) := _bindLib lib h in
  modify (with_vm (set_globals (Some g)));;
  let '(h2, done) := for_each (register_loaded g) (own_keys h1 g) h1 in
  modify (with_proc (set_tables h2));;
  if done then
    match register_G g h2 with
    | None => throw (TypeError "Cannot set properties of undefined")
    | Some h3 =>
        modify (with_proc (set_tables h3));;
        env ← gets (λ w, _env (vm w));
        overlay_turns (map_to_list (default ∅ env)).*1
    end
  else throw (TypeError "Cannot set properties of undefined").

(** [new shine.VM(env)] in the process [p]; [env || {}] for an omitted
    argument. *)
Definition new_VM (env : option (gmap string value)) (p : Process)
  : result unit :=
  _resetGlobals
    (mkWorld
       (mkVM (Some (mkFileManager [])) (Some (default ∅ env)) (Some [])
             RUNNING [] [] None None None)
       p).

(** What [_resetGlobals] and the constructor amount to for a plain host
    environment, the second loop being then an overlay of the globals
    table (lemma [new_VM_plain_env]). *)
Definition _resetGlobals_plain : M unit :=
  h ← gets (λ w, tables (proc w));
  let '(g, h1) := _bindLib lib h in
  modify (with_vm (set_globals (Some g)));;
  let '(h2, done) := for_each (register_loaded g) (own_keys h1 g) h1 in
  modify (with_proc (set_tables h2));;
  if done then
    match register_G g h2 with
    | None => throw (TypeError "Cannot set properties of undefined")
    | Some h3 =>
        env ← gets (λ w, _env (vm w));
        modify (with_proc (set_tables (overlay_env g (default ∅ env) h3)))
    end
  else throw (TypeError "Cannot set properties of undefined").

Definition new_VM_plain (env : option (gmap string value)) (p : Process)
  : result unit :=
  _resetGlobals_plain
    (mkWorld
       (mkVM (Some (mkFileManager [])) (Some (default ∅ env)) (Some [])
             RUNNING [] [] None None None)
       p).

(** *** Accessors *)

(** [this._globals[name] = value]. *)
Definition setGlobal (name : string) (v : value) : M unit :=
  assign_global name v.

(** [return this._globals[name]]: the table's own property, or else what
    its prototypes have under that name, or else [undefined]. *)
Definition getGlobal (name : string) : M value :=
  g ← gets (λ w, _globals (vm w));
  match g with
  | None => throw (TypeError "Cannot read properties of undefined")
  | Some g =>
      gets (λ w, default (default (VScalar SUndefined) (Table_prototype name))
                   (get_prop (tables (proc w)) g name))
  end.

(** *** Notifications *)

Definition _trigger (n : notification) : M unit :=
  emit (EvTrigger n);; call_external (listeners n).

Definition setTimeout (t : timer) : M unit :=
  modify (with_proc (λ p, set_timers (timers p ++ [t]) p)).

(** The normalizer is called with [e] and may raise. *)
Definition normalize (e : thrown) : M unit :=
  emit (EvNormalize e);;
  match catchExecutionError e with
  | None => mret tt
  | Some e' => throw e'
  end.

(** *** [execute] *)

(** The closure [resume] of [execute]:
    [co(); if (coConfig.uiOnly && co._coroutine.status != shine.DEAD)
              window.setTimeout(resume, 1)]. *)
Definition co_resume (t : thread) (cfg : CoConfig) : M unit :=
  emit (EvCoStep t);;
  call_external (coroutine_step t);;
  st ← gets (coroutine_status t);
  if uiOnly cfg && negb (st =? DEAD) then setTimeout (TCoResume t cfg)
  else mret tt.

(** [co = shine.lib.coroutine.wrap.call(this, thread)] in a turn that
    follows the turn of the thread [old]. *)
Definition hand_over (old : option thread) (t : thread) : M unit :=
  match old with
  | None => mret tt
  | Some t0 =>
      modify (with_proc (λ p, set_timers (retarget t0 t (timers p)) p))
  end.

(** The body of the [for] loop for a file whose [data] is [d], [old] being
    the thread of the turn before when the loop runs coroutines. *)
Definition execute_turn (old : option thread) (coConfig : option CoConfig)
    (file : File) (d : nat) : M unit :=
  g ← gets (λ w, _globals (vm w));
  let t := Thread file d g in
  emit (EvConstruct t);;
  modify (with_vm (set_thread (Some t)));;
  _trigger (Executing t coConfig);;
  try_catch
    (match coConfig with
     | None => emit (EvCall t);; call_external (Function_call t)
     | Some cfg => hand_over old t;; co_resume t cfg
     end)
    normalize.

(** The first turn of the loop. *)
Definition execute_file (coConfig : option CoConfig) (file : File) (d : nat)
  : M unit :=
  execute_turn None coConfig file d.

(** The [for] loop, file by file. *)
Fixpoint execute_turns (old : option thread) (coConfig : option CoConfig)
    (files : list File) : M unit :=
  match files with
  | [] => mret tt
  | file :: rest =>
      match data file with
      | None => throw (Error "Tried to execute file before data loaded.")
      | Some d =>
          g ← gets (λ w, _globals (vm w));
          execute_turn old coConfig file d;;
          execute_turns
            (match coConfig with
             | Some _ => Some (Thread file d g)
             | None => None
             end) coConfig rest
      end
  end.

Definition execute_files (coConfig : option CoConfig) (files : list File)
  : M unit :=
  execute_turns None coConfig files.

Definition execute (coConfig : option CoConfig) (file : option File)
  : M unit :=
  files ← gets (λ w, match file with
                     | Some f => Some [f]
                     | None => _files (vm w)
                     end);
  match files with
  | None => throw (TypeError "Cannot read properties of undefined")
  | Some [] => throw (Error "No files loaded.")
  | Some files => execute_files coConfig files
  end.

(** *** [load] *)

(** [load] hands the request to the file manager and returns. *)
Definition load (url : string) (exec : value) (coConfig : option CoConfig)
  : M unit :=
  fm ← gets (λ w, fileManager (vm w));
  match fm with
  | None => throw (TypeError "Cannot read properties of undefined")
  | Some fm =>
      modify (with_vm (set_fileManager
        (Some (mkFileManager (requests fm ++ [Request url exec coConfig])))))
  end.

(** The callback that [load] gave to the file manager, called with
    [(err, file)]; [err] is [None] when it is falsy. *)
Definition load_callback (url : string) (exec : value)
    (coConfig : option CoConfig) (err : option string) (file : File)
  : M unit :=
  match err with
  | Some err =>
      throw (URIError ("Failed to load file: " ++ url ++ " (" ++ err ++ ")"))
  | None =>
      _trigger (FileLoaded file);;
      if truthy exec || bool_decide (exec = VScalar SUndefined)
      then execute coConfig (Some file)
      else mret tt
  end.

(** *** [suspend] and [resume] *)

Definition suspend : M unit :=
  modify (with_vm (set_status SUSPENDING));;
  setTimeout TSuspendCheck.

(** The function given to [window.setTimeout] by [suspend]. *)
Definition suspend_check : M unit :=
  st ← gets (λ w, _status (vm w));
  if st =? SUSPENDING then modify (with_vm (set_status SUSPENDED))
  else mret tt.

(** [this._resumeStack.pop()]: the last element, if any. *)
Definition pop_resumeStack : M (option runit) :=
  st ← gets (λ w, _resumeStack (vm w));
  match reverse st with
  | [] => mret None
  | f :: below =>
      modify (with_vm (set_resumeStack (reverse below)));;
      mret (Some f)
  end.

(** The [try] block of [resume]. *)
Definition drive (f : runit) : M unit :=
  emit (EvDrive f);;
  match kind f with
  | KCoroutine => call_external (Coroutine_resume (oid f))
  | KClosure => call_external (Closure_run (oid f))
  | KFunction => call_external (call_function (oid f))
  end.

(** The first [if] of the [catch] block: a value that is not a
    [shine.Error] is wrapped.  Reading [e.stack] raises when [e] is
    [undefined] or [null]; on another primitive it gives [undefined]. *)
Definition wrap_host_error (e : thrown) : M ShineError :=
  match e with
  | ThrownShine e => mret e
  | ThrownScalar SUndefined | ThrownScalar SNull =>
      throw (TypeError "Cannot read properties of undefined")
  | ThrownScalar _ =>
      mret (mkShineError ("Error in host call: " ++ to_display None)
              (Some "") (Some (TraceLine <$> split_lines "")))
  | ThrownNative _ msg stk =>
      let stack := default ""%string stk in
      mret (mkShineError ("Error in host call: " ++ to_display msg)
              (Some stack) (Some (TraceLine <$> split_lines stack)))
  end.

(** [if (!e.luaStack) e.luaStack = shine.gc.createArray();
    e.luaStack.push([f, f._pc - 1])]. *)
Definition push_frame (f : runit) (pc : option Z) (e : ShineError)
  : ShineError :=
  mkShineError (err_message e) (err_stack e)
    (Some (default [] (luaStack e) ++ [Frame f (minus_one pc)])).

(** The [catch] block of [resume]. *)
Definition host_call_failed (f : runit) (e : thrown) : M unit :=
  e' ← wrap_host_error e;
  pc ← gets (λ w, pcs (proc w) !! oid f);
  normalize (ThrownShine (push_frame f pc e')).

(** [while (this._callbackQueue[0]) this._callbackQueue.shift()()]; the
    entries of the queue are functions, which are truthy. *)
Fixpoint drain (fuel : nat) : M unit :=
  q ← gets (λ w, _callbackQueue (vm w));
  match q with
  | [] => mret tt
  | c :: rest =>
      match fuel with
      | O => diverge
      | S fuel' =>
          modify (with_vm (set_callbackQueue rest));;
          emit (EvCallback c);;
          call_external (call_function c);;
          drain fuel'
      end
  end.

(** The statements of [resume] that come before the drain loop. *)
Definition redrive : M unit :=
  modify (with_vm (set_status RESUMING));;
  f ← pop_resumeStack;
  match f with
  | Some f => try_catch (drive f) (host_call_failed f)
  | None => mret tt
  end.

Definition resume (fuel : nat) : M unit :=
  redrive;;
  drain fuel.

(** *** The host's scheduler *)

(** One turn: the oldest timer fires. *)
Definition fire_timer : M unit :=
  ts ← gets (λ w, timers (proc w));
  match ts with
  | [] => mret tt
  | t :: ts' =>
      modify (with_proc (set_timers ts'));;
      match t with
      | TSuspendCheck => suspend_check
      | TCoResume t cfg => co_resume t cfg
      end
  end.

(** *** [dispose] *)

(** One turn of the loop of [dispose], for the index [i]:
    [if (this._files.hasOwnProperty(i)) this._files[i].dispose()].  The
    field [_files] is read anew on every turn: if a file's [dispose] has
    deleted it the turn faults, and an index that the list no longer has is
    passed over. *)
Definition dispose_file_at (i : nat) : M unit :=
  files ← gets (λ w, _files (vm w));
  match files with
  | None => throw (TypeError "Cannot read properties of undefined")
  | Some fs =>
      match fs !! i with
      | Some f => emit (EvDisposeFile f);; call_external (File_dispose f)
      | None => mret tt
      end
  end.

(** The loop [for (var i in this._files)], over the indices that the list
    had when the loop began. *)
Fixpoint dispose_files (indices : list nat) : M unit :=
  match indices with
  | [] => mret tt
  | i :: rest => dispose_file_at i;; dispose_files rest
  end.

(** The first part of [dispose]: the files, the current thread and the
    fields that the VM owns.  A loop over an absent [_files] has no
    turn. *)
Definition dispose_owned : M unit :=
  files ← gets (λ w, _files (vm w));
  dispose_files (seq 0 (length (default [] files)));;
  t ← gets (λ w, _thread (vm w));
  match t with
  | Some t => emit (EvDisposeThread t);; call_external (Function_dispose t)
  | None => mret tt
  end;;
  modify (with_vm delete_owned).

Definition dispose : M unit :=
  dispose_owned;;
  fm ← gets (λ w, fileManager (vm w));
  match fm with
  | None => throw (TypeError "Cannot read properties of undefined")
  | Some _ =>
      emit EvDisposeFileManager;;
      call_external FileManager_dispose;;
      modify (with_vm (set_fileManager None));;
      modify (with_proc clear_pools)
  end.

(** The code that [drive] runs for the unit [f]. *)
Definition unit_code (f : runit) : external :=
  match kind f with
  | KCoroutine => Coroutine_resume (oid f)
  | KClosure => Closure_run (oid f)
  | KFunction => call_function (oid f)
  end.

(** [undefined] and [null], of which no property can be read. *)
Definition nullish (e : thrown) : bool :=
  match e with
  | ThrownScalar SUndefined | ThrownScalar SNull => true
  | _ => false
  end.

(** [e instanceof shine.Error]. *)
Definition is_ShineError (e : thrown) : bool :=
  match e with
  | ThrownShine _ => true
  | _ => false
  end.

(** The [shine.Error] that the [catch] block of [resume] has in [e] after
    its first [if], for a value whose properties can be read. *)
Definition wrapped (e : thrown) : ShineError :=
  match e with
  | ThrownShine e => e
  | ThrownNative _ msg stk =>
      mkShineError ("Error in host call: " ++ to_display msg)
        (Some (default ""%string stk))
        (Some (TraceLine <$> split_lines (default ""%string stk)))
  | ThrownScalar _ =>
      mkShineError ("Error in host call: " ++ to_display None)
        (Some "") (Some (TraceLine <$> split_lines ""))
  end.

(** *** Reading traces and results *)

Definition drives_of (tr : list event) : list runit :=
  omap (λ e, match e with EvDrive f => Some f | _ => None end) tr.

Definition callbacks_of (tr : list event) : list nat :=
  omap (λ e, match e with EvCallback c => Some c | _ => None end) tr.

Definition constructed_of (tr : list event) : list thread :=
  omap (λ e, match e with EvConstruct t => Some t | _ => None end) tr.

(** The result [r] with the events [tr] in front of its own. *)
Definition after {A} (tr : list event) (r : result A) : result A :=
  match r with
  | Ok a w tr' => Ok a w (tr ++ tr')
  | Raise e w tr' => Raise e w (tr ++ tr')
  | Diverge => Diverge
  end.

Definition final {A} (r : result A) : option World :=
  match r with
  | Ok _ w _ | Raise _ w _ => Some w
  | Diverge => None
  end.

(** *** Frame conditions on collaborators *)

Definition keeps_status (f : external) : Prop :=
  ∀ w, _status (vm (f w).1) = _status (vm w).

Definition keeps_resumeStack (f : external) : Prop :=
  ∀ w, _resumeStack (vm (f w).1) = _resumeStack (vm w).

Definition returns (f : external) : Prop := ∀ w, (f w).2 = None.

(** A callback only ever adds to the back of the queue. *)
Definition appends_only (f : external) : Prop :=
  ∀ w, _callbackQueue (vm w) `prefix_of` _callbackQueue (vm (f w).1).

Definition keeps_callbackQueue (f : external) : Prop :=
  ∀ w, _callbackQueue (vm (f w).1) = _callbackQueue (vm w).

(** The callbacks that the callbacks invoked by [drain fuel] added to the
    queue, in the order in which they were added. *)
Fixpoint enqueued_during (fuel : nat) (w : World) : list nat :=
  match _callbackQueue (vm w), fuel with
  | c :: rest, S fuel' =>
      let '(w2, e) := call_function c (with_vm (set_callbackQueue rest) w) in
      drop (length rest) (_callbackQueue (vm w2)) ++
      match e with
      | None => enqueued_during fuel' w2
      | Some _ => []
      end
  | _, _ => []
  end.

(** The host calls [resume] [n] times in a row, whether or not a call
    raises. *)
Fixpoint resume_times (fuel n : nat) (w : World)
  : option (World * list event) :=
  match n with
  | O => Some (w, [])
  | S n' =>
      match resume fuel w with
      | Ok _ w1 tr | Raise _ w1 tr =>
          '(w2, tr') ← resume_times fuel n' w1; Some (w2, tr ++ tr')
      | Diverge => None
      end
  end.

(** The host calls [setGlobal] for each pair in turn. *)
Fixpoint setGlobals (sets : list (string * value)) : M unit :=
  match sets with
  | [] => mret tt
  | (name, v) :: rest => setGlobal name v;; setGlobals rest
  end.

(** The list that [execute] works on. *)
Definition target_files (file : option File) (w : World)
  : option (list File) :=
  match file with
  | Some f => Some [f]
  | None => _files (vm w)
  end.

(** The native trace of a raised value, as read by [e.stack || '']. *)
Definition native_stack (e : thrown) : string :=
  match e with
  | ThrownNative _ _ stk => default ""%string stk
  | _ => ""%string
  end.

Definition keeps_fileManager (f : external) : Prop :=
  ∀ w, fileManager (vm (f w).1) = fileManager (vm w).

(** What a bound value [v] is, in the heap [h], for the library entry it
    was made from. *)
Definition bound (h : heap) (v : value) (e : libentry) : Prop :=
  match e with
  | LTable t => ∃ l, v = VTable l ∧ h !! l = Some (VScalar <$> t)
  | LObject es =>
      ∃ h0 result h1,
        bind_loop es (∅, h0) = (result, h1) ∧
        v = VTable (length h1) ∧
        (h1 ++ [result]) `prefix_of` h
  | LFunc f => v = VBound f
  | LScalar s => v = VScalar s
  | LHostObject o => v = VObject o
  end.

Definition bind_entry_ok (e : libentry) : Prop :=
  ∀ h v h', bind_entry e h = (v, h') → h `prefix_of` h' ∧ bound h' v e.

(** The library has [package.loaded], and [_bindLib] makes tables of
    both. *)
Definition lib_has_package_loaded : Prop :=
  ∃ pk ld, obj_get "package" lib = Some (LObject pk) ∧
           obj_get "loaded" pk = Some ld ∧
           is_table_entry ld = true.

(** A run of assignments [t[k] = v]. *)
Definition assign_all (t : table) (kvs : list (string * value)) : table :=
  foldl (λ t kv, <[kv.1 := kv.2]> t) t kvs.

(** *** Host scenarios and further frame conditions *)

(** The host lets [n] timers fire, one per turn. *)
Fixpoint fire_timers (n : nat) : M unit :=
  match n with
  | O => mret tt
  | S n' => fire_timer;; fire_timers n'
  end.

(** A collaborator that leaves every field of the VM alone. *)
Definition keeps_vm (f : external) : Prop := ∀ w, vm (f w).1 = vm w.

(** A collaborator that leaves the host's timers alone. *)
Definition keeps_timers (f : external) : Prop :=
  ∀ w, timers (proc (f w).1) = timers (proc w).

(** The units that [execute] constructs for [files] when the globals are at
    [g] and every file has its data. *)
Definition threads_for (g : option nat) (files : list File) : list thread :=
  omap (λ f, d ← data f; Some (Thread f d g)) files.

(** What [execute] does for one unit when no coroutine is asked for and
    nothing faults. *)
Definition direct_run (t : thread) : list event :=
  [EvConstruct t; EvTrigger (Executing t None); EvCall t].

(** *** What [_bindLib] builds, read through lookups *)

(** Every entry of a library object that is not overridden by a later
    entry of the same name is a property of the table [t] and satisfies
    [P]. *)
Definition each_entry (P : libentry → value → Prop) (t : table)
  : libobject → Prop :=
  fix each (es : libobject) : Prop :=
    match es with
    | [] => True
    | (k, e) :: es' =>
        (k ∉ es'.*1 → ∃ v, t !! k = Some v ∧ P e v) ∧ each es'
    end.

(** The value [v] is, in the heap [h], the image of the library entry [e]
    in tables of addresses [n] and more: a table with the properties of a
    library table; for a plain object a table with one property per key of
    the object and no other, each the image of its entry; the bound
    function, the scalar or the host object itself otherwise. *)
Fixpoint mirrors (n : nat) (h : heap) (e : libentry) (v : value) {struct e}
  : Prop :=
  match e with
  | LTable props =>
      ∃ l, v = VTable l ∧ (n ≤ l)%nat ∧ h !! l = Some (VScalar <$> props)
  | LObject entries =>
      ∃ l t, v = VTable l ∧ (n ≤ l)%nat ∧ h !! l = Some t ∧
             (∀ k, k ∉ entries.*1 → t !! k = None) ∧
             each_entry (mirrors n h) t entries
  | LFunc f => v = VBound f
  | LScalar s => v = VScalar s
  | LHostObject o => v = VObject o
  end.

(** The statuses that [suspend] and its deferred check store. *)
Definition suspended_status (s : Z) : Prop := s = SUSPENDING ∨ s = SUSPENDED.

(** Code that does not suspend the VM: it stores neither [SUSPENDING] nor
    [SUSPENDED] in the status field (any other store, [RUNNING] say, is
    allowed); in particular it does not call [suspend]. *)
Definition never_suspends (f : external) : Prop :=
  ∀ w, ¬ suspended_status (_status (vm w)) →
       ¬ suspended_status (_status (vm (f w).1)).

(** *** Runs of calls *)

Definition run_call (c : call) : M unit :=
  match c with
  | CallSetGlobal name v => setGlobal name v
  | CallGetGlobal name => getGlobal name ≫= λ _, mret tt
  | CallSuspend => suspend
  | CallResume fuel => resume fuel
  | CallLoad url exec coConfig => load url exec coConfig
  | CallLoaded url exec coConfig err file =>
      load_callback url exec coConfig err file
  | CallExecute coConfig file => execute coConfig file
  | CallTimer => fire_timer
  end.

(** The state after a run of calls, each made when the one before is over,
    by returning or by raising; [None] when one of them does not end. *)
Fixpoint run_calls (cs : list call) (w : World) : option World :=
  match cs with
  | [] => Some w
  | c :: cs' => final (run_call c w) ≫= run_calls cs'
  end.

(** The globals reference of the VM and the tables of the process. *)
Definition globals_of (w : World) : option nat * heap :=
  (_globals (vm w), tables (proc w)).

(** From [w] to [w'], nothing that the invariant of [package.loaded] reads
    has changed: the globals reference, the global [package], the [loaded]
    property of that table, the properties of [package.loaded], and the
    globals that are named like the top-level tables of the library.  Any
    other global and any other table may have changed. *)
Definition package_kept (w w' : World) : Prop :=
  _globals (vm w') = _globals (vm w) ∧
  ∀ g, _globals (vm w) = Some g →
    get_prop (tables (proc w')) g "package" =
      get_prop (tables (proc w)) g "package" ∧
    (∀ k e, obj_get k lib = Some e → is_table_entry e = true →
       get_prop (tables (proc w')) g k = get_prop (tables (proc w)) g k) ∧
    ∀ pk, get_prop (tables (proc w)) g "package" = Some (VTable pk) →
      get_prop (tables (proc w')) pk "loaded" =
        get_prop (tables (proc w)) pk "loaded" ∧
      ∀ ld, get_prop (tables (proc w)) pk "loaded" = Some (VTable ld) →
        ∀ k, get_prop (tables (proc w')) ld k =
             get_prop (tables (proc w)) ld k.

Definition keeps_package (f : external) : Prop :=
  ∀ w, package_kept w (f w).1.

(** The code that the VM runs for the guest and for the host leaves what
    the invariant reads alone. *)
Definition guest_keeps_package : Prop :=
  (∀ i, keeps_package (Coroutine_resume i)) ∧
  (∀ i, keeps_package (Closure_run i)) ∧
  (∀ i, keeps_package (call_function i)) ∧
  (∀ t, keeps_package (Function_call t)) ∧
  (∀ t, keeps_package (coroutine_step t)) ∧
  (∀ n, keeps_package (listeners n)).

(** A computation that ends with what the invariant reads as it was. *)
Definition frames {A} (m : M A) : Prop :=
  ∀ w w', final (m w) = Some w' → package_kept w w'.

(** ** Properties *)

Ltac unfold_M :=
  unfold mbind, M_bind, bind, mret, M_ret, ret, throw, gets, modify, emit,
    call_external, try_catch, diverge in *.

Lemma after_nil {A} (r : result A) : after [] r = r.
Proof. by destruct r. Qed.

Lemma after_after {A} t1 t2 (r : result A) :
  after t1 (after t2 r) = after (t1 ++ t2) r.
Proof. destruct r; simpl; by rewrite ?app_assoc. Qed.

Lemma bind_assoc {A B C} (m : M A) (k : A → M B) (k' : B → M C) w :
  ((m ≫= k) ≫= k') w = (m ≫= λ a, k a ≫= k') w.
Proof.
  unfold_M. destruct (m w) as [a w1 t1| |]; [|done..].
  destruct (k a w1) as [b w2 t2| |]; [|done..].
  destruct (k' b w2); by rewrite ?app_assoc.
Qed.

Lemma bind_Ok {A B} (m : M A) (k : A → M B) w a w1 t1 :
  m w = Ok a w1 t1 → (m ≫= k) w = after t1 (k a w1).
Proof. unfold_M. intros ->. by destruct (k a w1). Qed.

Lemma bind_Raise {A B} (m : M A) (k : A → M B) w e w1 t1 :
  m w = Raise e w1 t1 → (m ≫= k) w = Raise e w1 t1.
Proof. unfold_M. by intros ->. Qed.

Lemma bind_Diverge {A B} (m : M A) (k : A → M B) w :
  m w = Diverge → (m ≫= k) w = Diverge.
Proof. unfold_M. by intros ->. Qed.

(** *** The drain loop *)

Lemma drain_nil fuel w :
  _callbackQueue (vm w) = [] → drain fuel w = Ok tt w [].
Proof. intros Hq. destruct fuel; simpl; unfold_M; by rewrite Hq. Qed.

Lemma drain_out_of_fuel w c rest :
  _callbackQueue (vm w) = c :: rest → drain 0 w = Diverge.
Proof. intros Hq. simpl; unfold_M; by rewrite Hq. Qed.

Lemma drain_cons fuel w c rest :
  _callbackQueue (vm w) = c :: rest →
  drain (S fuel) w =
    match call_function c (with_vm (set_callbackQueue rest) w) with
    | (w2, None) => after [EvCallback c] (drain fuel w2)
    | (w2, Some e) => Raise e w2 [EvCallback c]
    end.
Proof.
  intros Hq. simpl. unfold_M. rewrite Hq. simpl.
  destruct (call_function c _) as [w2 [e|]]; [done|].
  by destruct (drain fuel w2).
Qed.

Lemma drain_keeps_status fuel : ∀ w,
  (∀ c, keeps_status (call_function c)) →
  ∀ w', final (drain fuel w) = Some w' →
  _status (vm w') = _status (vm w).
Proof.
  induction fuel as [|fuel IH]; intros w Hk w' Hfin.
  - destruct (_callbackQueue (vm w)) as [|c rest] eqn:Hq.
    + rewrite drain_nil in Hfin by done. by simplify_eq/=.
    + by rewrite (drain_out_of_fuel _ _ _ Hq) in Hfin.
  - destruct (_callbackQueue (vm w)) as [|c rest] eqn:Hq.
    + rewrite drain_nil in Hfin by done. by simplify_eq/=.
    + rewrite (drain_cons _ _ _ _ Hq) in Hfin.
      pose proof (Hk c (with_vm (set_callbackQueue rest) w)) as Hc.
      destruct (call_function c _) as [w2 [e|]]; simpl in *.
      * by simplify_eq.
      * rewrite <-Hc. apply IH; [done|]. by destruct (drain fuel w2).
Qed.


(** *** The re-drive phase of [resume] *)

Lemma resume_redrive fuel w : resume fuel w = (redrive ≫= λ _, drain fuel) w.
Proof. done. Qed.

Lemma drive_spec f w :
  drive f w =
    match unit_code f w with
    | (w1, None) => Ok tt w1 [EvDrive f]
    | (w1, Some e) => Raise e w1 [EvDrive f]
    end.
Proof.
  unfold drive, unit_code. unfold_M. simpl.
  destruct (kind f); simpl;
    match goal with |- context [?c (oid f) w] =>
      destruct (c (oid f) w) as [w1 [e|]] end; done.
Qed.

Lemma pop_empty w :
  _resumeStack (vm w) = [] → pop_resumeStack w = Ok None w [].
Proof. intros Hst. unfold pop_resumeStack. unfold_M. by rewrite Hst. Qed.

Lemma pop_top w st f :
  _resumeStack (vm w) = st ++ [f] →
  pop_resumeStack w = Ok (Some f) (with_vm (set_resumeStack st) w) [].
Proof.
  intros Hst. unfold pop_resumeStack. unfold_M.
  rewrite Hst, reverse_snoc. simpl. by rewrite reverse_involutive.
Qed.

Lemma redrive_empty w :
  _resumeStack (vm w) = [] →
  redrive w = Ok tt (with_vm (set_status RESUMING) w) [].
Proof.
  intros Hst. unfold redrive.
  erewrite bind_Ok by reflexivity. rewrite after_nil.
  erewrite bind_Ok by (by apply pop_empty). done.
Qed.

Lemma redrive_top w st f :
  _resumeStack (vm w) = st ++ [f] →
  redrive w =
    try_catch (drive f) (host_call_failed f)
      (with_vm (set_resumeStack st) (with_vm (set_status RESUMING) w)).
Proof.
  intros Hst. unfold redrive.
  erewrite bind_Ok by reflexivity. rewrite after_nil.
  erewrite bind_Ok by (by apply pop_top). by rewrite after_nil.
Qed.

(** The [catch] block leaves the VM as the failed unit left it. *)
Lemma host_call_failed_world f e w w' :
  final (host_call_failed f e w) = Some w' → w' = w.
Proof.
  unfold host_call_failed, wrap_host_error, normalize. unfold_M.
  destruct e as [[]| |]; simpl;
    repeat (match goal with |- context [catchExecutionError ?x] =>
              destruct (catchExecutionError x) end; simpl);
    by intros [= <-].
Qed.

Lemma host_call_failed_total f e w : host_call_failed f e w ≠ Diverge.
Proof.
  unfold host_call_failed, wrap_host_error, normalize. unfold_M.
  destruct e as [[]| |]; simpl;
    repeat (match goal with |- context [catchExecutionError ?x] =>
              destruct (catchExecutionError x) end; simpl); done.
Qed.

Lemma try_drive_world f w w' :
  final (try_catch (drive f) (host_call_failed f) w) = Some w' →
  w' = (unit_code f w).1.
Proof.
  unfold try_catch. rewrite drive_spec.
  destruct (unit_code f w) as [w1 [e|]]; simpl; [|by intros [= <-]].
  pose proof (host_call_failed_world f e w1) as Hw.
  destruct (host_call_failed f e w1); simpl in *; intros [= <-]; auto.
Qed.

Lemma snoc_cases {A} (l : list A) : l = [] ∨ ∃ st f, l = st ++ [f].
Proof. destruct l as [|f st _] using rev_ind; eauto. Qed.

Lemma redrive_total w : redrive w ≠ Diverge.
Proof.
  destruct (snoc_cases (_resumeStack (vm w))) as [Hst|(st & f & Hst)].
  - by rewrite redrive_empty.
  - rewrite (redrive_top _ _ _ Hst). unfold try_catch. rewrite drive_spec.
    destruct (unit_code _ _) as [w1 [e|]]; [|done].
    pose proof (host_call_failed_total f e w1).
    by destruct (host_call_failed f e w1).
Qed.

Lemma unit_code_keeps_status f :
  (∀ i, keeps_status (Coroutine_resume i)) →
  (∀ i, keeps_status (Closure_run i)) →
  (∀ i, keeps_status (call_function i)) →
  keeps_status (unit_code f).
Proof. intros ???. unfold unit_code. by destruct (kind f). Qed.

Lemma redrive_status w w' :
  (∀ f, keeps_status (unit_code f)) →
  final (redrive w) = Some w' → _status (vm w') = RESUMING.
Proof.
  intros Hk.
  destruct (snoc_cases (_resumeStack (vm w))) as [Hst|(st & f & Hst)].
  - rewrite redrive_empty by done. by intros [= <-].
  - rewrite (redrive_top _ _ _ Hst). intros ->%try_drive_world.
    by rewrite Hk.
Qed.

Lemma resume_status fuel w w' :
  (∀ f, keeps_status (unit_code f)) →
  (∀ c, keeps_status (call_function c)) →
  final (resume fuel w) = Some w' → _status (vm w') = RESUMING.
Proof.
  intros Hu Hc. rewrite resume_redrive.
  pose proof (redrive_status w) as Hr.
  destruct (redrive w) as [[] w1 t1|e w1 t1|] eqn:Hre.
  - erewrite bind_Ok by done. intros Hfin.
    rewrite <-(Hr w1) by done.
    apply (drain_keeps_status fuel); [done|].
    by destruct (drain fuel w1).
  - erewrite bind_Raise by done. simpl. intros [= <-]. by apply Hr.
  - by erewrite bind_Diverge.
Qed.


(** *** What the drain loop keeps and what it leaves in the trace *)

Lemma drain_preserves {X} (π : VM → X) fuel : ∀ w,
  (∀ q v, π (set_callbackQueue q v) = π v) →
  (∀ c w, π (vm (call_function c w).1) = π (vm w)) →
  ∀ w', final (drain fuel w) = Some w' → π (vm w') = π (vm w).
Proof.
  induction fuel as [|fuel IH]; intros w Hq Hk w' Hfin;
    destruct (_callbackQueue (vm w)) as [|c rest] eqn:Hw.
  - rewrite drain_nil in Hfin by done. by simplify_eq/=.
  - by rewrite (drain_out_of_fuel _ _ _ Hw) in Hfin.
  - rewrite drain_nil in Hfin by done. by simplify_eq/=.
  - rewrite (drain_cons _ _ _ _ Hw) in Hfin.
    pose proof (Hk c (with_vm (set_callbackQueue rest) w)) as Hc.
    simpl in Hc. rewrite Hq in Hc.
    destruct (call_function c _) as [w2 [e|]]; simpl in *.
    + by simplify_eq.
    + rewrite <-Hc. apply IH; [done..|]. by destruct (drain fuel w2).
Qed.

Lemma drain_trace fuel : ∀ w,
  trace_of (drain fuel w) = EvCallback <$> callbacks_of (trace_of (drain fuel w)).
Proof.
  induction fuel as [|fuel IH]; intros w;
    destruct (_callbackQueue (vm w)) as [|c rest] eqn:Hw.
  - by rewrite drain_nil.
  - by rewrite (drain_out_of_fuel _ _ _ Hw).
  - by rewrite drain_nil.
  - rewrite (drain_cons _ _ _ _ Hw).
    destruct (call_function c _) as [w2 [e|]]; [done|].
    specialize (IH w2). destruct (drain fuel w2); simpl in *; [| |done];
      by rewrite IH at 1.
Qed.

Lemma drives_of_callbacks cs : drives_of (EvCallback <$> cs) = [].
Proof. induction cs; simpl; auto. Qed.

Lemma drain_no_drive fuel w : drives_of (trace_of (drain fuel w)) = [].
Proof. rewrite drain_trace. apply drives_of_callbacks. Qed.

Lemma drain_never_raises fuel : ∀ w,
  (∀ c, returns (call_function c)) →
  ∀ e w' tr, drain fuel w ≠ Raise e w' tr.
Proof.
  induction fuel as [|fuel IH]; intros w Hr e w' tr;
    destruct (_callbackQueue (vm w)) as [|c rest] eqn:Hw.
  - by rewrite drain_nil.
  - by rewrite (drain_out_of_fuel _ _ _ Hw).
  - by rewrite drain_nil.
  - rewrite (drain_cons _ _ _ _ Hw).
    pose proof (Hr c (with_vm (set_callbackQueue rest) w)) as Hc.
    destruct (call_function c _) as [w2 [e2|]]; simpl in *; [done|].
    pose proof (IH w2 Hr) as IH2.
    destruct (drain fuel w2); simpl; [done| |done].
    intros [= -> -> <-]. by eapply IH2.
Qed.

Lemma drain_terminates fuel : ∀ w,
  (∀ c, keeps_callbackQueue (call_function c)) →
  (length (_callbackQueue (vm w)) ≤ fuel)%nat →
  drain fuel w ≠ Diverge.
Proof.
  induction fuel as [|fuel IH]; intros w Hk Hlen;
    destruct (_callbackQueue (vm w)) as [|c rest] eqn:Hw; simpl in Hlen.
  - by rewrite drain_nil.
  - lia.
  - by rewrite drain_nil.
  - rewrite (drain_cons _ _ _ _ Hw).
    pose proof (Hk c (with_vm (set_callbackQueue rest) w)) as Hc.
    destruct (call_function c _) as [w2 [e2|]]; simpl in *; [done|].
    assert (drain fuel w2 ≠ Diverge) by (apply IH; [done|]; rewrite Hc; lia).
    by destruct (drain fuel w2).
Qed.

Lemma trace_of_after {A} tr (r : result A) :
  r ≠ Diverge → trace_of (after tr r) = tr ++ trace_of r.
Proof. by destruct r. Qed.

Lemma final_after {A} tr (r : result A) : final (after tr r) = final r.
Proof. by destruct r. Qed.

Lemma drives_of_app t1 t2 : drives_of (t1 ++ t2) = drives_of t1 ++ drives_of t2.
Proof. unfold drives_of. apply omap_app. Qed.

Lemma callbacks_of_app t1 t2 :
  callbacks_of (t1 ++ t2) = callbacks_of t1 ++ callbacks_of t2.
Proof. unfold callbacks_of. apply omap_app. Qed.

(** *** The suspend/resume race *)

Lemma suspend_spec w :
  suspend w =
    Ok tt (with_proc (λ p, set_timers (timers p ++ [TSuspendCheck]) p)
             (with_vm (set_status SUSPENDING) w)) [].
Proof. done. Qed.

Lemma suspend_check_spec w :
  suspend_check w =
    Ok tt (if _status (vm w) =? SUSPENDING
           then with_vm (set_status SUSPENDED) w else w) [].
Proof.
  unfold suspend_check. unfold_M. by destruct (_status (vm w) =? SUSPENDING).
Qed.

(** C10: [resume] stores [RESUMING] in the status field before anything
    else (the popped unit is re-driven in a VM whose status is [RESUMING])
    and never stores [RUNNING] back: when neither the re-driven unit nor a
    drained callback changes the status field, the status is [RESUMING] when
    [resume] finishes, by returning or by raising, whether the resume stack
    held a unit or not. *)
Theorem resume_leaves_RESUMING (fuel : nat) (w : World) :
  (∀ i, keeps_status (Coroutine_resume i)) →
  (∀ i, keeps_status (Closure_run i)) →
  (∀ i, keeps_status (call_function i)) →
  (∀ st f, _resumeStack (vm w) = st ++ [f] →
     ∃ w0, _status (vm w0) = RESUMING ∧
           redrive w = try_catch (drive f) (host_call_failed f) w0) ∧
  match resume fuel w with
  | Ok _ w' _ | Raise _ w' _ =>
      _status (vm w') = RESUMING ∧ _status (vm w') ≠ RUNNING
  | Diverge => True
  end.
Proof.
  intros Hco Hcl Hfn. split.
  { intros st f Hst. eexists. split; [|by apply redrive_top]. done. }
  pose proof (resume_status fuel w) as Hst.
  destruct (resume fuel w) as [[] w' tr|e w' tr|]; [| |done];
    (rewrite (Hst w'); [done| |done|done]);
    intros f; by apply unit_code_keeps_status.
Qed.

Lemma drain_invariant (P : Z → Prop) fuel : ∀ w,
  (∀ c w, P (_status (vm w)) → P (_status (vm (call_function c w).1))) →
  P (_status (vm w)) →
  ∀ w', final (drain fuel w) = Some w' → P (_status (vm w')).
Proof.
  induction fuel as [|fuel IH]; intros w Hk HP w' Hfin;
    destruct (_callbackQueue (vm w)) as [|c rest] eqn:Hw.
  - rewrite drain_nil in Hfin by done. by simplify_eq/=.
  - by rewrite (drain_out_of_fuel _ _ _ Hw) in Hfin.
  - rewrite drain_nil in Hfin by done. by simplify_eq/=.
  - rewrite (drain_cons _ _ _ _ Hw) in Hfin.
    pose proof (Hk c (with_vm (set_callbackQueue rest) w) HP) as Hc.
    destruct (call_function c _) as [w2 [e|]]; simpl in *.
    + by simplify_eq.
    + apply (IH w2); [done..|]. by destruct (drain fuel w2).
Qed.

(** A property of the status that holds of [RESUMING] and that the units
    and the callbacks keep holds when [resume] finishes. *)
Lemma resume_invariant (P : Z → Prop) fuel w w' :
  (∀ f w, P (_status (vm w)) → P (_status (vm (unit_code f w).1))) →
  (∀ c w, P (_status (vm w)) → P (_status (vm (call_function c w).1))) →
  P RESUMING →
  final (resume fuel w) = Some w' → P (_status (vm w')).
Proof.
  intros Hu Hc HP. rewrite resume_redrive.
  assert (∀ w1, final (redrive w) = Some w1 → P (_status (vm w1))) as Hr.
  { intros w1.
    destruct (snoc_cases (_resumeStack (vm w))) as [Hst|(st & f & Hst)].
    - rewrite redrive_empty by done. by intros [= <-].
    - rewrite (redrive_top _ _ _ Hst). intros ->%try_drive_world.
      by apply Hu. }
  destruct (redrive w) as [[] w1 t1|e w1 t1|] eqn:Hre.
  - erewrite bind_Ok by done. intros Hfin.
    apply (drain_invariant P fuel w1); [done|by apply Hr|].
    by destruct (drain fuel w1).
  - erewrite bind_Raise by done. simpl. intros [= <-]. by apply Hr.
  - by erewrite bind_Diverge.
Qed.

(** C1: [suspend] stores [SUSPENDING] at once and hands the host a timer
    whose firing is a check that stores [SUSPENDED] exactly when it still
    finds [SUSPENDING].  When [resume] has run between [suspend] and the
    check, by returning or by raising, and none of the units and callbacks
    that it runs suspends the VM again (they may store any other status,
    [RUNNING] say), the check changes nothing: the status it leaves is the
    one that [resume] left, neither [SUSPENDING] nor [SUSPENDED]. *)
Theorem suspend_resume_race (fuel : nat) (w : World) :
  (∀ i, never_suspends (Coroutine_resume i)) →
  (∀ i, never_suspends (Closure_run i)) →
  (∀ i, never_suspends (call_function i)) →
  ∃ w1,
    suspend w = Ok tt w1 [] ∧
    _status (vm w1) = SUSPENDING ∧
    timers (proc w1) = timers (proc w) ++ [TSuspendCheck] ∧
    (∀ w0 ts, timers (proc w0) = TSuspendCheck :: ts →
       fire_timer w0 = suspend_check (with_proc (set_timers ts) w0)) ∧
    (∀ w0, ∃ w0',
       suspend_check w0 = Ok tt w0' [] ∧
       _status (vm w0') =
         (if _status (vm w0) =? SUSPENDING then SUSPENDED
          else _status (vm w0))) ∧
    match resume fuel w1 with
    | Ok _ w2 _ | Raise _ w2 _ =>
        suspend_check w2 = Ok tt w2 [] ∧
        _status (vm w2) ≠ SUSPENDING ∧
        _status (vm w2) ≠ SUSPENDED
    | Diverge => True
    end.
Proof.
  intros Hco Hcl Hfn. eexists. split; [apply suspend_spec|].
  split; [done|]. split; [done|]. split; [|split].
  - intros w0 ts Hts. unfold fire_timer. unfold_M. rewrite Hts. simpl.
    by destruct (suspend_check _).
  - intros w0. eexists. split; [apply suspend_check_spec|].
    by destruct (_status (vm w0) =? SUSPENDING).
  - match goal with |- match resume fuel ?w1 with _ => _ end =>
      pose proof (resume_invariant (λ s, ¬ suspended_status s) fuel w1)
        as Hres;
      destruct (resume fuel w1) as [[] w2 tr|e w2 tr|]; [| |done] end.
    all: assert (¬ suspended_status (_status (vm w2))) as Hs.
    1,3: apply Hres; [|by intros c w0; apply Hfn|by intros [?|?]|done].
    1,2: intros f w0; unfold unit_code; destruct (kind f);
      [apply Hco|apply Hcl|apply Hfn].
    all: split; [|split; intros ?; apply Hs; [by left|by right]].
    all: rewrite suspend_check_spec.
    all: destruct (Z.eqb_spec (_status (vm w2)) SUSPENDING) as [Heq|];
      [destruct Hs; by left|done].
Qed.


(** *** [resume], case by case *)

Lemma host_call_failed_spec f e w :
  host_call_failed f e w =
    if nullish e
    then Raise (TypeError "Cannot read properties of undefined") w []
    else
      let e' := ThrownShine (push_frame f (pcs (proc w) !! oid f) (wrapped e)) in
      match catchExecutionError e' with
      | None => Ok tt w [EvNormalize e']
      | Some x => Raise x w [EvNormalize e']
      end.
Proof.
  unfold host_call_failed, wrap_host_error, normalize. unfold_M.
  destruct e as [[]| |]; simpl; try done;
    match goal with |- context [catchExecutionError ?x] =>
      destruct (catchExecutionError x) end; done.
Qed.

Lemma try_drive_spec f w :
  try_catch (drive f) (host_call_failed f) w =
    match unit_code f w with
    | (w1, None) => Ok tt w1 [EvDrive f]
    | (w1, Some e) => after [EvDrive f] (host_call_failed f e w1)
    end.
Proof.
  unfold try_catch. rewrite drive_spec.
  destruct (unit_code f w) as [w1 [e|]]; [|done].
  by destruct (host_call_failed f e w1).
Qed.

Lemma resume_empty fuel w :
  _resumeStack (vm w) = [] →
  resume fuel w = drain fuel (with_vm (set_status RESUMING) w).
Proof.
  intros Hst. rewrite resume_redrive.
  erewrite bind_Ok by (by apply redrive_empty). apply after_nil.
Qed.

Lemma resume_top fuel w st f :
  _resumeStack (vm w) = st ++ [f] →
  resume fuel w =
    match unit_code f (with_vm (set_resumeStack st)
                         (with_vm (set_status RESUMING) w)) with
    | (w1, None) => after [EvDrive f] (drain fuel w1)
    | (w1, Some e) =>
        after [EvDrive f] ((host_call_failed f e ≫= λ _, drain fuel) w1)
    end.
Proof.
  intros Hst. rewrite resume_redrive.
  pose proof (redrive_top _ _ _ Hst) as Hre. rewrite try_drive_spec in Hre.
  destruct (unit_code f _) as [w1 [e|]].
  - destruct (host_call_failed f e w1) as [[] w2 t2|e2 w2 t2|] eqn:Hh;
      simpl in Hre.
    + erewrite bind_Ok by done. erewrite (bind_Ok _ _ w1) by done.
      by rewrite after_after.
    + erewrite bind_Raise by done. by erewrite (bind_Raise _ _ w1) by done.
    + by rewrite (bind_Diverge _ _ _ Hre), (bind_Diverge _ _ _ Hh).
  - by erewrite bind_Ok by done.
Qed.

(** A failed re-drive followed by the drain: no unit is driven in it, and
    the resume stack is the one the failed unit left. *)
Lemma failed_then_drain f e fuel w w' :
  (∀ c, keeps_resumeStack (call_function c)) →
  final ((host_call_failed f e ≫= λ _, drain fuel) w) = Some w' →
  _resumeStack (vm w') = _resumeStack (vm w) ∧
  drives_of (trace_of ((host_call_failed f e ≫= λ _, drain fuel) w)) = [].
Proof.
  intros Hk. pose proof (host_call_failed_spec f e w) as Hh.
  destruct (nullish e).
  { rewrite (bind_Raise _ _ _ _ _ _ Hh). by intros [= <-]. }
  cbv zeta in Hh. destruct (catchExecutionError _) as [x|].
  { rewrite (bind_Raise _ _ _ _ _ _ Hh). by intros [= <-]. }
  rewrite (bind_Ok _ _ _ _ _ _ Hh), final_after. intros Hfin. split.
  - apply (drain_preserves _resumeStack fuel); [done| |done].
    intros c w0. apply Hk.
  - rewrite trace_of_after by (by destruct (drain fuel w)).
    rewrite drives_of_app, drain_no_drive. done.
Qed.

Lemma resume_pop fuel w st f w' :
  (∀ f, keeps_resumeStack (unit_code f)) →
  (∀ c, keeps_resumeStack (call_function c)) →
  _resumeStack (vm w) = st ++ [f] →
  final (resume fuel w) = Some w' →
  drives_of (trace_of (resume fuel w)) = [f] ∧ _resumeStack (vm w') = st.
Proof.
  intros Hu Hc Hst. rewrite (resume_top _ _ _ _ Hst).
  pose proof (Hu f (with_vm (set_resumeStack st)
                      (with_vm (set_status RESUMING) w))) as Hf.
  destruct (unit_code f _) as [w1 [e|]]; simpl in Hf;
    rewrite final_after; intros Hfin.
  - destruct (failed_then_drain f e fuel w1 w' Hc Hfin) as [Hs Hd].
    rewrite trace_of_after
      by (by destruct ((host_call_failed f e ≫= λ _, drain fuel) w1)).
    rewrite drives_of_app, Hd. split; [done|]. by rewrite Hs.
  - rewrite trace_of_after by (by destruct (drain fuel w1)).
    rewrite drives_of_app, drain_no_drive. split; [done|].
    rewrite <-Hf. apply (drain_preserves _resumeStack fuel); [done| |done].
    intros c w0. apply Hc.
Qed.

Lemma resume_times_lifo fuel us : ∀ w st w' tr,
  (∀ f, keeps_resumeStack (unit_code f)) →
  (∀ c, keeps_resumeStack (call_function c)) →
  _resumeStack (vm w) = st ++ us →
  resume_times fuel (length us) w = Some (w', tr) →
  drives_of tr = reverse us ∧ _resumeStack (vm w') = st.
Proof.
  induction us as [|f us IH] using rev_ind; intros w st w' tr Hu Hc Hst Hrun.
  - simpl in Hrun. simplify_eq. by rewrite app_nil_r in Hst.
  - rewrite length_app, Nat.add_comm in Hrun. simpl in Hrun.
    rewrite app_assoc in Hst.
    pose proof (resume_pop fuel w (st ++ us) f) as Hpop.
    destruct (resume fuel w) as [[] w1 t1|e w1 t1|] eqn:Hres; [| |done];
      (destruct (resume_times fuel (length us) w1) as [[w2 t2]|] eqn:Hrest;
         simpl in Hrun; [|done]);
      simplify_eq;
      (destruct (Hpop w1) as [Hd Hs]; [done..|]);
      (destruct (IH w1 st w' t2) as [Hd2 Hs2]; [done..|]);
      simpl in Hd; rewrite drives_of_app, Hd, Hd2, reverse_snoc; done.
Qed.


(** C2: a call to [resume] on a non-empty resume stack takes exactly the
    unit pushed last off the stack and re-drives it (the unit runs with
    the rest of the stack in place); when the code that [resume] runs
    leaves the resume stack alone, N calls after N pushes re-drive the
    units in the reverse of the order in which they were pushed; on an
    empty stack nothing is removed or re-driven, [resume] raises only if a
    queued callback does, and returns once the queue is drained. *)
Theorem resume_pops_most_recent (fuel : nat) (w : World) :
  (∀ i, keeps_resumeStack (Coroutine_resume i)) →
  (∀ i, keeps_resumeStack (Closure_run i)) →
  (∀ i, keeps_resumeStack (call_function i)) →
  (∀ st f, _resumeStack (vm w) = st ++ [f] →
     resume fuel w =
       match unit_code f (with_vm (set_resumeStack st)
                            (with_vm (set_status RESUMING) w)) with
       | (w1, None) => after [EvDrive f] (drain fuel w1)
       | (w1, Some e) =>
           after [EvDrive f] ((host_call_failed f e ≫= λ _, drain fuel) w1)
       end) ∧
  (∀ st f w', _resumeStack (vm w) = st ++ [f] →
     final (resume fuel w) = Some w' →
     drives_of (trace_of (resume fuel w)) = [f] ∧
     _resumeStack (vm w') = st) ∧
  (∀ st us w' tr, _resumeStack (vm w) = st ++ us →
     resume_times fuel (length us) w = Some (w', tr) →
     drives_of tr = reverse us ∧ _resumeStack (vm w') = st) ∧
  (_resumeStack (vm w) = [] →
     (∀ w', final (resume fuel w) = Some w' →
        drives_of (trace_of (resume fuel w)) = [] ∧
        _resumeStack (vm w') = []) ∧
     ((∀ c, returns (call_function c)) →
        ∀ e w' tr, resume fuel w ≠ Raise e w' tr) ∧
     ((∀ c, returns (call_function c)) →
      (∀ c, keeps_callbackQueue (call_function c)) →
      (length (_callbackQueue (vm w)) ≤ fuel)%nat →
      ∃ w' tr, resume fuel w = Ok tt w' tr)).
Proof.
  intros Hco Hcl Hfn.
  assert (∀ f, keeps_resumeStack (unit_code f)) as Hu.
  { intros f. unfold unit_code. by destruct (kind f). }
  split; [intros st f; apply resume_top|].
  split; [intros st f w' Hst Hfin; by apply resume_pop|].
  split; [intros st us w' tr; by apply resume_times_lifo|].
  intros Hst. rewrite resume_empty by done. split; [|split].
  - intros w' Hfin. split; [apply drain_no_drive|].
    rewrite <-Hst.
    apply (drain_preserves _resumeStack fuel _ (λ _ _, eq_refl)) in Hfin;
      [done|]. intros c w0. apply Hfn.
  - intros Hr. by apply drain_never_raises.
  - intros Hr Hq Hlen.
    pose proof (drain_never_raises fuel
                  (with_vm (set_status RESUMING) w) Hr) as Hnr.
    pose proof (drain_terminates fuel
                  (with_vm (set_status RESUMING) w) Hq Hlen) as Hnd.
    destruct (drain fuel _) as [[] w' tr|e w' tr|]; [eauto| |done].
    by destruct (Hnr e w' tr).
Qed.

(** *** The callback queue is first-in-first-out *)

Lemma drain_fifo fuel : ∀ w w' tr,
  drain fuel w = Ok tt w' tr →
  _callbackQueue (vm w') = [] ∧
  ((∀ c, appends_only (call_function c)) →
   callbacks_of tr = _callbackQueue (vm w) ++ enqueued_during fuel w).
Proof.
  induction fuel as [|fuel IH]; intros w w' tr Hrun;
    destruct (_callbackQueue (vm w)) as [|c rest] eqn:Hw.
  - rewrite drain_nil in Hrun by done. simplify_eq. split; [done|].
    intros _. simpl. by rewrite Hw.
  - by rewrite (drain_out_of_fuel _ _ _ Hw) in Hrun.
  - rewrite drain_nil in Hrun by done. simplify_eq. split; [done|].
    intros _. simpl. by rewrite Hw.
  - rewrite (drain_cons _ _ _ _ Hw) in Hrun. simpl. rewrite Hw.
    destruct (call_function c _) as [w2 [e|]] eqn:Hcall; [done|].
    destruct (drain fuel w2) as [[] w3 t3| |] eqn:Hrest; [|done..].
    simpl in Hrun. simplify_eq.
    destruct (IH w2 w' t3 Hrest) as [Hempty Hfifo]. split; [done|].
    intros Happ. simpl. rewrite (Hfifo Happ).
    destruct (Happ c (with_vm (set_callbackQueue rest) w)) as [k Hk].
    rewrite Hcall in Hk. simpl in Hk. rewrite Hk.
    rewrite drop_app_length. by rewrite <-app_assoc.
Qed.

Lemma host_call_failed_no_callback f e w :
  callbacks_of (trace_of (host_call_failed f e w)) = [].
Proof.
  rewrite host_call_failed_spec. destruct (nullish e); [done|].
  cbv zeta. by destruct (catchExecutionError _).
Qed.

Lemma redrive_no_callback w : callbacks_of (trace_of (redrive w)) = [].
Proof.
  destruct (snoc_cases (_resumeStack (vm w))) as [Hst|(st & f & Hst)].
  - by rewrite redrive_empty.
  - rewrite (redrive_top _ _ _ Hst), try_drive_spec.
    destruct (unit_code f _) as [w1 [e|]]; [|done].
    pose proof (host_call_failed_no_callback f e w1) as Hh.
    by destruct (host_call_failed f e w1).
Qed.

Lemma redrive_drives_first w st f :
  _resumeStack (vm w) = st ++ [f] →
  ∃ tr', trace_of (redrive w) = EvDrive f :: tr'.
Proof.
  intros Hst. rewrite (redrive_top _ _ _ Hst), try_drive_spec.
  destruct (unit_code f _) as [w1 [e|]]; [|by eexists].
  pose proof (host_call_failed_total f e w1).
  destruct (host_call_failed f e w1); simpl; eauto. done.
Qed.

Lemma callbacks_of_callbacks cs : callbacks_of (EvCallback <$> cs) = cs.
Proof. induction cs; simpl; f_equal; auto. Qed.



(** *** Host-call faults *)

Lemma split_lines_cons s : ∃ piece pieces, split_lines s = piece :: pieces.
Proof.
  induction s as [|c s (piece & pieces & IH)]; simpl; [by eauto|].
  destruct (Ascii.eqb c LF); [by eauto|]. rewrite IH. by eauto.
Qed.

Lemma join_lines_String c piece pieces :
  join_lines (String c piece :: pieces) = String c (join_lines (piece :: pieces)).
Proof. by destruct pieces. Qed.

(** Splitting a trace into lines loses none of its text. *)
Lemma join_split_lines s : join_lines (split_lines s) = s.
Proof.
  induction s as [|c s IH]; simpl; [done|].
  destruct (split_lines_cons s) as (piece & pieces & Hs).
  destruct (Ascii.eqb c LF) eqn:Hc.
  - apply Ascii.eqb_eq in Hc as ->. rewrite Hs in *.
    change (String LF (join_lines (piece :: pieces)) = String LF s).
    by rewrite IH.
  - rewrite Hs in *.
    change (join_lines (String c piece :: pieces) = String c s).
    by rewrite join_lines_String, IH.
Qed.

(** X1: a raised value that is not a [shine.Error] and of which properties
    can be read is wrapped: the wrapper keeps the native trace, its
    [luaStack] is that trace line by line (joining the lines gives the
    trace back) followed by the frame of the failed unit with its [_pc]
    minus one, and the wrapper goes to the normalizer, whose verdict is that
    of [resume]. *)
Lemma resume_wraps_host_fault fuel w st f w1 e :
  _resumeStack (vm w) = st ++ [f] →
  unit_code f (with_vm (set_resumeStack st)
                 (with_vm (set_status RESUMING) w)) = (w1, Some e) →
  nullish e = false →
  is_ShineError e = false →
  let se := push_frame f (pcs (proc w1) !! oid f) (wrapped e) in
  err_stack se = Some (native_stack e) ∧
  luaStack se =
    Some ((TraceLine <$> split_lines (native_stack e)) ++
          [Frame f (minus_one (pcs (proc w1) !! oid f))]) ∧
  join_lines (split_lines (native_stack e)) = native_stack e ∧
  resume fuel w =
    match catchExecutionError (ThrownShine se) with
    | Some x => Raise x w1 [EvDrive f; EvNormalize (ThrownShine se)]
    | None =>
        after [EvDrive f; EvNormalize (ThrownShine se)] (drain fuel w1)
    end.
Proof.
  intros Hst Hcode Hnull Hshine se.
  split; [by destruct e as [[]| |]|].
  split; [by destruct e as [[]| |]|].
  split; [apply join_split_lines|].
  rewrite (resume_top _ _ _ _ Hst), Hcode.
  pose proof (host_call_failed_spec f e w1) as Hh.
  rewrite Hnull in Hh. cbv zeta in Hh. fold se in Hh.
  destruct (catchExecutionError _) as [x|].
  - by rewrite (bind_Raise _ _ _ _ _ _ Hh).
  - rewrite (bind_Ok _ _ _ _ _ _ Hh). by rewrite after_after.
Qed.

(** A [shine.Error] goes to the normalizer as it is, with the frame
    appended to its [luaStack]. *)
Lemma resume_forwards_shine_error fuel w st f w1 se :
  _resumeStack (vm w) = st ++ [f] →
  unit_code f (with_vm (set_resumeStack st)
                 (with_vm (set_status RESUMING) w)) = (w1, Some (ThrownShine se)) →
  let se' := push_frame f (pcs (proc w1) !! oid f) se in
  luaStack se' =
    Some (default [] (luaStack se) ++
          [Frame f (minus_one (pcs (proc w1) !! oid f))]) ∧
  resume fuel w =
    match catchExecutionError (ThrownShine se') with
    | Some x => Raise x w1 [EvDrive f; EvNormalize (ThrownShine se')]
    | None => after [EvDrive f; EvNormalize (ThrownShine se')] (drain fuel w1)
    end.
Proof.
  intros Hst Hcode se'. split; [done|].
  rewrite (resume_top _ _ _ _ Hst), Hcode.
  pose proof (host_call_failed_spec f (ThrownShine se) w1) as Hh.
  simpl in Hh. fold se' in Hh.
  destruct (catchExecutionError _) as [x|].
  - by rewrite (bind_Raise _ _ _ _ _ _ Hh).
  - rewrite (bind_Ok _ _ _ _ _ _ Hh). by rewrite after_after.
Qed.

(** When the unit raises [undefined] or [null], the [catch] block itself
    raises on [e.stack]: the normalizer is not called and the callback
    queue is not drained. *)
Lemma resume_nullish_fault fuel w st f w1 e :
  _resumeStack (vm w) = st ++ [f] →
  unit_code f (with_vm (set_resumeStack st)
                 (with_vm (set_status RESUMING) w)) = (w1, Some e) →
  nullish e = true →
  resume fuel w =
    Raise (TypeError "Cannot read properties of undefined") w1 [EvDrive f].
Proof.
  intros Hst Hcode Hnull. rewrite (resume_top _ _ _ _ Hst), Hcode.
  pose proof (host_call_failed_spec f e w1) as Hh. rewrite Hnull in Hh.
  by rewrite (bind_Raise _ _ _ _ _ _ Hh).
Qed.


(** *** [execute] *)

Lemma bind_ext {A B} (m : M A) (k k' : A → M B) w :
  (∀ a w', k a w' = k' a w') → (m ≫= k) w = (m ≫= k') w.
Proof. intros Hk. unfold_M. destruct (m w); [|done..]. by rewrite Hk. Qed.

(** The loop in direct mode, turn by turn. *)
Lemma execute_files_cons f rest w :
  execute_files None (f :: rest) w =
    match data f with
    | None =>
        Raise (Error "Tried to execute file before data loaded.") w []
    | Some d => (execute_file None f d ≫= λ _, execute_files None rest) w
    end.
Proof.
  unfold execute_files, execute_file. simpl. destruct (data f); [|done].
  unfold_M. simpl.
  destruct (execute_turn None None f n w) as [[] w1 t1|e w1 t1|]; [|done..].
  by destruct (execute_turns None None rest w1).
Qed.

(** The loop on one file, in either mode. *)
Lemma execute_files_single coConfig f d w :
  data f = Some d →
  execute_files coConfig [f] w =
    (execute_file coConfig f d ≫= λ _, mret tt) w.
Proof.
  intros Hd. unfold execute_files, execute_file. simpl. rewrite Hd.
  unfold_M. simpl.
  by destruct (execute_turn None coConfig f d w) as [[] w1 t1|e w1 t1|].
Qed.

Lemma execute_files_app pre : ∀ rest w,
  execute_files None (pre ++ rest) w =
  (execute_files None pre ≫= λ _, execute_files None rest) w.
Proof.
  induction pre as [|f pre IH]; intros rest w.
  - simpl. unfold_M. unfold execute_files at 2. simpl.
    by destruct (execute_files None rest w).
  - rewrite <-app_comm_cons, execute_files_cons.
    assert ((execute_files None (f :: pre) ≫= λ _, execute_files None rest) w
            = match data f with
              | None =>
                  Raise (Error "Tried to execute file before data loaded.")
                    w []
              | Some d =>
                  ((execute_file None f d ≫= λ _, execute_files None pre)
                   ≫= λ _, execute_files None rest) w
              end) as ->.
    { unfold_M. rewrite (execute_files_cons f pre w). unfold_M.
      by destruct (data f). }
    destruct (data f) as [d|]; [|done].
    rewrite bind_assoc. apply bind_ext. intros [] w'. apply IH.
Qed.

(** Every turn of the loop constructs one unit, for its own file. *)
Lemma execute_file_constructed coConfig f d w :
  execute_file coConfig f d w ≠ Diverge ∧
  constructed_of (trace_of (execute_file coConfig f d w)) =
    [Thread f d (_globals (vm w))].
Proof.
  unfold execute_file, execute_turn, hand_over, _trigger, co_resume,
    normalize, setTimeout.
  unfold_M. simpl.
  destruct (listeners _ _) as [w1 [e|]]; simpl; [done|].
  destruct coConfig as [cfg|]; simpl.
  - destruct (coroutine_step _ _) as [w2 [e|]]; simpl.
    + by destruct (catchExecutionError e).
    + by destruct (uiOnly cfg && negb (coroutine_status _ w2 =? DEAD)).
  - destruct (Function_call _ _) as [w2 [e|]]; simpl; [|done].
    by destruct (catchExecutionError e).
Qed.

Lemma constructed_of_app t1 t2 :
  constructed_of (t1 ++ t2) = constructed_of t1 ++ constructed_of t2.
Proof. unfold constructed_of. apply omap_app. Qed.

(** Without a file argument, on a VM whose [_files] field is absent (as
    the constructor leaves it), [files.length] is what raises. *)
Lemma execute_without_files_field coConfig w :
  _files (vm w) = None →
  execute coConfig None w =
    Raise (TypeError "Cannot read properties of undefined") w [].
Proof. intros Hf. unfold execute. unfold_M. by rewrite Hf. Qed.

(** *** [load] *)

(** C8, as the code has it: the callback of [load] first emits the
    [file-loaded] notification with the file; when the listeners return,
    it goes on to [execute] that file exactly when the [execute] argument
    is truthy or [undefined], and returns at once for [false] and for
    every other falsy value ([null], [0], [NaN], the empty string). *)
Theorem load_callback_executes
    (url : string) (exec : value) (coConfig : option CoConfig)
    (file : File) (w : World) :
  match listeners (FileLoaded file) w with
  | (w1, Some e) =>
      load_callback url exec coConfig None file w =
        Raise e w1 [EvTrigger (FileLoaded file)]
  | (w1, None) =>
      load_callback url exec coConfig None file w =
        if truthy exec || bool_decide (exec = VScalar SUndefined)
        then after [EvTrigger (FileLoaded file)]
               (execute coConfig (Some file) w1)
        else Ok tt w1 [EvTrigger (FileLoaded file)]
  end ∧
  (truthy exec || bool_decide (exec = VScalar SUndefined) = false ↔
   exec = VScalar (SBool false) ∨ exec = VScalar SNull ∨
   exec = VScalar (SNum 0) ∨ exec = VScalar SNaN ∨ exec = VScalar (SStr "")).
Proof.
  split.
  - unfold load_callback, _trigger. unfold_M. simpl.
    destruct (listeners _ _) as [w1 [e|]]; [done|].
    destruct (truthy exec || _); simpl; [|done].
    by destruct (execute coConfig (Some file) w1).
  - destruct exec as [[| |[]|n| |s]| | | |]; simpl;
      try (split; [done|intros [|[|[|[|]]]]; done]);
      try (split; [auto 6; done|done]).
    + destruct (Z.eqb_spec n 0) as [->|Hn]; simpl.
      * split; [auto 6|done].
      * split; [done|]. intros [|[|[|[|]]]]; congruence.
    + destruct (String.eqb_spec s "") as [->|Hs]; simpl.
      * split; [auto 6|done].
      * split; [done|]. intros [|[|[|[|]]]]; congruence.
Qed.


(** *** The second loop of [_resetGlobals] *)

Lemma overlay_turns_plain g env kvs : ∀ h w,
  plain_env env →
  (∀ k v, (k, v) ∈ kvs → env !! k = Some v) →
  _env (vm w) = Some env →
  _globals (vm w) = Some g →
  overlay_turns kvs.*1 (with_proc (set_tables h) w) =
    Ok tt
      (with_proc
         (set_tables (foldl (λ h kv, set_prop h g kv.1 kv.2) h kvs)) w)
      [].
Proof.
  induction kvs as [|[k v] kvs IH]; intros h w Hplain Hin Henv Hg; [done|].
  destruct Hplain as [Hown Hproto].
  assert (env !! k = Some v) as Hk by (apply Hin; by left).
  assert (k ≠ "__proto__") as Hne by (intros ->; congruence).
  change (overlay_turns ((k, v) :: kvs).*1)
    with (overlay_turn k ≫= λ _, overlay_turns kvs.*1).
  assert (overlay_turn k (with_proc (set_tables h) w) =
          Ok tt (with_proc (set_tables (set_prop h g k v)) w) []) as Hturn.
  { unfold overlay_turn, env_owns, assign_global. unfold_M. simpl.
    rewrite Henv. simpl. rewrite Hown, Hk. simpl. rewrite Hg. simpl.
    by destruct (decide (k = "__proto__")). }
  rewrite (bind_Ok _ _ _ _ _ _ Hturn), after_nil.
  apply IH; [done| |done..]. intros k' v' Hin'. apply Hin. by right.
Qed.

(** For a plain host environment the constructor is [new_VM_plain]. *)
Lemma new_VM_plain_env env p :
  plain_env (default ∅ env) → new_VM env p = new_VM_plain env p.
Proof.
  intros Hplain. unfold new_VM, new_VM_plain, _resetGlobals,
    _resetGlobals_plain. unfold_M. simpl.
  destruct (_bindLib lib (tables p)) as [g h1]. simpl.
  destruct (for_each _ _ _) as [h2 []]; simpl; [|done].
  destruct (register_G g h2) as [h3|]; simpl; [|done].
  erewrite (overlay_turns_plain g (default ∅ env)
              (map_to_list (default ∅ env))); [done|done| |done..].
  intros k v. apply elem_of_map_to_list.
Qed.

(** *** [dispose] *)

Lemma lookup_seq_all {A} (fs : list A) : ∀ pre,
  omap (λ i, (pre ++ fs) !! i) (seq (length pre) (length fs)) = fs.
Proof.
  induction fs as [|f fs IH]; intros pre; [done|].
  simpl. rewrite list_lookup_middle by done. f_equal.
  specialize (IH (pre ++ [f])). rewrite length_app in IH. simpl in IH.
  rewrite <-app_assoc, Nat.add_1_r in IH. exact IH.
Qed.

(** With files whose [dispose] returns and leaves the VM's fields alone,
    the loop disposes the files at the given indices, in order. *)
Lemma dispose_files_spec indices : ∀ w fs,
  (∀ f, returns (File_dispose f)) →
  (∀ f, keeps_vm (File_dispose f)) →
  _files (vm w) = Some fs →
  ∃ w1, dispose_files indices w =
          Ok tt w1 (EvDisposeFile <$> omap (λ i, fs !! i) indices) ∧
        vm w1 = vm w.
Proof.
  induction indices as [|i indices IH]; intros w fs Hr Hk Hfs; simpl;
    [by eauto|].
  unfold dispose_file_at. unfold_M. rewrite Hfs. simpl.
  destruct (fs !! i) as [f|]; simpl.
  - pose proof (Hr f w) as Hf. pose proof (Hk f w) as Hv.
    destruct (File_dispose f w) as [w1 [e|]]; simpl in *; [done|].
    destruct (IH w1 fs Hr Hk) as (w2 & -> & Hw2); [by rewrite Hv|].
    simpl. eexists. split; [done|]. congruence.
  - destruct (IH w fs Hr Hk Hfs) as (w2 & -> & Hw2). by eauto.
Qed.

(** The whole loop of [dispose], under the same conditions. *)
Lemma dispose_loop_spec w :
  (∀ f, returns (File_dispose f)) →
  (∀ f, keeps_vm (File_dispose f)) →
  ∃ w1, dispose_files (seq 0 (length (default [] (_files (vm w))))) w =
          Ok tt w1 (EvDisposeFile <$> default [] (_files (vm w))) ∧
        vm w1 = vm w.
Proof.
  intros Hr Hk. destruct (_files (vm w)) as [fs|] eqn:Hfs; [|by eauto].
  destruct (dispose_files_spec (seq 0 (length fs)) w fs Hr Hk Hfs)
    as (w1 & Hrun & Hvm).
  exists w1. split; [|done]. simpl. rewrite Hrun.
  pose proof (lookup_seq_all fs []) as Hall. simpl in Hall.
  by rewrite Hall.
Qed.

(** Construction leaves the static pools as they are. *)
Lemma new_VM_pools env p w :
  plain_env (default ∅ env) →
  final (new_VM env p) = Some w →
  Closure_graveyard (proc w) = Closure_graveyard p ∧
  Closure_current (proc w) = Closure_current p ∧
  Coroutine_graveyard (proc w) = Coroutine_graveyard p.
Proof.
  intros Hplain. rewrite new_VM_plain_env by done.
  unfold new_VM_plain, _resetGlobals_plain. unfold_M. simpl.
  destruct (_bindLib lib (tables p)) as [g h1]. simpl.
  destruct (for_each _ _ _) as [h2 []]; simpl; [|by intros [= <-]].
  destruct (register_G g h2) as [h3|]; simpl; by intros [= <-].
Qed.

(** What [dispose] does when its collaborators return and leave the VM's
    fields alone. *)
Lemma dispose_spec (w : World) (fm : FileManager) :
  fileManager (vm w) = Some fm →
  (∀ f, returns (File_dispose f)) → (∀ f, keeps_vm (File_dispose f)) →
  (∀ t, returns (Function_dispose t)) → (∀ t, keeps_vm (Function_dispose t)) →
  returns FileManager_dispose → keeps_vm FileManager_dispose →
  ∃ w1,
    dispose w =
      Ok tt w1
        ((EvDisposeFile <$> default [] (_files (vm w))) ++
         match _thread (vm w) with
         | Some t => [EvDisposeThread t]
         | None => []
         end ++ [EvDisposeFileManager]) ∧
    vm w1 = mkVM None None None (_status (vm w)) (_resumeStack (vm w))
              (_callbackQueue (vm w)) None None None ∧
    pools_empty (proc w1).
Proof.
  intros Hfm Hrf Hkf Hrt Hkt Hrm Hkm.
  unfold dispose, dispose_owned. unfold_M. simpl.
  destruct (dispose_loop_spec w Hrf Hkf) as (wa & -> & Hwa). simpl.
  rewrite Hwa.
  destruct (_thread (vm w)) as [t|]; simpl.
  - pose proof (Hrt t wa) as Ht. pose proof (Hkt t wa) as Hv.
    destruct (Function_dispose t wa) as [wb [e|]]; simpl in *; [done|].
    rewrite Hv, Hwa, Hfm. simpl.
    pose proof (Hrm (with_vm delete_owned wb)) as Hm.
    pose proof (Hkm (with_vm delete_owned wb)) as Hvm.
    destruct (FileManager_dispose _) as [wc [e|]]; simpl in *; [done|].
    eexists. split; [by rewrite <-?app_assoc, ?app_nil_r|].
    simpl. rewrite Hvm, Hv, Hwa. done.
  - rewrite Hwa, Hfm. simpl.
    pose proof (Hrm (with_vm delete_owned wa)) as Hm.
    pose proof (Hkm (with_vm delete_owned wa)) as Hvm.
    destruct (FileManager_dispose _) as [wc [e|]]; simpl in *; [done|].
    eexists. split; [by rewrite <-?app_assoc, ?app_nil_r|].
    simpl. rewrite Hvm, Hwa. done.
Qed.

(** C9, as the code has it: a first [dispose] whose collaborators return
    and leave the VM's fields alone does not fault, deletes the fields
    that the VM owns, the file manager among them, and empties the three
    static pools, so that a VM constructed afterwards finds them empty; a
    second [dispose] on the same VM faults, on the file manager that the
    first one deleted, and changes nothing. *)
Theorem dispose_clears_pools_once (w : World) (fm : FileManager) :
  fileManager (vm w) = Some fm →
  (∀ f, returns (File_dispose f)) → (∀ f, keeps_vm (File_dispose f)) →
  (∀ t, returns (Function_dispose t)) → (∀ t, keeps_vm (Function_dispose t)) →
  returns FileManager_dispose → keeps_vm FileManager_dispose →
  ∃ w1 tr1,
    dispose w = Ok tt w1 tr1 ∧
    vm w1 = mkVM None None None (_status (vm w)) (_resumeStack (vm w))
              (_callbackQueue (vm w)) None None None ∧
    pools_empty (proc w1) ∧
    (∀ env w2, plain_env (default ∅ env) →
               final (new_VM env (proc w1)) = Some w2 →
               pools_empty (proc w2)) ∧
    dispose w1 =
      Raise (TypeError "Cannot read properties of undefined") w1 [].
Proof.
  intros Hfm Hrf Hkf Hrt Hkt Hrm Hkm.
  destruct (dispose_spec w fm Hfm Hrf Hkf Hrt Hkt Hrm Hkm)
    as (w1 & Hd & Hvm & Hpools).
  exists w1. eexists. split; [exact Hd|]. split; [done|]. split; [done|].
  split.
  - intros env w2 Hplain Hnew.
    destruct (new_VM_pools _ _ _ Hplain Hnew) as (H1 & H2 & H3).
    unfold pools_empty in *. rewrite H1, H2, H3. done.
  - unfold dispose, dispose_owned. unfold_M. simpl. rewrite Hvm. simpl.
    destruct w1 as [v1 p1]. simpl in Hvm. by subst v1.
Qed.


(** *** The environment binder *)

Lemma libentry_nested_ind (P : libentry → Prop) :
  (∀ t, P (LTable t)) →
  (∀ es, Forall (λ ke, P ke.2) es → P (LObject es)) →
  (∀ f, P (LFunc f)) →
  (∀ s, P (LScalar s)) →
  (∀ o, P (LHostObject o)) →
  ∀ e, P e.
Proof.
  intros Ht Ho Hf Hs Hh. fix IH 1. intros [t|es|f|s|o].
  - apply Ht.
  - apply Ho. induction es as [|[k e] es IHes]; constructor.
    + apply IH.
    + apply IHes.
  - apply Hf.
  - apply Hs.
  - apply Hh.
Qed.

Lemma bind_entry_object es h :
  bind_entry (LObject es) h =
    let '(result, h1) := bind_loop es (∅, h) in
    (VTable (length h1), h1 ++ [result]).
Proof.
  reflexivity.
Qed.

Lemma bound_mono h h' v e : bound h v e → h `prefix_of` h' → bound h' v e.
Proof.
  destruct e as [t|es|f|s|o]; simpl; auto.
  - intros (l & -> & Hl) Hpre. exists l. split; [done|].
    by eapply prefix_lookup_Some.
  - intros (h0 & result & h1 & Hloop & -> & Hp) Hpre.
    exists h0, result, h1. split; [done|]. split; [done|]. by etrans.
Qed.

Lemma bind_loop_ok_from es :
  Forall (λ ke, bind_entry_ok ke.2) es →
  ∀ acc h result h',
    bind_loop es (acc, h) = (result, h') →
    h `prefix_of` h' ∧
    ∀ k, match obj_get k es with
         | Some e => ∃ v, result !! k = Some v ∧ bound h' v e
         | None => result !! k = acc !! k
         end.
Proof.
  induction es as [|[k0 e0] es IH]; intros Hall acc h result h' Hloop.
  - simpl in Hloop. by simplify_eq.
  - apply Forall_cons in Hall as [He0 Hall]. simpl in Hloop, He0.
    destruct (bind_entry e0 h) as [v0 h0] eqn:Hb.
    destruct (He0 _ _ _ Hb) as [Hp0 Hb0].
    destruct (IH Hall _ _ _ _ Hloop) as [Hp Hlook].
    split; [by etrans|]. intros k. specialize (Hlook k). simpl.
    destruct (obj_get k es) as [e|]; [done|].
    rewrite Hlook. destruct (decide (k = k0)) as [->|Hne].
    + exists v0. rewrite lookup_insert_eq. split; [done|].
      by eapply bound_mono.
    + by rewrite lookup_insert_ne.
Qed.

Lemma bind_entry_all_ok e : bind_entry_ok e.
Proof.
  induction e as [t|es IH|f|s|o] using libentry_nested_ind;
    intros h v h' Hb; try (simpl in Hb; by simplify_eq).
  - simpl in Hb. simplify_eq. split; [by apply prefix_app_r|].
    exists (length h). split; [done|]. by apply list_lookup_middle.
  - rewrite bind_entry_object in Hb.
    destruct (bind_loop es (∅, h)) as [result h1] eqn:Hloop. simplify_eq.
    destruct (bind_loop_ok_from es IH _ _ _ _ Hloop) as [Hp _].
    split; [by apply prefix_app_r|]. by exists h, result, h1.
Qed.

Lemma bind_loop_ok es acc h result h' :
  bind_loop es (acc, h) = (result, h') →
  h `prefix_of` h' ∧
  ∀ k, match obj_get k es with
       | Some e => ∃ v, result !! k = Some v ∧ bound h' v e
       | None => result !! k = acc !! k
       end.
Proof.
  apply bind_loop_ok_from, Forall_forall. intros ke _.
  apply bind_entry_all_ok.
Qed.

(** A table entry is bound to a table that is in the heap. *)
Lemma bound_table h v e :
  bound h v e → is_table_entry e = true →
  ∃ l t, v = VTable l ∧ h !! l = Some t.
Proof.
  destruct e as [t|es|f|s|o]; simpl; try done.
  - intros (l & -> & Hl) _. by eauto.
  - intros (h0 & result & h1 & _ & -> & Hp) _.
    exists (length h1), result. split; [done|].
    eapply prefix_lookup_Some; [|done]. by apply list_lookup_middle.
Qed.

(** The heap right after [_bindLib(shine.lib)]: the globals at [g], the
    [package] table at [p], its [loaded] table at [l], each at an address
    of its own. *)
Lemma bindLib_package h g h1 :
  lib_has_package_loaded →
  _bindLib lib h = (g, h1) →
  ∃ result p ptab l ltab,
    h1 !! g = Some result ∧
    result !! "package" = Some (VTable p) ∧
    h1 !! p = Some ptab ∧
    ptab !! "loaded" = Some (VTable l) ∧
    h1 !! l = Some ltab ∧
    l ≠ g ∧ p ≠ g ∧ l ≠ p ∧
    (∀ k e, obj_get k lib = Some e → is_table_entry e = true →
            ∃ x, result !! k = Some (VTable x)).
Proof.
  intros (pk & ld & Hpk & Hld & Htab). unfold _bindLib, alloc.
  destruct (bind_loop lib (∅, h)) as [result h0] eqn:Hloop.
  intros [= <- <-].
  destruct (bind_loop_ok _ _ _ _ _ Hloop) as [_ Hlook].
  pose proof (Hlook "package") as Hp. rewrite Hpk in Hp.
  destruct Hp as (v & Hv & (hp0 & ptab & hp1 & Hploop & -> & Hpre)).
  destruct (bind_loop_ok _ _ _ _ _ Hploop) as [_ Hplook].
  pose proof (Hplook "loaded") as Hl. rewrite Hld in Hl.
  destruct Hl as (vl & Hvl & Hbl).
  destruct (bound_table _ _ _ Hbl Htab) as (l & ltab & -> & Hltab).
  assert (h0 !! length hp1 = Some ptab) as Hptab.
  { eapply prefix_lookup_Some; [|done]. by apply list_lookup_middle. }
  assert (h0 !! l = Some ltab) as Hltab0.
  { eapply prefix_lookup_Some; [done|]. etrans; [|done].
    by apply prefix_app_r. }
  pose proof (lookup_lt_Some _ _ _ Hptab) as Hplt.
  pose proof (lookup_lt_Some _ _ _ Hltab) as Hllt.
  exists result, (length hp1), ptab, l, ltab.
  split; [by apply list_lookup_middle|]. split; [done|].
  split; [by apply lookup_app_l_Some|]. split; [done|].
  split; [by apply lookup_app_l_Some|].
  split; [lia|]. split; [lia|]. split; [lia|].
  intros k e Hk He. specialize (Hlook k). rewrite Hk in Hlook.
  destruct Hlook as (v & Hv' & Hb).
  destruct (bound_table _ _ _ Hb He) as (x & t & -> & _). by eauto.
Qed.


(** *** [_resetGlobals] *)

Lemma get_prop_Some h l t k : h !! l = Some t → get_prop h l k = t !! k.
Proof. unfold get_prop. by intros ->. Qed.

Lemma set_prop_Some h l t k v :
  h !! l = Some t → set_prop h l k v = <[l := <[k := v]> t]> h.
Proof. unfold set_prop. by intros ->. Qed.

Lemma for_each_cons {A S} (body : S → A → option S) x xs s s' :
  body s x = Some s' → for_each body (x :: xs) s = for_each body xs s'.
Proof. simpl. by intros ->. Qed.

Lemma register_loaded_table g p l result ptab ltab h k x :
  h !! g = Some result →
  result !! "package" = Some (VTable p) →
  h !! p = Some ptab →
  ptab !! "loaded" = Some (VTable l) →
  h !! l = Some ltab →
  result !! k = Some (VTable x) →
  register_loaded g h k = Some (<[l := <[k := VTable x]> ltab]> h).
Proof.
  intros Hg Hpk Hp Hld Hl Hk. unfold register_loaded. simpl.
  rewrite !(get_prop_Some _ _ _ _ Hg), Hk, Hpk. simpl.
  rewrite (get_prop_Some _ _ _ _ Hp), Hld. simpl.
  by rewrite (set_prop_Some _ _ _ _ _ Hl).
Qed.

Lemma register_loaded_other g result h k :
  h !! g = Some result →
  (∀ x, result !! k ≠ Some (VTable x)) →
  register_loaded g h k = Some h.
Proof.
  intros Hg Hk. unfold register_loaded. simpl.
  rewrite !(get_prop_Some _ _ _ _ Hg).
  destruct (result !! k) as [[| | |x|]|]; simpl; try done.
  by destruct (Hk x).
Qed.

(** The first loop: every global that is a table is entered in
    [package.loaded] under its own name; nothing else changes. *)
Lemma register_loop g p l result ptab ks : ∀ h ltab,
  h !! g = Some result →
  result !! "package" = Some (VTable p) →
  h !! p = Some ptab →
  ptab !! "loaded" = Some (VTable l) →
  h !! l = Some ltab →
  l ≠ g → l ≠ p →
  ∃ ltab',
    for_each (register_loaded g) ks h = (<[l := ltab']> h, true) ∧
    (∀ k x, k ∈ ks → result !! k = Some (VTable x) →
            ltab' !! k = Some (VTable x)) ∧
    (∀ k x, result !! k = Some (VTable x) → ltab !! k = Some (VTable x) →
            ltab' !! k = Some (VTable x)).
Proof.
  induction ks as [|k0 ks IH]; intros h ltab Hg Hpk Hp Hld Hl Hlg Hlp.
  - exists ltab. simpl. split; [by rewrite list_insert_id|].
    split; [|done]. intros k x Hk. by apply elem_of_nil in Hk.
  - destruct (result !! k0) as [[| | |x0|]|] eqn:Hk0.
    4: {
      rewrite (for_each_cons _ _ _ _ _
                 (register_loaded_table _ _ _ _ _ _ _ _ _ Hg Hpk Hp Hld Hl Hk0)).
      pose proof (lookup_lt_Some _ _ _ Hl) as Hlt.
      destruct (IH (<[l := <[k0 := VTable x0]> ltab]> h)
                   (<[k0 := VTable x0]> ltab))
        as (ltab' & Hrun & Hin & Hkeep); try done.
      { by rewrite list_lookup_insert_ne. }
      { by rewrite list_lookup_insert_ne. }
      { by rewrite list_lookup_insert_eq. }
      exists ltab'. rewrite Hrun, list_insert_insert_eq.
      split; [done|]. split.
      * intros k x [->|Hk]%elem_of_cons Hx; [|by eapply Hin].
        apply Hkeep; [done|]. simplify_eq. by rewrite lookup_insert_eq.
      * intros k x Hx Hold. apply Hkeep; [done|].
        destruct (decide (k = k0)) as [->|Hne].
        -- simplify_eq. by rewrite lookup_insert_eq.
        -- by rewrite lookup_insert_ne. }
    all: rewrite (for_each_cons _ _ _ _ h)
           by (apply (register_loaded_other _ result); [done|];
               intros x; by rewrite Hk0);
         destruct (IH h ltab) as (ltab' & Hrun & Hin & Hkeep); try done;
         exists ltab'; (split; [done|]); (split; [|done]);
         intros k x [->|Hk]%elem_of_cons Hx; [|by eapply Hin];
         by simplify_eq.
Qed.

Lemma own_keys_elem h l t k :
  h !! l = Some t → k ∈ own_keys h l ↔ is_Some (t !! k).
Proof.
  intros Hl. unfold own_keys. rewrite Hl. simpl.
  rewrite list_elem_of_fmap. split.
  - intros ([k' v] & -> & Hin). apply elem_of_map_to_list in Hin. by eauto.
  - intros [v Hv]. exists (k, v). split; [done|].
    by apply elem_of_map_to_list.
Qed.

Lemma assign_all_other kvs : ∀ t k,
  k ∉ kvs.*1 → assign_all t kvs !! k = t !! k.
Proof.
  induction kvs as [|[k0 v0] kvs IH]; intros t k Hk; [done|].
  simpl in *. apply not_elem_of_cons in Hk as [Hne Hk].
  unfold assign_all in *. simpl. rewrite IH by done.
  by rewrite lookup_insert_ne.
Qed.

Lemma assign_all_elem kvs : ∀ t k v,
  NoDup kvs.*1 → (k, v) ∈ kvs → assign_all t kvs !! k = Some v.
Proof.
  induction kvs as [|[k0 v0] kvs IH]; intros t k v Hnd Hin.
  - by apply elem_of_nil in Hin.
  - simpl in Hnd. apply NoDup_cons in Hnd as [Hk0 Hnd].
    apply elem_of_cons in Hin as [[= -> ->]|Hin].
    + change (assign_all (<[k0 := v0]> t) kvs !! k0 = Some v0).
      rewrite assign_all_other by done. by rewrite lookup_insert_eq.
    + change (assign_all (<[k0 := v0]> t) kvs !! k = Some v). by apply IH.
Qed.

Lemma set_props_assign g kvs : ∀ h t,
  h !! g = Some t →
  foldl (λ h kv, set_prop h g kv.1 kv.2) h kvs = <[g := assign_all t kvs]> h.
Proof.
  induction kvs as [|[k0 v0] kvs IH]; intros h t Hg; simpl.
  - by rewrite list_insert_id.
  - rewrite (set_prop_Some _ _ _ _ _ Hg).
    pose proof (lookup_lt_Some _ _ _ Hg) as Hlt.
    erewrite IH by (by apply list_lookup_insert_eq).
    by rewrite list_insert_insert_eq.
Qed.

(** The second loop: the globals become the host's bindings laid over
    what was there. *)
Lemma overlay_env_spec g env h t :
  h !! g = Some t →
  ∃ t', overlay_env g env h = <[g := t']> h ∧
        (∀ k v, env !! k = Some v → t' !! k = Some v) ∧
        (∀ k, env !! k = None → t' !! k = t !! k).
Proof.
  intros Hg. exists (assign_all t (map_to_list env)).
  split; [by apply set_props_assign|]. split.
  - intros k v Hk. apply assign_all_elem.
    + apply NoDup_fst_map_to_list.
    + by apply elem_of_map_to_list.
  - intros k Hk. apply assign_all_other.
    intros ([k' v] & -> & Hin)%list_elem_of_fmap.
    apply elem_of_map_to_list in Hin. simpl in Hk. congruence.
Qed.

(** The state that [new shine.VM(env)] leaves. *)
Lemma new_VM_spec env p :
  lib_has_package_loaded →
  plain_env (default ∅ env) →
  ∃ w g pk ld gtab ptab ltab,
    new_VM env p = Ok tt w [] ∧
    _globals (vm w) = Some g ∧
    tables (proc w) !! g = Some gtab ∧
    tables (proc w) !! pk = Some ptab ∧
    tables (proc w) !! ld = Some ltab ∧
    ld ≠ g ∧ pk ≠ g ∧
    ptab !! "loaded" = Some (VTable ld) ∧
    ltab !! "_G" = Some (VTable g) ∧
    (∀ k v, default ∅ env !! k = Some v → gtab !! k = Some v) ∧
    (default ∅ env !! "package" = None →
     gtab !! "package" = Some (VTable pk)) ∧
    (∀ k e, obj_get k lib = Some e → is_table_entry e = true → k ≠ "_G" →
       ∃ x, ltab !! k = Some (VTable x) ∧
            (default ∅ env !! k = None → gtab !! k = Some (VTable x))).
Proof.
  intros Hlib Hplain. rewrite new_VM_plain_env by done.
  unfold new_VM_plain, _resetGlobals_plain. unfold_M. simpl.
  destruct (_bindLib lib (tables p)) as [g h1] eqn:Hbind.
  destruct (bindLib_package _ _ _ Hlib Hbind)
    as (result & pk & ptab & ld & ltab & Hg & Hpk & Hp & Hld & Hl &
        Hlg & Hpg & Hlp & Htabs).
  destruct (register_loop g pk ld result ptab (own_keys h1 g) h1 ltab)
    as (ltab' & Hrun & Hin & _); try done.
  simpl. rewrite Hrun.
  pose proof (lookup_lt_Some _ _ _ Hl) as Hllt.
  assert (register_G g (<[ld := ltab']> h1) =
          Some (<[ld := <["_G" := VTable g]> ltab']> h1)) as ->.
  { unfold register_G. simpl.
    rewrite (get_prop_Some _ _ result) by (by rewrite list_lookup_insert_ne).
    rewrite Hpk. simpl.
    rewrite (get_prop_Some _ _ ptab) by (by rewrite list_lookup_insert_ne).
    rewrite Hld. simpl.
    rewrite (set_prop_Some _ _ ltab') by (by rewrite list_lookup_insert_eq).
    by rewrite list_insert_insert_eq. }
  simpl.
  destruct (overlay_env_spec g (default ∅ env)
              (<[ld := <["_G" := VTable g]> ltab']> h1) result)
    as (gtab & -> & Henv & Hrest); [by rewrite list_lookup_insert_ne|].
  pose proof (lookup_lt_Some _ _ _ Hg) as Hglt.
  eexists _, g, pk, ld, gtab, ptab, (<["_G" := VTable g]> ltab').
  split; [done|]. simpl. split; [done|].
  split; [by rewrite list_lookup_insert_eq by (by rewrite length_insert)|].
  split; [by rewrite !list_lookup_insert_ne|].
  split. { rewrite list_lookup_insert_ne by done.
           by rewrite list_lookup_insert_eq. }
  split; [done|]. split; [done|]. split; [done|].
  split; [by rewrite lookup_insert_eq|]. split; [done|].
  split; [intros Hk; by rewrite Hrest|].
  intros k e Hk He Hne. destruct (Htabs k e Hk He) as [x Hx].
  exists x. split.
  - rewrite lookup_insert_ne by done. apply Hin; [|done].
    eapply own_keys_elem; [done|]. by eauto.
  - intros Hnone. by rewrite Hrest.
Qed.


(** With a library that has [package.loaded], the constructor reaches the
    second loop of [_resetGlobals], with the globals in place. *)
Lemma new_VM_reaches_overlay env p :
  lib_has_package_loaded →
  ∃ g h3,
    new_VM env p =
      overlay_turns (map_to_list (default ∅ env)).*1
        (mkWorld
           (mkVM (Some (mkFileManager [])) (Some (default ∅ env)) (Some [])
                 RUNNING [] [] (Some g) None None)
           (set_tables h3 p)).
Proof.
  intros Hlib. unfold new_VM, _resetGlobals. unfold_M. simpl.
  destruct (_bindLib lib (tables p)) as [g h1] eqn:Hbind.
  destruct (bindLib_package _ _ _ Hlib Hbind)
    as (result & pk & ptab & ld & ltab & Hg & Hpk & Hp & Hld & Hl &
        Hlg & Hpg & Hlp & Htabs).
  destruct (register_loop g pk ld result ptab (own_keys h1 g) h1 ltab)
    as (ltab' & Hrun & _ & _); try done.
  simpl. rewrite Hrun.
  pose proof (lookup_lt_Some _ _ _ Hl) as Hllt.
  assert (register_G g (<[ld := ltab']> h1) =
          Some (<[ld := <["_G" := VTable g]> ltab']> h1)) as ->.
  { unfold register_G. simpl.
    rewrite (get_prop_Some _ _ result) by (by rewrite list_lookup_insert_ne).
    rewrite Hpk. simpl.
    rewrite (get_prop_Some _ _ ptab) by (by rewrite list_lookup_insert_ne).
    rewrite Hld. simpl.
    rewrite (set_prop_Some _ _ ltab') by (by rewrite list_lookup_insert_eq).
    by rewrite list_insert_insert_eq. }
  simpl. exists g, (<[ld := <["_G" := VTable g]> ltab']> h1).
  by destruct (overlay_turns _ _).
Qed.

(** A host environment whose own [hasOwnProperty] is not a function cannot
    be constructed on: the first turn of the second loop raises. *)
Lemma new_VM_env_not_callable env p v :
  lib_has_package_loaded →
  env !! "hasOwnProperty" = Some v →
  (∀ f, v ≠ VFunc f ∧ v ≠ VBound f) →
  ∃ w,
    new_VM (Some env) p =
      Raise (TypeError "this._env.hasOwnProperty is not a function") w [].
Proof.
  intros Hlib Hown Hv.
  destruct (new_VM_reaches_overlay (Some env) p Hlib) as (g & h3 & ->).
  simpl. destruct (map_to_list env) as [|[k v0] kvs] eqn:Hkvs.
  { apply map_to_list_empty_iff in Hkvs. subst env. by rewrite lookup_empty in Hown. }
  simpl. unfold overlay_turn at 1, env_owns. unfold_M. simpl. rewrite Hown.
  destruct v as [s|f|f|l|o]; simpl; try by eauto.
  - by destruct (Hv f) as [? _].
  - by destruct (Hv f) as [_ ?].
Qed.

(** C6, as the code has it: construction with a library that has
    [package.loaded] and a host [env] that has no property of its own
    named [hasOwnProperty] or [__proto__] succeeds, and every key of [env]
    is then a global holding the host's value, whatever the library bound
    under that name; [getGlobal] returns that value. *)
Theorem host_env_takes_precedence (env : gmap string value) (p : Process) :
  lib_has_package_loaded →
  plain_env env →
  ∃ w g,
    new_VM (Some env) p = Ok tt w [] ∧
    _globals (vm w) = Some g ∧
    ∀ k v, env !! k = Some v →
      get_prop (tables (proc w)) g k = Some v ∧
      getGlobal k w = Ok v w [].
Proof.
  intros Hlib Hplain.
  destruct (new_VM_spec (Some env) p Hlib Hplain)
    as (w & g & pk & ld & gtab & ptab & ltab & Hnew & Hg & Hgtab & _ & _ &
        _ & _ & _ & _ & Henv & _).
  exists w, g. split; [done|]. split; [done|]. intros k v Hk.
  assert (get_prop (tables (proc w)) g k = Some v) as Hget.
  { rewrite (get_prop_Some _ _ _ _ Hgtab). by apply Henv. }
  split; [done|]. unfold getGlobal. unfold_M. simpl.
  rewrite Hg. simpl. by rewrite Hget.
Qed.

(** *** What leaves the reads of the invariant alone *)

Lemma package_kept_refl w : package_kept w w.
Proof. split; [done|]. intros g Hg. repeat split; done. Qed.

Lemma package_kept_eq w w' : globals_of w' = globals_of w → package_kept w w'.
Proof.
  intros [= Hg Ht]. split; [done|]. intros g _. rewrite Ht.
  repeat split; done.
Qed.

Lemma package_kept_trans w1 w2 w3 :
  package_kept w1 w2 → package_kept w2 w3 → package_kept w1 w3.
Proof.
  intros [Hg12 H12] [Hg23 H23]. split; [congruence|]. intros g Hg.
  destruct (H12 g Hg) as (Hp & Hlib & Hpk).
  destruct (H23 g) as (Hp' & Hlib' & Hpk'); [congruence|].
  split; [congruence|]. split.
  - intros k e Hk He. rewrite (Hlib' k e Hk He). by apply (Hlib k e).
  - intros pk Hpk1. destruct (Hpk pk Hpk1) as [Hl Hld].
    destruct (Hpk' pk) as [Hl' Hld']; [congruence|].
    split; [congruence|]. intros ld Hld1 k.
    rewrite (Hld' ld) by congruence. by apply Hld.
Qed.

Lemma frames_ret {A} (a : A) : frames (mret a).
Proof. intros w w' [= <-]. apply package_kept_refl. Qed.

Lemma frames_throw {A} e : frames (@throw A e).
Proof. intros w w' [= <-]. apply package_kept_refl. Qed.

Lemma frames_gets {A} (f : World → A) : frames (gets f).
Proof. intros w w' [= <-]. apply package_kept_refl. Qed.

Lemma frames_emit e : frames (emit e).
Proof. intros w w' [= <-]. apply package_kept_refl. Qed.

Lemma frames_modify f :
  (∀ w, globals_of (f w) = globals_of w) → frames (modify f).
Proof. intros Hf w w' [= <-]. apply package_kept_eq, Hf. Qed.

Lemma frames_call f : keeps_package f → frames (call_external f).
Proof.
  intros Hf w w'. unfold call_external. specialize (Hf w).
  destruct (f w) as [w1 [e|]]; simpl in *; by intros [= <-].
Qed.

Lemma frames_bind {A B} (m : M A) (k : A → M B) :
  frames m → (∀ a, frames (k a)) → frames (m ≫= k).
Proof.
  intros Hm Hk w w'. unfold mbind, M_bind, bind.
  specialize (Hm w). destruct (m w) as [a w1 t1|e w1 t1|]; simpl in *.
  - specialize (Hk a w1). specialize (Hm w1 eq_refl).
    destruct (k a w1) as [b w2 t2|e w2 t2|]; simpl in *; [..|done];
      intros [= <-]; (eapply package_kept_trans; [done|by apply Hk]).
  - intros [= <-]. by apply Hm.
  - done.
Qed.

Lemma frames_try {A} (m : M A) (h : thrown → M A) :
  frames m → (∀ e, frames (h e)) → frames (try_catch m h).
Proof.
  intros Hm Hh w w'. unfold try_catch.
  specialize (Hm w). destruct (m w) as [a w1 t1|e w1 t1|]; simpl in *.
  - intros [= <-]. by apply Hm.
  - specialize (Hh e w1). specialize (Hm w1 eq_refl).
    destruct (h e w1) as [b w2 t2|e2 w2 t2|]; simpl in *; [..|done];
      intros [= <-]; (eapply package_kept_trans; [done|by apply Hh]).
  - done.
Qed.

Lemma frames_diverge {A} : frames (@diverge A).
Proof. by intros w w'. Qed.

Ltac frames_step :=
  first
    [ apply frames_ret | apply frames_throw | apply frames_gets
    | apply frames_emit | apply frames_diverge
    | apply frames_call; by auto
    | apply frames_modify; by intros []
    | apply frames_bind; [|intros ?]
    | apply frames_try; [|intros ?]
    | match goal with
      | |- frames (match ?x with _ => _ end) => destruct x
      end ].

Lemma frames_drain fuel :
  (∀ i, keeps_package (call_function i)) → frames (drain fuel).
Proof.
  intros Hfn. induction fuel as [|fuel IH]; simpl; repeat frames_step; done.
Qed.

(** A run of [setGlobal] calls rewrites the globals table and nothing
    else. *)
Lemma setGlobals_spec sets : ∀ w g gtab,
  "__proto__" ∉ sets.*1 →
  _globals (vm w) = Some g →
  tables (proc w) !! g = Some gtab →
  ∃ w',
    setGlobals sets w = Ok tt w' [] ∧
    _globals (vm w') = Some g ∧
    tables (proc w') = <[g := assign_all gtab sets]> (tables (proc w)).
Proof.
  induction sets as [|[name v] sets IH]; intros w g gtab Hnp Hg Hgtab.
  - exists w. split; [done|]. split; [done|]. simpl.
    by rewrite list_insert_id.
  - apply not_elem_of_cons in Hnp as [Hne Hnp]. simpl in Hne.
    simpl. unfold setGlobal at 1, assign_global. unfold_M. simpl.
    rewrite Hg. simpl. destruct (decide (name = "__proto__")); [done|].
    simpl.
    pose proof (lookup_lt_Some _ _ _ Hgtab) as Hlt.
    destruct (IH (with_proc (λ p, set_tables
                    (set_prop (tables p) g name v) p) w)
                 g (<[name := v]> gtab)) as (w' & Hrun & Hg' & Ht');
      [done|done| |].
    { simpl. rewrite (set_prop_Some _ _ _ _ _ Hgtab).
      by apply list_lookup_insert_eq. }
    rewrite Hrun. exists w'. split; [done|]. split; [done|].
    rewrite Ht'. simpl. rewrite (set_prop_Some _ _ _ _ _ Hgtab).
    by rewrite list_insert_insert_eq.
Qed.

Lemma run_call_frames c :
  guest_keeps_package →
  (∀ name v, c ≠ CallSetGlobal name v) →
  frames (run_call c).
Proof.
  intros (Hco & Hcl & Hfn & Hcall & Hstep & Hlis) Hc.
  assert (∀ t cfg, frames (co_resume t cfg)) as Hcor.
  { intros t cfg. unfold co_resume, setTimeout. repeat frames_step. }
  assert (∀ e, frames (normalize e)) as Hnorm.
  { intros e. unfold normalize. repeat frames_step. }
  assert (∀ cfg file, frames (execute cfg file)) as Hexec.
  { intros cfg file. unfold execute. repeat frames_step.
    match goal with |- frames (execute_files _ ?fs) =>
      unfold execute_files; generalize (@None thread); generalize fs;
      intros files end.
    induction files as [|fl files IH]; intros old; simpl; [frames_step|].
    destruct (data fl); [|frames_step].
    apply frames_bind; [frames_step|intros g].
    apply frames_bind; [|intros ?; apply IH].
    unfold execute_turn, hand_over, _trigger. repeat frames_step; auto. }
  destruct c as [name v|name| |fuel|url exec cfg|url exec cfg err file
                |cfg file|]; simpl.
  - by destruct (Hc name v).
  - unfold getGlobal. repeat frames_step.
  - unfold suspend, setTimeout. repeat frames_step.
  - unfold resume, redrive, pop_resumeStack, drive, host_call_failed,
      wrap_host_error.
    apply frames_bind; [|intros ?; by apply frames_drain].
    repeat frames_step; auto.
  - unfold load. repeat frames_step.
  - unfold load_callback, _trigger. destruct err; [frames_step|].
    apply frames_bind; [repeat frames_step; auto|intros ?].
    destruct (_ || _); [apply Hexec|frames_step].
  - apply Hexec.
  - unfold fire_timer, suspend_check. repeat frames_step; auto.
Qed.

Lemma get_prop_set_prop_table h l k v l' k' :
  l' ≠ l → get_prop (set_prop h l k v) l' k' = get_prop h l' k'.
Proof.
  intros Hne. unfold set_prop, get_prop.
  destruct (h !! l); [|done]. by rewrite list_lookup_insert_ne.
Qed.

Lemma get_prop_set_prop_key h l k v k' :
  k' ≠ k → get_prop (set_prop h l k v) l k' = get_prop h l k'.
Proof.
  intros Hne. unfold set_prop.
  destruct (h !! l) as [t|] eqn:Hl; [|done]. unfold get_prop.
  rewrite list_lookup_insert_eq by (by eapply lookup_lt_Some).
  rewrite Hl. simpl. by rewrite lookup_insert_ne.
Qed.

(** A run of calls leaves the reads of the invariant as they were, but for
    the globals that its [setGlobal] calls have bound. *)
Lemma run_calls_invariant cs : ∀ w w' g pk ld,
  guest_keeps_package →
  "package" ∉ (sets_of cs).*1 →
  "__proto__" ∉ (sets_of cs).*1 →
  pk ≠ g → ld ≠ g →
  _globals (vm w) = Some g →
  get_prop (tables (proc w)) g "package" = Some (VTable pk) →
  get_prop (tables (proc w)) pk "loaded" = Some (VTable ld) →
  run_calls cs w = Some w' →
  _globals (vm w') = Some g ∧
  get_prop (tables (proc w')) g "package" = Some (VTable pk) ∧
  get_prop (tables (proc w')) pk "loaded" = Some (VTable ld) ∧
  (∀ k, get_prop (tables (proc w')) ld k = get_prop (tables (proc w)) ld k) ∧
  (∀ k e, obj_get k lib = Some e → is_table_entry e = true →
     k ∉ (sets_of cs).*1 →
     get_prop (tables (proc w')) g k = get_prop (tables (proc w)) g k).
Proof.
  induction cs as [|c cs IH];
    intros w w' g pk ld Hguest Hnp Hnproto Hpg Hlg Hg Hpk Hld Hrun.
  - simpl in Hrun. by simplify_eq.
  - simpl in Hrun.
    destruct (final (run_call c w)) as [w1|] eqn:Hc; [|done]. simpl in Hrun.
    assert ((∃ name v, c = CallSetGlobal name v) ∨
            (∀ name v, c ≠ CallSetGlobal name v))
      as [(name & v & ->)|Hother] by (destruct c; by eauto).
    + simpl in Hnp, Hnproto.
      apply not_elem_of_cons in Hnp as [Hne Hnp].
      apply not_elem_of_cons in Hnproto as [Hne' Hnproto].
      simpl in Hne, Hne'.
      assert (w1 = with_proc (λ p, set_tables
                      (set_prop (tables p) g name v) p) w) as ->.
      { revert Hc. simpl. unfold setGlobal, assign_global. unfold_M.
        rewrite Hg. simpl. destruct (decide (name = "__proto__")); [done|].
        by intros [= <-]. }
      destruct (IH (with_proc (λ p, set_tables
                      (set_prop (tables p) g name v) p) w)
                  w' g pk ld Hguest Hnp Hnproto Hpg Hlg) as
        (Hg' & Hpk' & Hld' & Hent & Hglob); [done| | |done|]; simpl.
      { by rewrite get_prop_set_prop_key. }
      { by rewrite get_prop_set_prop_table. }
      split; [done|]. split; [done|]. split; [done|]. split.
      * intros k. rewrite Hent. simpl. by apply get_prop_set_prop_table.
      * intros k e Hk He [Hkn Hks]%not_elem_of_cons.
        rewrite (Hglob k e) by done. simpl.
        by apply get_prop_set_prop_key.
    + assert (sets_of (c :: cs) = sets_of cs) as Hsets.
      { destruct c as [name v| | | | | | |]; try done.
        by destruct (Hother name v). }
      rewrite Hsets in *.
      destruct (run_call_frames c Hguest Hother w w1 Hc) as [Hg1 Hkept].
      destruct (Hkept g Hg) as (Hp1 & Hlib1 & Hrest).
      destruct (Hrest pk Hpk) as [Hl1 Hent1].
      destruct (IH w1 w' g pk ld Hguest Hnp Hnproto Hpg Hlg) as
        (Hg' & Hpk' & Hld' & Hent & Hglob); [congruence..|done|].
      split; [done|]. split; [done|]. split; [done|]. split.
      * intros k. rewrite Hent. by apply Hent1.
      * intros k e Hk He Hks. rewrite (Hglob k e) by done.
        by apply (Hlib1 k e).
Qed.


(** ** Further properties *)

(** *** [resume]: structured errors and faulting callbacks *)

(** X2: a [shine.Error] raised by the re-driven unit is not wrapped: it
    goes to the normalizer with its message and native trace as they were
    and with the frame of the unit appended to its [luaStack] (to an empty
    one when it had none); the program counter of the frame is [NaN] for a
    unit that has no [_pc]; [resume] raises what the normalizer raises,
    leaving the callback queue undrained, and drains the queue when the
    normalizer returns. *)
Theorem resume_keeps_structured_error fuel w st f w1 se :
  _resumeStack (vm w) = st ++ [f] →
  unit_code f (with_vm (set_resumeStack st)
                 (with_vm (set_status RESUMING) w)) = (w1, Some (ThrownShine se)) →
  ∃ se',
    err_message se' = err_message se ∧
    err_stack se' = err_stack se ∧
    luaStack se' =
      Some (default [] (luaStack se) ++
            [Frame f (match pcs (proc w1) !! oid f with
                      | Some pc => SNum (pc - 1)
                      | None => SNaN
                      end)]) ∧
    resume fuel w =
      match catchExecutionError (ThrownShine se') with
      | Some x => Raise x w1 [EvDrive f; EvNormalize (ThrownShine se')]
      | None => after [EvDrive f; EvNormalize (ThrownShine se')] (drain fuel w1)
      end.
Proof.
  intros Hst Hcode.
  exists (push_frame f (pcs (proc w1) !! oid f) se).
  split; [done|]. split; [done|]. split; [done|].
  rewrite (resume_top _ _ _ _ Hst), Hcode.
  pose proof (host_call_failed_spec f (ThrownShine se) w1) as Hh.
  simpl in Hh.
  destruct (catchExecutionError _) as [x|].
  - by rewrite (bind_Raise _ _ _ _ _ _ Hh).
  - rewrite (bind_Ok _ _ _ _ _ _ Hh). by rewrite after_after.
Qed.

Lemma drain_fault_order fuel : ∀ w e w' tr,
  (∀ c, appends_only (call_function c)) →
  drain fuel w = Raise e w' tr →
  ∃ invoked c,
    tr = EvCallback <$> (invoked ++ [c]) ∧
    (∃ w0, call_function c w0 = (w', Some e)) ∧
    invoked ++ c :: _callbackQueue (vm w') =
      _callbackQueue (vm w) ++ enqueued_during fuel w.
Proof.
  induction fuel as [|fuel IH]; intros w e w' tr Happ Hrun;
    destruct (_callbackQueue (vm w)) as [|c rest] eqn:Hw.
  - by rewrite drain_nil in Hrun.
  - by rewrite (drain_out_of_fuel _ _ _ Hw) in Hrun.
  - by rewrite drain_nil in Hrun.
  - rewrite (drain_cons _ _ _ _ Hw) in Hrun. simpl. rewrite Hw.
    destruct (Happ c (with_vm (set_callbackQueue rest) w)) as [k Hk].
    destruct (call_function c _) as [w2 [e2|]] eqn:Hcall; simpl in Hk.
    + simplify_eq. exists [], c. split; [done|]. split; [by eexists|].
      simpl. rewrite Hk, drop_app_length, app_nil_r. done.
    + destruct (drain fuel w2) as [|e3 w3 t3|] eqn:Hrest; [done| |done].
      simpl in Hrun. simplify_eq.
      destruct (IH _ _ _ _ Happ Hrest) as (invoked & c' & -> & Hc' & Hq).
      exists (c :: invoked), c'. split; [done|]. split; [done|]. simpl.
      rewrite Hq, Hk, drop_app_length. by rewrite <-app_assoc.
Qed.

(** X3: when [resume] has re-driven its unit (or found none) and then
    raises, the value was raised by a callback of the drain; that callback
    is no longer in the queue, and (callbacks adding to the queue only at
    its back) the callbacks invoked so far followed by those still queued
    are, in order, exactly the callbacks that have entered the queue:
    nothing is lost or reordered, and the callbacks behind the faulting one
    wait for the next [resume]. *)
Theorem resume_callback_fault fuel w w1 tr1 e w' tr :
  (∀ c, appends_only (call_function c)) →
  redrive w = Ok tt w1 tr1 →
  resume fuel w = Raise e w' tr →
  ∃ invoked c,
    tr = tr1 ++ (EvCallback <$> (invoked ++ [c])) ∧
    (∃ w0, call_function c w0 = (w', Some e)) ∧
    invoked ++ c :: _callbackQueue (vm w') =
      _callbackQueue (vm w1) ++ enqueued_during fuel w1.
Proof.
  intros Happ Hre. rewrite resume_redrive, (bind_Ok _ _ _ _ _ _ Hre).
  destruct (drain fuel w1) as [|e2 w2 t2|] eqn:Hdr; [done| |done].
  simpl. intros [= -> -> <-].
  destruct (drain_fault_order _ _ _ _ _ Happ Hdr)
    as (invoked & c & -> & Hc & Hq).
  by exists invoked, c.
Qed.

(** *** [suspend] on its own *)

(** X4: [suspend] has no guard on the current status and touches nothing
    but the status field and the host's timers.  When nothing resumes the
    VM, the firing of its timer stores [SUSPENDED]; after two [suspend]
    calls in a row the first firing stores [SUSPENDED] and the second finds
    nothing to do. *)
Theorem suspend_completes_on_next_turn (w : World) :
  timers (proc w) = [] →
  ∃ w1 w2 w3,
    suspend w = Ok tt w1 [] ∧
    vm w1 = set_status SUSPENDING (vm w) ∧
    fire_timer w1 = Ok tt w2 [] ∧
    vm w2 = set_status SUSPENDED (vm w) ∧
    timers (proc w2) = [] ∧
    (suspend;; suspend;; fire_timer) w = Ok tt w3 [] ∧
    vm w3 = set_status SUSPENDED (vm w) ∧
    timers (proc w3) = [TSuspendCheck] ∧
    (suspend;; suspend;; fire_timer;; fire_timer) w = Ok tt w2 [].
Proof.
  intros Hts. destruct w as [[] [h pc ts g1 c g2]]. simpl in Hts. subst ts.
  eexists _, _, _. split; [done|]. split; [done|].
  unfold fire_timer, suspend, suspend_check, setTimeout. unfold_M. simpl.
  done.
Qed.

(** *** [execute] with a coroutine configuration *)

Lemma co_resume_step remaining t cfg w :
  (∀ w, coroutine_status t w = DEAD ↔ remaining w = 0%nat) →
  returns (coroutine_step t) →
  co_resume t cfg w =
    Ok tt (if uiOnly cfg && negb (remaining (coroutine_step t w).1 =? 0)%nat
           then with_proc (λ p, set_timers (timers p ++ [TCoResume t cfg]) p)
                  (coroutine_step t w).1
           else (coroutine_step t w).1)
       [EvCoStep t].
Proof.
  intros Hdead Hret. unfold co_resume, setTimeout. unfold_M. simpl.
  pose proof (Hret w) as Hr.
  destruct (coroutine_step t w) as [w1 [e|]]; simpl in *; [done|].
  pose proof (Hdead w1) as Hd.
  destruct (Z.eqb_spec (coroutine_status t w1) DEAD) as [Heq|Hne];
    destruct (Nat.eqb_spec (remaining w1) 0) as [H0|Hn0]; simpl.
  - by destruct (uiOnly cfg).
  - by destruct Hn0; apply Hd.
  - by destruct Hne; apply Hd.
  - by destruct (uiOnly cfg).
Qed.

Lemma bind_same {A B} (m m' : M A) (k : A → M B) w w' :
  m w = m' w' → (m ≫= k) w = (m' ≫= k) w'.
Proof. unfold_M. by intros ->. Qed.

Lemma fire_timer_coroutine w t cfg ts :
  timers (proc w) = TCoResume t cfg :: ts →
  fire_timer w = co_resume t cfg (with_proc (set_timers ts) w).
Proof.
  intros Hts. unfold fire_timer. unfold_M. rewrite Hts. simpl.
  by destruct (co_resume _ _ _).
Qed.


(** *** [execute]: order and faults *)

Lemma execute_target coConfig file w f fs :
  target_files file w = Some (f :: fs) →
  execute coConfig file w = execute_files coConfig (f :: fs) w.
Proof.
  intros Htarget. unfold execute. unfold_M. unfold target_files in Htarget.
  rewrite Htarget. by destruct (execute_files _ _ _).
Qed.

Lemma execute_file_direct f d w :
  returns (listeners (Executing (Thread f d (_globals (vm w))) None)) →
  keeps_vm (listeners (Executing (Thread f d (_globals (vm w))) None)) →
  returns (Function_call (Thread f d (_globals (vm w)))) →
  keeps_vm (Function_call (Thread f d (_globals (vm w)))) →
  ∃ w',
    execute_file None f d w =
      Ok tt w' (direct_run (Thread f d (_globals (vm w)))) ∧
    vm w' = set_thread (Some (Thread f d (_globals (vm w)))) (vm w).
Proof.
  intros Hrl Hkl Hrc Hkc. unfold execute_file, execute_turn, _trigger.
  unfold_M. simpl.
  set (t := Thread f d (_globals (vm w))) in *.
  pose proof (Hrl (with_vm (set_thread (Some t)) w)) as H1.
  pose proof (Hkl (with_vm (set_thread (Some t)) w)) as H2.
  destruct (listeners _ _) as [w1 [e|]]; simpl in *; [done|].
  pose proof (Hrc w1) as H3. pose proof (Hkc w1) as H4.
  destruct (Function_call t w1) as [w2 [e|]]; simpl in *; [done|].
  eexists. split; [done|]. congruence.
Qed.

Lemma execute_files_direct files : ∀ w,
  Forall (λ x, is_Some (data x)) files →
  (∀ n, returns (listeners n)) → (∀ n, keeps_vm (listeners n)) →
  (∀ t, returns (Function_call t)) → (∀ t, keeps_vm (Function_call t)) →
  ∃ w',
    execute_files None files w =
      Ok tt w' (threads_for (_globals (vm w)) files ≫= direct_run) ∧
    vm w' = foldl (λ v t, set_thread (Some t) v) (vm w)
              (threads_for (_globals (vm w)) files).
Proof.
  induction files as [|f files IH]; intros w Hdata Hrl Hkl Hrc Hkc.
  - by exists w.
  - apply Forall_cons in Hdata as [[d Hd] Hdata].
    rewrite execute_files_cons.
    unfold threads_for. simpl. rewrite Hd. simpl.
    destruct (execute_file_direct f d w) as (w1 & Hrun & Hvm); [done..|].
    rewrite (bind_Ok _ _ _ _ _ _ Hrun).
    destruct (IH w1 Hdata Hrl Hkl Hrc Hkc) as (w' & Hrest & Hvm').
    assert (_globals (vm w1) = _globals (vm w)) as Hg by (by rewrite Hvm).
    rewrite Hg in Hrest, Hvm'. rewrite Hrest. exists w'.
    split; [done|]. by rewrite Hvm', Hvm.
Qed.

(** X6: without a coroutine configuration and with collaborators that
    return and leave the VM's fields alone, [execute] works through its
    target files strictly in their order: for each file in turn it
    constructs a unit from the file, the file's data and the current
    globals, emits the [executing] notification for it and calls it, and
    only then goes to the next file; when it returns, [_thread] is the unit
    of the last file and no other field has changed. *)
Theorem execute_runs_files_in_order
    (file : option File) (w : World) (files : list File) (last_file : File) :
  target_files file w = Some (files ++ [last_file]) →
  Forall (λ x, is_Some (data x)) (files ++ [last_file]) →
  (∀ n, returns (listeners n)) → (∀ n, keeps_vm (listeners n)) →
  (∀ t, returns (Function_call t)) → (∀ t, keeps_vm (Function_call t)) →
  ∃ w' d,
    data last_file = Some d ∧
    execute None file w =
      Ok tt w'
        (threads_for (_globals (vm w)) (files ++ [last_file]) ≫= direct_run) ∧
    th_file <$> threads_for (_globals (vm w)) (files ++ [last_file]) =
      files ++ [last_file] ∧
    vm w' = set_thread (Some (Thread last_file d (_globals (vm w)))) (vm w).
Proof.
  intros Htarget Hdata Hrl Hkl Hrc Hkc.
  pose proof Hdata as Hdata'.
  apply Forall_app in Hdata' as [Hfiles [[d Hd] _]%Forall_cons].
  destruct (execute_files_direct _ w Hdata Hrl Hkl Hrc Hkc)
    as (w' & Hrun & Hvm).
  exists w', d. split; [done|]. split; [|split].
  - assert (∃ f0 fs, files ++ [last_file] = f0 :: fs) as (f0 & fs & Hl)
      by (destruct files; by eexists _, _).
    rewrite Hl in Htarget. by rewrite (execute_target _ _ _ _ _ Htarget), <-Hl.
  - clear -Hdata. induction (files ++ [last_file]) as [|f l IH]; [done|].
    apply Forall_cons in Hdata as [[d Hd] Hdata].
    unfold threads_for. simpl. rewrite Hd. simpl. f_equal. by apply IH.
  - rewrite Hvm. unfold threads_for. rewrite omap_app, foldl_app. simpl.
    rewrite Hd. simpl. fold (threads_for (_globals (vm w)) files).
    generalize (threads_for (_globals (vm w)) files) as l.
    generalize (_globals (vm w)) as g. generalize (vm w) as v. clear.
    intros v g l. revert v.
    induction l as [|t l IH]; intros v; [done|].
    simpl. by rewrite IH.
Qed.

(** X7: a value raised by [thread.call()] goes to the normalizer as it is
    (it is not wrapped and no frame is added); when the normalizer raises,
    [execute] raises too and no later target file is touched; when it
    returns, [execute] goes on with the next file.  A value raised by a
    listener of the [executing] notification leaves [execute] without
    passing through the normalizer, the unit constructed but never
    called. *)
Theorem execute_fault_policy
    (file : option File) (w : World) (pre : list File) (f : File) (d : nat)
    (post : list File) (w0 : World) (tr0 : list event) :
  target_files file w = Some (pre ++ f :: post) →
  data f = Some d →
  execute_files None pre w = Ok tt w0 tr0 →
  let t := Thread f d (_globals (vm w0)) in
  (∀ w1 w2 e,
     listeners (Executing t None) (with_vm (set_thread (Some t)) w0)
       = (w1, None) →
     Function_call t w1 = (w2, Some e) →
     execute None file w =
       match catchExecutionError e with
       | Some x => Raise x w2 (tr0 ++ direct_run t ++ [EvNormalize e])
       | None =>
           after (tr0 ++ direct_run t ++ [EvNormalize e])
             (execute_files None post w2)
       end) ∧
  (∀ w1 e,
     listeners (Executing t None) (with_vm (set_thread (Some t)) w0)
       = (w1, Some e) →
     execute None file w =
       Raise e w1 (tr0 ++ [EvConstruct t; EvTrigger (Executing t None)])).
Proof.
  intros Htarget Hd Hpre t.
  assert (execute None file w =
          after tr0 ((execute_file None f d ≫= λ _,
                       execute_files None post) w0)) as ->.
  { assert (∃ f0 fs, pre ++ f :: post = f0 :: fs) as (f0 & fs & Hl)
      by (destruct pre; by eexists _, _).
    rewrite Hl in Htarget. rewrite (execute_target _ _ _ _ _ Htarget), <-Hl.
    rewrite execute_files_app, (bind_Ok _ _ _ _ _ _ Hpre).
    by rewrite execute_files_cons, Hd. }
  split.
  - intros w1 w2 e Hl Hc.
    assert (execute_file None f d w0 =
            match catchExecutionError e with
            | Some x => Raise x w2 (direct_run t ++ [EvNormalize e])
            | None => Ok tt w2 (direct_run t ++ [EvNormalize e])
            end) as Hfile.
    { unfold execute_file, execute_turn, _trigger, normalize. unfold_M.
      simpl. fold t. rewrite Hl. simpl. rewrite Hc. simpl.
      by destruct (catchExecutionError e). }
    destruct (catchExecutionError e) as [x|].
    + by rewrite (bind_Raise _ _ _ _ _ _ Hfile).
    + by rewrite (bind_Ok _ _ _ _ _ _ Hfile), after_after.
  - intros w1 e Hl.
    assert (execute_file None f d w0 =
            Raise e w1 [EvConstruct t; EvTrigger (Executing t None)]) as Hfile.
    { unfold execute_file, execute_turn, _trigger. unfold_M. simpl.
      fold t. by rewrite Hl. }
    by rewrite (bind_Raise _ _ _ _ _ _ Hfile).
Qed.

(** X8: with a coroutine configuration, a value raised by the first step
    of the coroutine, which [execute] takes itself, goes to the normalizer;
    a value raised by a later step, which a timer takes, goes to no
    normalizer: the firing of the timer raises it as it is, and no further
    timer is set. *)
Theorem coroutine_fault_inline_and_deferred
    (cfg : CoConfig) (f : File) (d : nat) (w : World) :
  data f = Some d →
  let t := Thread f d (_globals (vm w)) in
  (∀ w1 w2 e,
     listeners (Executing t (Some cfg)) (with_vm (set_thread (Some t)) w)
       = (w1, None) →
     coroutine_step t w1 = (w2, Some e) →
     execute (Some cfg) (Some f) w =
       match catchExecutionError e with
       | Some x =>
           Raise x w2 [EvConstruct t; EvTrigger (Executing t (Some cfg));
                       EvCoStep t; EvNormalize e]
       | None =>
           Ok tt w2 [EvConstruct t; EvTrigger (Executing t (Some cfg));
                     EvCoStep t; EvNormalize e]
       end) ∧
  (∀ w0 ts w2 e,
     timers (proc w0) = TCoResume t cfg :: ts →
     coroutine_step t (with_proc (set_timers ts) w0) = (w2, Some e) →
     fire_timer w0 = Raise e w2 [EvCoStep t]).
Proof.
  intros Hd t. split.
  - intros w1 w2 e Hl Hc.
    unfold execute, execute_files, execute_turns, execute_turn, hand_over,
      _trigger, co_resume, normalize. unfold_M. simpl. rewrite Hd. simpl.
    fold t.
    rewrite Hl. simpl. rewrite Hc. simpl.
    by destruct (catchExecutionError e).
  - intros w0 ts w2 e Hts Hc.
    rewrite (fire_timer_coroutine _ _ _ _ Hts).
    unfold co_resume. unfold_M. simpl. by rewrite Hc.
Qed.

(** *** [dispose]: order, what it leaves, and what follows it *)

(** X9: with collaborators that return and leave the VM's fields alone,
    [dispose] disposes the files in their order, then the current thread
    (when there is one), then the file manager; it deletes the files, the
    thread, the globals, the host environment, the coroutine stack and the
    file manager and empties the pools; it leaves the status, the resume
    stack and the callback queue exactly as they were (the status does not
    become [DEAD]). *)
Theorem dispose_tears_down_in_order (w : World) (fm : FileManager) :
  fileManager (vm w) = Some fm →
  (∀ f, returns (File_dispose f)) → (∀ f, keeps_vm (File_dispose f)) →
  (∀ t, returns (Function_dispose t)) → (∀ t, keeps_vm (Function_dispose t)) →
  returns FileManager_dispose → keeps_vm FileManager_dispose →
  ∃ w1,
    dispose w =
      Ok tt w1
        ((EvDisposeFile <$> default [] (_files (vm w))) ++
         match _thread (vm w) with
         | Some t => [EvDisposeThread t]
         | None => []
         end ++ [EvDisposeFileManager]) ∧
    vm w1 = mkVM None None None (_status (vm w)) (_resumeStack (vm w))
              (_callbackQueue (vm w)) None None None ∧
    pools_empty (proc w1).
Proof. apply dispose_spec. Qed.

Lemma dispose_owned_deletes w wa tra :
  dispose_owned w = Ok tt wa tra → ∃ v, vm wa = delete_owned v.
Proof.
  unfold dispose_owned. unfold_M. simpl.
  destruct (dispose_files _ w) as [[] w1 t1| |]; [|done..].
  destruct (_thread (vm w1)) as [t|]; simpl.
  - destruct (Function_dispose t w1) as [w2 [e|]]; simpl; [done|].
    intros [= <- _]. by eexists.
  - intros [= <- _]. by eexists.
Qed.

Lemma trace_of_bind_Ok {A B} (m : M A) (k : A → M B) w a w1 t1 :
  m w = Ok a w1 t1 → k a w1 ≠ Diverge →
  trace_of ((m ≫= k) w) = t1 ++ trace_of (k a w1).
Proof.
  intros Hm Hk. rewrite (bind_Ok _ _ _ _ _ _ Hm). by apply trace_of_after.
Qed.

(** X10: a VM that [dispose] has returned from (the file manager's own
    [dispose] leaving the VM's fields alone) is not marked as disposed:
    [getGlobal], [setGlobal], [load] and [execute] without a file raise a
    TypeError on the deleted field, while [execute] with a file still
    constructs a unit, bound to absent globals. *)
Theorem use_after_dispose (w w1 : World) (tr : list event) :
  dispose w = Ok tt w1 tr →
  keeps_vm FileManager_dispose →
  (∀ name,
     getGlobal name w1 =
       Raise (TypeError "Cannot read properties of undefined") w1 []) ∧
  (∀ name v,
     setGlobal name v w1 =
       Raise (TypeError "Cannot set properties of undefined") w1 []) ∧
  (∀ url exec coConfig,
     load url exec coConfig w1 =
       Raise (TypeError "Cannot read properties of undefined") w1 []) ∧
  (∀ coConfig,
     execute coConfig None w1 =
       Raise (TypeError "Cannot read properties of undefined") w1 []) ∧
  (∀ coConfig f d, data f = Some d →
     constructed_of (trace_of (execute coConfig (Some f) w1)) =
       [Thread f d None]).
Proof.
  intros Hrun Hkm.
  assert (_globals (vm w1) = None ∧ _files (vm w1) = None ∧
          fileManager (vm w1) = None) as (Hg & Hf & Hm).
  { revert Hrun. unfold dispose.
    destruct (dispose_owned w) as [[] wa tra|e wa tra|] eqn:Hown.
    - rewrite (bind_Ok _ _ _ _ _ _ Hown).
      destruct (dispose_owned_deletes _ _ _ Hown) as [v Hv].
      unfold_M. simpl. destruct (fileManager (vm wa)); simpl; [|done].
      pose proof (Hkm wa) as Hk.
      destruct (FileManager_dispose wa) as [wb [e|]]; simpl in *; [done|].
      intros [= <- _]. simpl. by rewrite Hk, Hv.
    - by rewrite (bind_Raise _ _ _ _ _ _ Hown).
    - by rewrite (bind_Diverge _ _ _ Hown). }
  split; [|split; [|split; [|split]]].
  - intros name. unfold getGlobal. unfold_M. by rewrite Hg.
  - intros name v. unfold setGlobal, assign_global. unfold_M.
    by rewrite Hg.
  - intros url exec coConfig. unfold load. unfold_M. by rewrite Hm.
  - intros coConfig. unfold execute. unfold_M. by rewrite Hf.
  - intros coConfig f d Hd.
    erewrite execute_target by done.
    rewrite (execute_files_single _ _ _ _ Hd).
    destruct (execute_file_constructed coConfig f d w1) as [Hnd Hc].
    rewrite Hg in Hc.
    destruct (execute_file coConfig f d w1) as [[] w2 t2|e w2 t2|] eqn:Hfile;
      [| |done].
    + rewrite (bind_Ok _ _ _ _ _ _ Hfile). simpl in *.
      by rewrite app_nil_r.
    + by rewrite (bind_Raise _ _ _ _ _ _ Hfile).
Qed.

(** X11: [dispose] does not contain the faults of its collaborators.  When
    the first file's [dispose] raises, [dispose] raises at once and has
    deleted nothing.  When it is the file manager's [dispose] that raises,
    the files, the thread, the globals, the host environment and the
    coroutine stack are already deleted, but the file manager is not, and
    the pools are not cleared by this call. *)
Theorem dispose_fault_aborts (w : World) :
  (∀ f rest w1 e,
     _files (vm w) = Some (f :: rest) →
     File_dispose f w = (w1, Some e) →
     dispose w = Raise e w1 [EvDisposeFile f]) ∧
  (∀ fm w1 e,
     _files (vm w) = None → _thread (vm w) = None →
     fileManager (vm w) = Some fm →
     FileManager_dispose (with_vm delete_owned w) = (w1, Some e) →
     dispose w = Raise e w1 [EvDisposeFileManager]).
Proof.
  split.
  - intros f rest w1 e Hf He. unfold dispose, dispose_owned. unfold_M.
    rewrite Hf. simpl. unfold dispose_file_at. unfold_M. rewrite Hf. simpl.
    by rewrite He.
  - intros fm w1 e Hf Ht Hm He. unfold dispose, dispose_owned. unfold_M.
    rewrite Hf. simpl. rewrite Ht. simpl. rewrite Hm. simpl. by rewrite He.
Qed.

(** *** The accessors *)

(** X12: on a VM whose globals table exists and for a name other than
    [__proto__], [getGlobal] after [setGlobal] returns the value that was
    set; every other global reads as before; the VM's fields and every
    other table are untouched; a name that the globals table does not bind
    reads as what the prototypes of the table have under that name, and as
    [undefined] only when they have nothing. *)
Theorem setGlobal_getGlobal
    (w : World) (g : nat) (t : table) (name : string) (v : value) :
  _globals (vm w) = Some g →
  tables (proc w) !! g = Some t →
  name ≠ "__proto__" →
  ∃ w',
    setGlobal name v w = Ok tt w' [] ∧
    getGlobal name w' = Ok v w' [] ∧
    (∀ other, other ≠ name →
       ∃ x, getGlobal other w = Ok x w [] ∧ getGlobal other w' = Ok x w' []) ∧
    vm w' = vm w ∧
    (∀ l, l ≠ g → tables (proc w') !! l = tables (proc w) !! l) ∧
    (t !! name = None →
     getGlobal name w =
       Ok (default (VScalar SUndefined) (Table_prototype name)) w []).
Proof.
  intros Hg Ht Hne. pose proof (lookup_lt_Some _ _ _ Ht) as Hlt.
  exists (with_proc (set_tables (<[g := <[name := v]> t]> (tables (proc w))))
            w).
  split.
  { unfold setGlobal, assign_global. unfold_M. rewrite Hg. simpl.
    destruct (decide (name = "__proto__")); [done|]. simpl.
    unfold with_proc. simpl. by rewrite (set_prop_Some _ _ _ _ _ Ht). }
  unfold getGlobal. unfold_M. simpl. rewrite Hg. simpl.
  rewrite !(get_prop_Some _ _ (<[name := v]> t))
    by (by apply list_lookup_insert_eq).
  rewrite !(get_prop_Some _ _ _ _ Ht).
  split; [by rewrite lookup_insert_eq|].
  split.
  { intros other Hother. eexists. split; [done|].
    rewrite (get_prop_Some _ _ (<[name := v]> t))
      by (by apply list_lookup_insert_eq).
    rewrite lookup_insert_ne by done.
    by rewrite (get_prop_Some _ _ _ _ Ht). }
  split; [done|]. split.
  - intros l Hl. simpl. by rewrite list_lookup_insert_ne.
  - by intros ->.
Qed.

(** *** [_bindLib] *)

Lemma obj_get_None k es : obj_get k es = None ↔ k ∉ es.*1.
Proof.
  induction es as [|[k0 e0] es IH]; simpl.
  - split; [intros _; apply not_elem_of_nil|done].
  - rewrite not_elem_of_cons, <-IH.
    destruct (obj_get k es); [intuition discriminate|].
    destruct (decide (k = k0)); intuition discriminate.
Qed.

Lemma each_entry_lookup P t es k e :
  each_entry P t es → obj_get k es = Some e →
  ∃ v, t !! k = Some v ∧ P e v.
Proof.
  induction es as [|[k0 e0] es IH]; simpl; [done|].
  intros [Hhd Htl]. destruct (obj_get k es) as [e'|] eqn:Hk.
  - intros [= ->]. by apply IH.
  - destruct (decide (k = k0)) as [->|]; [|done]. intros [= ->].
    apply Hhd. by apply obj_get_None.
Qed.

Lemma each_entry_impl (P Q : libentry → value → Prop) t es :
  Forall (λ ke, ∀ v, P ke.2 v → Q ke.2 v) es →
  each_entry P t es → each_entry Q t es.
Proof.
  induction 1 as [|[k e] es Hhd _ IH]; simpl; [done|].
  intros [Hk Htl]. split; [|by apply IH].
  intros Hfresh. destruct (Hk Hfresh) as (v & Hv & HP). by eauto.
Qed.

Lemma mirrors_mono e : ∀ n n' h h' v,
  mirrors n' h e v → (n ≤ n')%nat → h `prefix_of` h' → mirrors n h' e v.
Proof.
  induction e as [t|es IH|f|s|o] using libentry_nested_ind;
    intros n n' h h' v; simpl; auto.
  - intros (l & -> & Hn & Hl) Hle Hpre. exists l. split; [done|].
    split; [lia|]. by eapply prefix_lookup_Some.
  - intros (l & t & -> & Hn & Hl & Hdom & Heach) Hle Hpre. exists l, t.
    split; [done|]. split; [lia|].
    split; [by eapply prefix_lookup_Some|].
    split; [done|]. eapply each_entry_impl; [|done].
    eapply Forall_impl; [done|]. intros [k e] He v Hv. by eapply He.
Qed.

Lemma bind_loop_mirrors es :
  Forall (λ ke, ∀ h v h', bind_entry ke.2 h = (v, h') →
                          mirrors (length h) h' ke.2 v) es →
  ∀ acc h result h',
    bind_loop es (acc, h) = (result, h') →
    (∀ k, k ∉ es.*1 → result !! k = acc !! k) ∧
    each_entry (mirrors (length h) h') result es.
Proof.
  induction 1 as [|[k0 e0] es He0 _ IH]; intros acc h result h' Hloop.
  - simpl in Hloop. by simplify_eq.
  - simpl in Hloop, He0. destruct (bind_entry e0 h) as [v0 h0] eqn:Hb.
    destruct (IH _ _ _ _ Hloop) as [Hdom Heach].
    destruct (bind_loop_ok _ _ _ _ _ Hloop) as [Hpre _].
    destruct (bind_entry_all_ok e0 _ _ _ Hb) as [Hpre0 _].
    apply prefix_length in Hpre0.
    split.
    + intros k [Hne Hk]%not_elem_of_cons. rewrite Hdom by done.
      by rewrite lookup_insert_ne.
    + simpl. split.
      * intros Hfresh. exists v0.
        rewrite Hdom by done. rewrite lookup_insert_eq. split; [done|].
        eapply mirrors_mono; [by eapply He0|done|done].
      * eapply each_entry_impl; [|done]. apply Forall_forall.
        intros [k e] _ v Hv. by eapply mirrors_mono.
Qed.

Lemma bind_entry_mirrors e : ∀ h v h',
  bind_entry e h = (v, h') → mirrors (length h) h' e v.
Proof.
  induction e as [t|es IH|f|s|o] using libentry_nested_ind;
    intros h v h' Hb; try (simpl in Hb; by simplify_eq).
  - simpl in Hb. simplify_eq. exists (length h). split; [done|].
    split; [done|]. by apply list_lookup_middle.
  - rewrite bind_entry_object in Hb.
    destruct (bind_loop es (∅, h)) as [result h1] eqn:Hloop. simplify_eq.
    destruct (bind_loop_mirrors es IH _ _ _ _ Hloop) as [Hdom Heach].
    destruct (bind_loop_ok _ _ _ _ _ Hloop) as [Hpre _].
    exists (length h1), result. split; [done|].
    split; [by apply prefix_length|].
    split; [by apply list_lookup_middle|]. split.
    + intros k Hk. by rewrite Hdom.
    + eapply each_entry_impl; [|done]. apply Forall_forall.
      intros [k e] _ v Hv. eapply mirrors_mono; [done|done|].
      by apply prefix_app_r.
Qed.

(** Where the value of a key of a bound object comes from: the entry was
    bound at some point of the loop, in a heap that extends the one the
    loop started from. *)
Lemma bind_loop_entries es : ∀ acc h result h',
  bind_loop es (acc, h) = (result, h') →
  ∀ k e, obj_get k es = Some e →
    ∃ v ha hb, bind_entry e ha = (v, hb) ∧ h `prefix_of` ha ∧
               hb `prefix_of` h' ∧ result !! k = Some v.
Proof.
  induction es as [|[k0 e0] es IH]; intros acc h result h' Hloop k e;
    [done|].
  simpl in Hloop. destruct (bind_entry e0 h) as [v0 h0] eqn:Hb.
  destruct (bind_entry_all_ok e0 _ _ _ Hb) as [Hp0 _].
  destruct (bind_loop_ok _ _ _ _ _ Hloop) as [Hp Hlook].
  simpl. destruct (obj_get k es) as [e'|] eqn:Hk.
  - intros [= ->].
    destruct (IH _ _ _ _ Hloop k e Hk) as (v & ha & hb & ? & ? & ? & ?).
    exists v, ha, hb. split; [done|]. split; [by etrans|]. done.
  - destruct (decide (k = k0)) as [->|]; [|done]. intros [= ->].
    exists v0, h, h0. split; [done|]. split; [done|]. split; [done|].
    specialize (Hlook k0). rewrite Hk in Hlook. simpl in Hlook.
    by rewrite Hlook, lookup_insert_eq.
Qed.

(** A table that [bind_entry] returns is one that it allocated. *)
Lemma bind_entry_fresh e h v h' l :
  bind_entry e h = (v, h') → v = VTable l →
  (length h ≤ l < length h')%nat.
Proof.
  destruct e as [t|es|f|s|o]; try (simpl; by intros [= <- <-]).
  - simpl. intros [= <- <-] [= <-]. rewrite length_app. simpl. lia.
  - rewrite bind_entry_object.
    destruct (bind_loop es (∅, h)) as [result h1] eqn:Hloop.
    intros [= <- <-] [= <-].
    destruct (bind_loop_ok _ _ _ _ _ Hloop) as [Hp _].
    apply prefix_length in Hp. rewrite length_app. simpl. lia.
Qed.

(** X13: [_bindLib] leaves every table that exists alone and returns a
    table of its own making which is the image of the library: one
    property per key of the library and no other; under each key the image
    of the key's (last) entry, functions bound, nested objects and library
    tables turned into tables, to any depth; every table of the image, at
    any depth, is one that this call allocated. *)
Theorem bindLib_mirrors_library (h : heap) :
  let '(g, h') := _bindLib lib h in
  h `prefix_of` h' ∧ (length h ≤ g)%nat ∧
  mirrors (length h) h' (LObject lib) (VTable g) ∧
  ∀ k, match obj_get k lib with
       | Some e => ∃ v, get_prop h' g k = Some v ∧ mirrors (length h) h' e v
       | None => get_prop h' g k = None
       end.
Proof.
  destruct (_bindLib lib h) as [g h'] eqn:Hbind.
  assert (bind_entry (LObject lib) h = (VTable g, h')) as Hb.
  { rewrite bind_entry_object. revert Hbind. unfold _bindLib, alloc.
    destruct (bind_loop lib (∅, h)) as [result h1]. by intros [= <- <-]. }
  destruct (bind_entry_all_ok _ _ _ _ Hb) as [Hpre _].
  pose proof (bind_entry_fresh _ _ _ _ g Hb eq_refl) as Hfresh.
  pose proof (bind_entry_mirrors _ _ _ _ Hb) as Hm.
  split; [done|]. split; [lia|]. split; [done|].
  destruct Hm as (l & t & [= <-] & _ & Hl & Hdom & Heach). intros k.
  rewrite (get_prop_Some _ _ _ _ Hl).
  destruct (obj_get k lib) as [e|] eqn:Hk.
  - by eapply each_entry_lookup.
  - by apply Hdom, obj_get_None.
Qed.

(** *** Construction *)

(** The globals table right after [_bindLib(shine.lib)], key by key. *)
Lemma bindLib_lookup h g h1 :
  _bindLib lib h = (g, h1) →
  ∃ result,
    h1 !! g = Some result ∧ h `prefix_of` h1 ∧ (length h ≤ g)%nat ∧
    length h1 = S g ∧
    ∀ k, match obj_get k lib with
         | Some e => ∃ v, result !! k = Some v ∧ bound h1 v e ∧
                          ∀ l, v = VTable l → (length h ≤ l < g)%nat
         | None => result !! k = None
         end.
Proof.
  unfold _bindLib, alloc.
  destruct (bind_loop lib (∅, h)) as [result h0] eqn:Hloop.
  intros [= <- <-]. exists result.
  destruct (bind_loop_ok _ _ _ _ _ Hloop) as [Hpre Hlook].
  split; [by apply list_lookup_middle|].
  split; [etrans; [done|by apply prefix_app_r]|].
  split; [by apply prefix_length|].
  split; [rewrite length_app; simpl; lia|].
  intros k. specialize (Hlook k).
  destruct (obj_get k lib) as [e|] eqn:Hk; [|done].
  destruct Hlook as (v & Hv & Hb). exists v. split; [done|].
  split; [eapply bound_mono; [done|by apply prefix_app_r]|].
  intros l ->.
  destruct (bind_loop_entries _ _ _ _ _ Hloop k e Hk)
    as (v' & ha & hb & Hbe & Hha & Hhb & Hv').
  assert (v' = VTable l) as -> by congruence.
  pose proof (bind_entry_fresh _ _ _ _ l Hbe eq_refl).
  apply prefix_length in Hha, Hhb. lia.
Qed.

(** The [loaded] table of the bound library is one that [_bindLib]
    allocated. *)
Lemma bindLib_loaded_fresh h g h1 result p ptab l :
  lib_has_package_loaded →
  _bindLib lib h = (g, h1) →
  h1 !! g = Some result →
  result !! "package" = Some (VTable p) →
  h1 !! p = Some ptab →
  ptab !! "loaded" = Some (VTable l) →
  (length h ≤ l)%nat.
Proof.
  intros (pk & ld & Hlpk & Hlld & Htab). unfold _bindLib, alloc.
  destruct (bind_loop lib (∅, h)) as [result0 h0] eqn:Hloop.
  intros [= <- <-] Hg Hpk Hp Hld.
  rewrite list_lookup_middle in Hg by done. simplify_eq.
  destruct (bind_loop_entries _ _ _ _ _ Hloop "package" _ Hlpk)
    as (v & ha & hb & Hb & Hha & Hhb & Hv).
  assert (v = VTable p) as -> by congruence.
  rewrite bind_entry_object in Hb.
  destruct (bind_loop pk (∅, ha)) as [ptab' hp1] eqn:Hploop.
  simplify_eq.
  assert ((h0 ++ [result]) !! length hp1 = Some ptab') as Hp'.
  { eapply prefix_lookup_Some; [by apply list_lookup_middle|].
    etrans; [done|]. by apply prefix_app_r. }
  assert (ptab' = ptab) as -> by congruence.
  destruct (bind_loop_entries _ _ _ _ _ Hploop "loaded" _ Hlld)
    as (vl & hc & hd & Hbl & Hhc & Hhd & Hvl).
  assert (vl = VTable l) as -> by congruence.
  pose proof (bind_entry_fresh _ _ _ _ l Hbl eq_refl).
  apply prefix_length in Hha, Hhc. lia.
Qed.

(** The world that [new shine.VM(env)] leaves, in full. *)
Lemma new_VM_full env p :
  lib_has_package_loaded →
  plain_env (default ∅ env) →
  ∃ g h1 result ld ltab gtab,
    _bindLib lib (tables p) = (g, h1) ∧
    h1 !! g = Some result ∧
    (length (tables p) ≤ ld)%nat ∧ ld ≠ g ∧
    new_VM env p =
      Ok tt
        (mkWorld
           (mkVM (Some (mkFileManager [])) (Some (default ∅ env)) (Some [])
                 RUNNING [] [] (Some g) None None)
           (set_tables (<[g := gtab]> (<[ld := ltab]> h1)) p))
        [] ∧
    (∀ k v, default ∅ env !! k = Some v → gtab !! k = Some v) ∧
    (∀ k, default ∅ env !! k = None → gtab !! k = result !! k).
Proof.
  intros Hlib Hplain. rewrite new_VM_plain_env by done.
  unfold new_VM_plain, _resetGlobals_plain. unfold_M. simpl.
  destruct (_bindLib lib (tables p)) as [g h1] eqn:Hbind.
  destruct (bindLib_package _ _ _ Hlib Hbind)
    as (result & pk & ptab & ld & ltab & Hg & Hpk & Hp & Hld & Hl &
        Hlg & Hpg & Hlp & Htabs).
  pose proof (bindLib_loaded_fresh _ _ _ _ _ _ _ Hlib Hbind Hg Hpk Hp Hld)
    as Hfresh.
  destruct (register_loop g pk ld result ptab (own_keys h1 g) h1 ltab)
    as (ltab' & Hrun & _ & _); try done.
  simpl. rewrite Hrun.
  pose proof (lookup_lt_Some _ _ _ Hl) as Hllt.
  assert (register_G g (<[ld := ltab']> h1) =
          Some (<[ld := <["_G" := VTable g]> ltab']> h1)) as ->.
  { unfold register_G. simpl.
    rewrite (get_prop_Some _ _ result) by (by rewrite list_lookup_insert_ne).
    rewrite Hpk. simpl.
    rewrite (get_prop_Some _ _ ptab) by (by rewrite list_lookup_insert_ne).
    rewrite Hld. simpl.
    rewrite (set_prop_Some _ _ ltab') by (by rewrite list_lookup_insert_eq).
    by rewrite list_insert_insert_eq. }
  simpl.
  destruct (overlay_env_spec g (default ∅ env)
              (<[ld := <["_G" := VTable g]> ltab']> h1) result)
    as (gtab & -> & Henv & Hrest); [by rewrite list_lookup_insert_ne|].
  exists g, h1, result, ld, (<["_G" := VTable g]> ltab'), gtab.
  done.
Qed.

(** X14: after construction with a plain host [env], a name that [env]
    does not bind is a property of the globals table exactly when the
    library has it: a library function reads as that function bound to the
    VM, a scalar as itself, a host object as itself, a library table or
    nested object as a table allocated by this construction; any other
    name reads as what the prototypes of the table have under it, and as
    [undefined] only when they have nothing. *)
Theorem construction_binds_library
    (env : option (gmap string value)) (p : Process) :
  lib_has_package_loaded →
  plain_env (default ∅ env) →
  ∃ w,
    new_VM env p = Ok tt w [] ∧
    ∀ k, default ∅ env !! k = None →
      match obj_get k lib with
      | Some (LFunc f) => getGlobal k w = Ok (VBound f) w []
      | Some (LScalar s) => getGlobal k w = Ok (VScalar s) w []
      | Some (LHostObject o) => getGlobal k w = Ok (VObject o) w []
      | Some (LTable _) | Some (LObject _) =>
          ∃ x, getGlobal k w = Ok (VTable x) w [] ∧
               (length (tables p) ≤ x)%nat
      | None =>
          getGlobal k w =
            Ok (default (VScalar SUndefined) (Table_prototype k)) w []
      end.
Proof.
  intros Hlib Hplain.
  destruct (new_VM_full env p Hlib Hplain)
    as (g & h1 & result & ld & ltab & gtab & Hbind & Hg & Hfresh & Hlg &
        Hnew & Henv & Hrest).
  eexists. split; [done|]. intros k Hk.
  destruct (bindLib_lookup _ _ _ Hbind) as (result' & Hg' & _ & _ & Hlen & Hlook).
  assert (result' = result) as -> by congruence.
  assert (∀ k, getGlobal k
            (mkWorld
               (mkVM (Some (mkFileManager [])) (Some (default ∅ env))
                     (Some []) RUNNING [] [] (Some g) None None)
               (set_tables (<[g := gtab]> (<[ld := ltab]> h1)) p)) =
          Ok (default (default (VScalar SUndefined) (Table_prototype k))
                (gtab !! k))
            (mkWorld
               (mkVM (Some (mkFileManager [])) (Some (default ∅ env))
                     (Some []) RUNNING [] [] (Some g) None None)
               (set_tables (<[g := gtab]> (<[ld := ltab]> h1)) p)) [])
    as Hget.
  { intros k'. unfold getGlobal. unfold_M. simpl.
    rewrite (get_prop_Some _ _ gtab); [done|].
    apply list_lookup_insert_eq. rewrite length_insert. lia. }
  rewrite Hget, (Hrest k Hk). specialize (Hlook k).
  destruct (obj_get k lib) as [[t|es|f|s|o]|];
    [destruct Hlook as (v & -> & Hb & Hfr)..|by rewrite Hlook]; simpl in *.
  - destruct Hb as (l & -> & _). exists l. split; [done|].
    by destruct (Hfr l eq_refl).
  - destruct Hb as (? & ? & hx & _ & -> & _). eexists. split; [done|].
    by destruct (Hfr _ eq_refl).
  - by subst.
  - by subst.
  - by subst.
Qed.

(** X15: construction with a plain host [env] touches nothing that was
    there: the new VM is
    running with empty resume stack and callback queue, no files and no
    thread; its globals table is a new one; every table of the process, its
    program counters, its timers and its pools are as before; so a global
    of another VM of the same process reads as it did. *)
Theorem construction_is_isolated
    (env : option (gmap string value)) (p : Process) :
  lib_has_package_loaded →
  plain_env (default ∅ env) →
  ∃ w g,
    new_VM env p = Ok tt w [] ∧
    vm w = mkVM (Some (mkFileManager [])) (Some (default ∅ env)) (Some [])
             RUNNING [] [] (Some g) None None ∧
    (length (tables p) ≤ g)%nat ∧
    (∀ l t, tables p !! l = Some t → tables (proc w) !! l = Some t) ∧
    proc w = set_tables (tables (proc w)) p ∧
    ∀ v0 g0 k x,
      _globals v0 = Some g0 → (g0 < length (tables p))%nat →
      getGlobal k (mkWorld v0 p) = Ok x (mkWorld v0 p) [] →
      getGlobal k (mkWorld v0 (proc w)) = Ok x (mkWorld v0 (proc w)) [].
Proof.
  intros Hlib Hplain.
  destruct (new_VM_full env p Hlib Hplain)
    as (g & h1 & result & ld & ltab & gtab & Hbind & Hg & Hfresh & Hlg &
        Hnew & Henv & Hrest).
  destruct (bindLib_lookup _ _ _ Hbind)
    as (_ & _ & Hpre & Hle & Hlen & _).
  assert (∀ l, (l < length (tables p))%nat →
            <[g := gtab]> (<[ld := ltab]> h1) !! l = tables p !! l) as Hold.
  { intros l Hl. rewrite !list_lookup_insert_ne by lia.
    destruct (lookup_lt_is_Some_2 _ _ Hl) as [t Ht].
    rewrite Ht. by eapply prefix_lookup_Some. }
  eexists _, g. split; [done|]. simpl. split; [done|]. split; [done|].
  split.
  { intros l t Ht. rewrite Hold; [done|]. by eapply lookup_lt_Some. }
  split; [done|].
  intros v0 g0 k x Hg0 Hlt. unfold getGlobal. unfold_M. simpl.
  rewrite Hg0. simpl. unfold get_prop. rewrite Hold by done.
  by intros [= ->].
Qed.

Lemma register_loaded_no_package g h result ks :
  h !! g = Some result →
  result !! "package" = None →
  ∃ done, for_each (register_loaded g) ks h = (h, done).
Proof.
  intros Hg Hpk. induction ks as [|k ks IH]; simpl; [by eauto|].
  unfold register_loaded at 1. simpl.
  rewrite !(get_prop_Some _ _ _ _ Hg), Hpk.
  destruct (result !! k) as [[| | |x|]|]; simpl; by eauto.
Qed.

(** X16: a library without a [package] entry cannot be constructed on:
    [_resetGlobals] reads [package.loaded] of the bound library before it
    lays the host's [env] over the globals, so the construction raises a
    TypeError whatever [env] binds; the tables of the process are left as
    they were, with those of the bound library after them. *)
Theorem construction_needs_package
    (env : option (gmap string value)) (p : Process) :
  obj_get "package" lib = None →
  ∃ w msg,
    new_VM env p = Raise (TypeError msg) w [] ∧
    tables p `prefix_of` tables (proc w) ∧
    proc w = set_tables (tables (proc w)) p.
Proof.
  intros Hnone. unfold new_VM, _resetGlobals. unfold_M. simpl.
  destruct (_bindLib lib (tables p)) as [g h1] eqn:Hbind.
  destruct (bindLib_lookup _ _ _ Hbind) as (result & Hg & Hpre & _ & _ & Hlook).
  pose proof (Hlook "package") as Hpk. rewrite Hnone in Hpk.
  destruct (register_loaded_no_package g h1 result (own_keys h1 g) Hg Hpk)
    as [done_ ->].
  simpl. destruct done_.
  - assert (register_G g h1 = None) as ->.
    { unfold register_G. simpl. by rewrite (get_prop_Some _ _ _ _ Hg), Hpk. }
    by eauto.
  - by eauto.
Qed.

(** *** [execute] on a VM as constructed *)

(** C5 at its failing input: the constructor does not make the [_files]
    field (its assignment is commented out), so on a VM as constructed
    [execute] without a file raises a TypeError on [files.length], and
    never the "no files" error; no unit is constructed.  With a file that
    has no [data], [execute] does raise the "data not loaded" error before
    any unit is constructed. *)
Theorem execute_on_constructed_VM
    (env : option (gmap string value)) (p : Process) :
  lib_has_package_loaded →
  plain_env (default ∅ env) →
  ∃ w,
    new_VM env p = Ok tt w [] ∧
    _files (vm w) = None ∧
    ∀ coConfig,
      execute coConfig None w =
        Raise (TypeError "Cannot read properties of undefined") w [] ∧
      execute coConfig None w ≠ Raise (Error "No files loaded.") w [] ∧
      ∀ f, data f = None →
        execute coConfig (Some f) w =
          Raise (Error "Tried to execute file before data loaded.") w [].
Proof.
  intros Hlib Hplain.
  destruct (new_VM_full env p Hlib Hplain)
    as (g & h1 & result & ld & ltab & gtab & _ & _ & _ & _ & Hnew & _).
  eexists. split; [exact Hnew|]. split; [done|]. intros coConfig.
  rewrite execute_without_files_field by done.
  split; [done|]. split; [done|].
  intros f Hf. unfold execute, execute_files. unfold_M. simpl.
  by rewrite Hf.
Qed.

End VM.

(** ** The properties on the sample VM *)

Section Samples.

Import Sample.

#[local] Abbreviation sample_resume :=
  (resume (λ _, quiet) (λ _, quiet) functions rethrow).
#[local] Abbreviation sample_execute :=
  (execute rethrow (λ _, quiet) (λ _, quiet) (λ _ _, DEAD) (λ _, quiet)).
#[local] Abbreviation sample_load_callback :=
  (load_callback rethrow (λ _, quiet) (λ _, quiet) (λ _ _, DEAD)
     (λ _, quiet)).
#[local] Abbreviation sample_dispose :=
  (dispose (λ _, quiet) (λ _, quiet) quiet).
#[local] Abbreviation sample_new_VM :=
  (new_VM lib (λ _ _, quiet) (λ _ _ w, (w, inr true))).
#[local] Abbreviation sample_getGlobal := (getGlobal prototype).
#[local] Abbreviation sample_setGlobal := (setGlobal (λ _ _, quiet)).

#[local] Abbreviation sample_run_calls :=
  (run_calls (λ _, quiet) (λ _, quiet) functions rethrow (λ _, quiet)
     (λ _, quiet) (λ _ _, DEAD) (λ _, quiet) prototype (λ _ _, quiet)).

Lemma functions_keep_status c : keeps_status (functions c).
Proof. intros w. by destruct c as [|[|c]]. Qed.

Lemma functions_keep_resumeStack c : keeps_resumeStack (functions c).
Proof. intros w. by destruct c as [|[|c]]. Qed.

Lemma functions_append_only c : appends_only (functions c).
Proof.
  intros w. destruct c as [|[|c]]; simpl; [done| |done].
  by apply prefix_app_r.
Qed.

Lemma sample_lib_has_package_loaded : lib_has_package_loaded lib.
Proof. by eexists _, _. Qed.

Lemma host_env_is_plain : plain_env host_env.
Proof. split; reflexivity. Qed.

Lemma host_env_package_is_plain : plain_env host_env_package.
Proof. split; reflexivity. Qed.

Lemma host_env_plain_is_plain : plain_env host_env_plain.
Proof. split; reflexivity. Qed.

Lemma no_env_is_plain : plain_env (default ∅ None).
Proof. split; apply lookup_empty. Qed.

(** Witness of C10: the sample VM resumes its last unit, drains three
    callbacks and is left [RESUMING]. *)
Lemma resume_leaves_RESUMING_witness :
  ∃ w' tr,
    sample_resume 3 suspended = Ok tt w' tr ∧
    _status (vm w') = RESUMING ∧ _status (vm w') ≠ RUNNING.
Proof.
  destruct (resume_leaves_RESUMING (λ _, quiet) (λ _, quiet) functions
              rethrow 3 suspended (λ _ _, eq_refl) (λ _ _, eq_refl)
              functions_keep_status) as [_ H].
  destruct (sample_resume 3 suspended) as [[] w' tr|e w' tr|] eqn:Hr.
  - by exists w', tr.
  - exfalso. vm_compute in Hr. discriminate.
  - exfalso. vm_compute in Hr. discriminate.
Defined.

Lemma restoring_never_suspends : never_suspends restoring.
Proof. intros w _ [H|H]; discriminate. Qed.

Lemma functions_never_suspend c : never_suspends (functions c).
Proof. intros w. by rewrite functions_keep_status. Qed.

(** Witness of C1: [suspend], then a [resume] whose units store [RUNNING],
    then the deferred check, on the sample VM. *)
Lemma suspend_resume_race_witness :
  ∃ w1 w2 tr,
    suspend suspended = Ok tt w1 [] ∧
    resume (λ _, restoring) (λ _, restoring) functions rethrow 3 w1
      = Ok tt w2 tr ∧
    suspend_check w2 = Ok tt w2 [] ∧
    _status (vm w2) ≠ SUSPENDING ∧
    _status (vm w2) ≠ SUSPENDED.
Proof.
  destruct (suspend_resume_race (λ _, restoring) (λ _, restoring) functions
              rethrow (λ _, quiet) (λ _ _, DEAD) 3 suspended
              (λ _, restoring_never_suspends) (λ _, restoring_never_suspends)
              functions_never_suspend)
    as (w1 & Hs & _ & _ & _ & _ & H).
  destruct (resume (λ _, restoring) (λ _, restoring) functions rethrow 3 w1)
    as [[] w2 tr|e w2 tr|] eqn:Hr.
  - destruct H as (Hc & Hn1 & Hn2). by exists w1, w2, tr.
  - exfalso. injection Hs as <-. vm_compute in Hr. discriminate.
  - exfalso. injection Hs as <-. vm_compute in Hr. discriminate.
Defined.

(** Counterexample to C1: a callback that [resume] drains calls [suspend]
    again; the check that the first [suspend] scheduled then finds
    [SUSPENDING] and stores [SUSPENDED], although [resume] ran between that
    [suspend] and the check. *)
Lemma resumed_then_suspended_by_check :
  ∃ w1 w2 w3,
    suspend queued_suspend = Ok tt w1 [] ∧
    timers (proc w1) = [TSuspendCheck] ∧
    resume (λ _, quiet) (λ _, quiet) suspending_functions rethrow 3 w1
      = Ok tt w2 [EvCallback 5] ∧
    fire_timer (λ _, quiet) (λ _ _, DEAD) w2 = Ok tt w3 [] ∧
    _status (vm w3) = SUSPENDED.
Proof. eexists _, _, _. repeat split; reflexivity. Qed.

(** Witness of C2: three calls on the sample VM re-drive the coroutine
    pushed last, then the second closure, then the first; and on the VM
    with nothing suspended a call removes and re-drives nothing and
    returns, its queued callback returning. *)
Lemma resume_pops_most_recent_witness :
  (∃ w' tr,
     resume_times (λ _, quiet) (λ _, quiet) functions rethrow 3 3 suspended
       = Some (w', tr) ∧
     drives_of tr = [coroutine3; closure2; closure1] ∧
     _resumeStack (vm w') = []) ∧
  (∃ w' tr,
     resume (λ _, quiet) (λ _, quiet) (λ _, quiet) rethrow 1 idle
       = Ok tt w' tr ∧
     drives_of tr = [] ∧ _resumeStack (vm w') = []).
Proof.
  split.
  - destruct (resume_times (λ _, quiet) (λ _, quiet) functions rethrow 3 3
                suspended) as [[w' tr]|] eqn:Hr.
    + exists w', tr. split; [done|].
      exact (proj1 (proj2 (proj2
        (resume_pops_most_recent (λ _, quiet) (λ _, quiet) functions rethrow
           3 suspended (λ _ _, eq_refl) (λ _ _, eq_refl)
           functions_keep_resumeStack)))
        [] [closure1; closure2; coroutine3] w' tr eq_refl Hr).
    + exfalso. vm_compute in Hr. discriminate.
  - destruct (resume_pops_most_recent (λ _, quiet) (λ _, quiet) (λ _, quiet)
                rethrow 1 idle (λ _ _, eq_refl) (λ _ _, eq_refl)
                (λ _ _, eq_refl)) as (_ & _ & _ & Hempty).
    destruct (Hempty eq_refl) as (Hnone & _ & Hret).
    destruct (Hret (λ _ _, eq_refl) (λ _ _, eq_refl) (le_n 1))
      as (w' & tr & Hrun).
    exists w', tr. split; [exact Hrun|].
    specialize (Hnone w'). rewrite Hrun in Hnone. exact (Hnone eq_refl).
Defined.

(** Counterexample to C2: on an empty resume stack [resume] faults when a
    queued callback does. *)
Lemma resume_on_empty_stack_faults :
  _resumeStack (vm queued) = [] ∧
  ∃ w',
    resume (λ _, quiet) (λ _, quiet) faulty_functions rethrow 5 queued
      = Raise native_fault w' [EvCallback 1; EvCallback 3] ∧
    _resumeStack (vm w') = [].
Proof. split; [reflexivity|]. eexists. split; reflexivity. Qed.


(** C4 at a failing input: the closure on top of the resume stack raises
    [undefined].  [resume] raises a TypeError from its own [catch] block:
    no error is wrapped, the normalizer is not called, and the callback
    queue stays as it was. *)
Lemma resume_raised_undefined :
  trace_of (resume (λ _, quiet) (λ _, raising (ThrownScalar SUndefined))
              functions rethrow 3 suspended_closure) = [EvDrive closure1] ∧
  ∃ w',
    resume (λ _, quiet) (λ _, raising (ThrownScalar SUndefined)) functions
      rethrow 3 suspended_closure
    = Raise (TypeError "Cannot read properties of undefined") w'
        [EvDrive closure1] ∧
    _callbackQueue (vm w') = [3%nat].
Proof.
  split; [vm_compute; reflexivity|].
  eexists. split; [reflexivity|]. reflexivity.
Qed.

(** Counterexample to C8: [null] is not [false], and yet the callback of
    [load] returns after the notification without executing the file;
    with [undefined] it does execute it. *)
Lemma load_skips_execute_on_null :
  VScalar SNull ≠ VScalar (SBool false) ∧
  sample_load_callback "main.json" (VScalar SNull) None None loaded_file idle
    = Ok tt idle [EvTrigger (FileLoaded loaded_file)] ∧
  constructed_of
    (trace_of (sample_load_callback "main.json" (VScalar SUndefined) None
                 None loaded_file idle))
    = [Thread loaded_file 100 None].
Proof. split; [done|]. split; reflexivity. Qed.

(** Counterexample to C9: the second of two [dispose] calls in a row
    faults. *)
Lemma second_dispose_faults :
  ∃ w1,
    sample_dispose idle = Ok tt w1 [EvDisposeFileManager] ∧
    sample_dispose w1 =
      Raise (TypeError "Cannot read properties of undefined") w1 [].
Proof. eexists. split; reflexivity. Qed.

(** Witness of C9 (as the code has it), on a VM with two files and a
    thread. *)
Lemma dispose_clears_pools_once_witness :
  ¬ pools_empty (proc two_files) ∧
  ∃ w1 tr1,
    sample_dispose (with_vm (set_thread (Some main_thread)) two_files)
      = Ok tt w1 tr1 ∧
    vm w1 = mkVM None None None RUNNING [] [] None None None ∧
    pools_empty (proc w1) ∧
    (∀ env w2, plain_env (default ∅ env) →
               final (sample_new_VM env
                        (proc w1)) = Some w2 →
               pools_empty (proc w2)) ∧
    sample_dispose w1 =
      Raise (TypeError "Cannot read properties of undefined") w1 [].
Proof.
  split; [by intros [? _]|].
  exact (dispose_clears_pools_once lib (λ _, quiet) (λ _, quiet) quiet
           (λ _ _, quiet) (λ _ _ w, (w, inr true))
           (with_vm (set_thread (Some main_thread)) two_files)
           (mkFileManager []) eq_refl (λ _ _, eq_refl) (λ _ _, eq_refl)
           (λ _ _, eq_refl) (λ _ _, eq_refl) (λ _, eq_refl)
           (λ _, eq_refl)).
Defined.

(** Witness of C6: the host's [string] replaces the library's table, and
    the host's [host] is a global. *)
Lemma host_env_takes_precedence_witness :
  obj_get "string" lib = Some (LObject [("len", LFunc 1)]) ∧
  ∃ w g,
    sample_new_VM (Some host_env) process = Ok tt w [] ∧
    _globals (vm w) = Some g ∧
    get_prop (tables (proc w)) g "string" = Some (VScalar (SNum 5)) ∧
    sample_getGlobal "host" w = Ok (VFunc 9) w [].
Proof.
  split; [reflexivity|].
  destruct (host_env_takes_precedence lib prototype (λ _ _, quiet)
              (λ _ _ w, (w, inr true)) host_env process
              sample_lib_has_package_loaded host_env_is_plain) as (w & g & Hnew & Hg & Henv).
  exists w, g. split; [done|]. split; [done|]. split.
  - apply (Henv "string"). reflexivity.
  - apply (Henv "host"). reflexivity.
Defined.

(** Counterexample to C6: a host environment whose own [hasOwnProperty] is
    a number.  Construction raises a TypeError in the loop over [env]. *)
Lemma env_shadowing_hasOwnProperty_faults :
  host_env_shadowing !! "hasOwnProperty" = Some (VScalar (SNum 1)) ∧
  ∃ w,
    sample_new_VM (Some host_env_shadowing) process =
      Raise (TypeError "this._env.hasOwnProperty is not a function") w [].
Proof.
  split; [reflexivity|].
  apply (new_VM_env_not_callable lib (λ _ _, quiet) (λ _ _ w, (w, inr true))
           host_env_shadowing process (VScalar (SNum 1))
           sample_lib_has_package_loaded eq_refl).
  by intros f.
Qed.


Lemma sample_guest_keeps_package :
  guest_keeps_package lib (λ _, quiet) (λ _, quiet) functions (λ _, quiet)
    (λ _, quiet) (λ _, quiet).
Proof.
  split; [|split; [|split; [|split; [|split]]]]; intros x w0;
    try apply package_kept_refl.
  apply package_kept_eq. by destruct x as [|[|c]].
Qed.

Lemma sample_run_ends env g h :
  ∃ w,
    sample_run_calls host_calls
      (mkWorld
         (mkVM (Some (mkFileManager [])) env (Some []) RUNNING [] []
               (Some g) None None)
         (set_tables h process)) = Some w.
Proof. eexists. reflexivity. Qed.


(** On the sample VM: the closure raises an [Error]; the normalizer gets a
    [shine.Error] with the two lines of the native trace and the frame of
    the closure, whose [_pc] is 7. *)
Lemma resume_wraps_host_fault_witness :
  ∃ w' se,
    resume (λ _, quiet) (λ _, raising native_fault) functions rethrow 3
      suspended_closure
    = Raise (ThrownShine se) w' [EvDrive closure1; EvNormalize (ThrownShine se)] ∧
    err_message se = "Error in host call: boom" ∧
    luaStack se = Some [TraceLine "Error: boom"; TraceLine "    at host";
                        Frame closure1 (SNum 6)].
Proof.
  eexists _, _. split.
  - exact (proj2 (proj2 (proj2
      (resume_wraps_host_fault (λ _, quiet) (λ _, raising native_fault)
         functions rethrow 3 suspended_closure [] closure1 _ native_fault
         eq_refl eq_refl eq_refl eq_refl)))).
  - split; reflexivity.
Defined.

Lemma faulty_functions_append_only c : appends_only (faulty_functions c).
Proof.
  intros w. destruct c as [|[|[|[|c]]]]; simpl; try done.
  by apply prefix_app_r.
Qed.

Lemma counting_status_dead w :
  counting_status w = DEAD ↔ steps_left w = 0%nat.
Proof. unfold counting_status. by destruct (decide _). Qed.

Lemma counting_step_counts w :
  steps_left (counting_step w).1 = pred (steps_left w).
Proof.
  unfold steps_left at 1. simpl. rewrite lookup_insert_eq. simpl.
  apply Nat2Z.id.
Qed.

(** On the sample VM: the closure raises a [shine.Error] without a trace;
    the normalizer gets the same error with the frame of the closure. *)
Lemma resume_keeps_structured_error_witness :
  ∃ se' w',
    resume (λ _, quiet) (λ _, raising (ThrownShine guest_fault)) functions
      rethrow 3 suspended_closure
    = Raise (ThrownShine se') w'
        [EvDrive closure1; EvNormalize (ThrownShine se')] ∧
    err_message se' = "attempt to call a nil value" ∧
    luaStack se' = Some [Frame closure1 (SNum 6)].
Proof.
  destruct (resume_keeps_structured_error (λ _, quiet)
              (λ _, raising (ThrownShine guest_fault)) functions rethrow 3
              suspended_closure [] closure1 _ guest_fault eq_refl eq_refl)
    as (se' & Hm & _ & Hl & Hr).
  exists se'. eexists. split; [exact Hr|]. split; [exact Hm|exact Hl].
Defined.

(** On the sample VM: the callback [1] returns, the callback [3] raises;
    [4] and the [2] that [1] added are still queued. *)
Lemma resume_callback_fault_witness :
  ∃ e w' invoked c,
    resume (λ _, quiet) (λ _, quiet) faulty_functions rethrow 5 queued
    = Raise e w' (EvCallback <$> (invoked ++ [c])) ∧
    invoked ++ c :: _callbackQueue (vm w') = [1; 3; 4; 2]%nat.
Proof.
  destruct (resume (λ _, quiet) (λ _, quiet) faulty_functions rethrow 5
              queued) as [[] w' tr|e w' tr|] eqn:Hr.
  - exfalso. vm_compute in Hr. discriminate.
  - destruct (resume_callback_fault (λ _, quiet) (λ _, quiet)
                faulty_functions rethrow 5 queued _ [] e w' tr
                faulty_functions_append_only eq_refl Hr)
      as (invoked & c & Htr & _ & Hq).
    exists e, w', invoked, c. split; [by rewrite Htr|]. exact Hq.
  - exfalso. vm_compute in Hr. discriminate.
Defined.

(** On the sample VM: [suspend], then the timer. *)
Lemma suspend_completes_on_next_turn_witness :
  ∃ w1 w2,
    suspend idle = Ok tt w1 [] ∧
    _status (vm w1) = SUSPENDING ∧
    fire_timer (λ _, quiet) (λ _ _, DEAD) w1 = Ok tt w2 [] ∧
    _status (vm w2) = SUSPENDED.
Proof.
  destruct (suspend_completes_on_next_turn (λ _, quiet) (λ _ _, DEAD) idle
              eq_refl) as (w1 & w2 & w3 & Hs & Hv1 & Hf & Hv2 & _).
  exists w1, w2. split; [exact Hs|]. split; [by rewrite Hv1|].
  split; [exact Hf|]. by rewrite Hv2.
Defined.


(** Two loaded files: a unit for each, in the order of [_files]; the
    thread is that of the second. *)
Lemma execute_runs_files_in_order_witness :
  ∃ w',
    sample_execute None None two_loaded =
      Ok tt w'
        [EvConstruct (Thread loaded_file 100 None);
         EvTrigger (Executing (Thread loaded_file 100 None) None);
         EvCall (Thread loaded_file 100 None);
         EvConstruct (Thread second_file 300 None);
         EvTrigger (Executing (Thread second_file 300 None) None);
         EvCall (Thread second_file 300 None)] ∧
    _thread (vm w') = Some (Thread second_file 300 None).
Proof.
  assert (Forall (λ x, is_Some (data x)) ([loaded_file] ++ [second_file]))
    as Hdata by (repeat constructor; by eexists).
  destruct (execute_runs_files_in_order rethrow (λ _, quiet) (λ _, quiet)
              (λ _ _, DEAD) (λ _, quiet) None two_loaded [loaded_file]
              second_file eq_refl Hdata (λ _ _, eq_refl) (λ _ _, eq_refl)
              (λ _ _, eq_refl) (λ _ _, eq_refl))
    as (w' & d & Hd & Hrun & _ & Hvm).
  injection Hd as <-. exists w'. split; [exact Hrun|]. by rewrite Hvm.
Defined.

(** Two loaded files, the first of which fails, and a normalizer that
    returns: the second file is still executed. *)
Lemma execute_fault_policy_witness :
  ∃ w',
    execute swallow faulty_call (λ _, quiet) (λ _ _, DEAD) (λ _, quiet)
      None None two_loaded =
      Ok tt w'
        [EvConstruct (Thread loaded_file 100 None);
         EvTrigger (Executing (Thread loaded_file 100 None) None);
         EvCall (Thread loaded_file 100 None);
         EvNormalize native_fault;
         EvConstruct (Thread second_file 300 None);
         EvTrigger (Executing (Thread second_file 300 None) None);
         EvCall (Thread second_file 300 None)].
Proof.
  destruct (execute_fault_policy swallow faulty_call (λ _, quiet)
              (λ _ _, DEAD) (λ _, quiet) None two_loaded [] loaded_file 100
              [second_file] two_loaded [] eq_refl eq_refl eq_refl)
    as [Hcall _].
  eexists. rewrite (Hcall _ _ native_fault eq_refl eq_refl). reflexivity.
Defined.

(** A coroutine whose step raises: at once in [execute], where the
    normalizer gets the error, and from a timer, where nothing does. *)
Lemma coroutine_fault_inline_and_deferred_witness :
  (∃ w',
     execute rethrow (λ _, quiet) (λ _, raising native_fault) (λ _ _, DEAD)
       (λ _, quiet) (Some (mkCoConfig true)) (Some loaded_file) idle =
       Raise native_fault w'
         [EvConstruct (Thread loaded_file 100 None);
          EvTrigger (Executing (Thread loaded_file 100 None)
                       (Some (mkCoConfig true)));
          EvCoStep (Thread loaded_file 100 None);
          EvNormalize native_fault]) ∧
  fire_timer (λ _, raising native_fault) (λ _ _, DEAD)
    (with_proc (set_timers [TCoResume (Thread loaded_file 100 None)
                              (mkCoConfig true)]) idle) =
    Raise native_fault (with_proc (set_timers []) idle)
      [EvCoStep (Thread loaded_file 100 None)].
Proof.
  destruct (coroutine_fault_inline_and_deferred rethrow (λ _, quiet)
              (λ _, raising native_fault) (λ _ _, DEAD) (λ _, quiet)
              (mkCoConfig true) loaded_file 100 idle eq_refl)
    as [Hinline Htimer].
  split.
  - eexists. exact (Hinline _ _ native_fault eq_refl eq_refl).
  - exact (Htimer
             (with_proc (set_timers [TCoResume (Thread loaded_file 100 None)
                                       (mkCoConfig true)]) idle)
             [] (with_proc (set_timers []) idle) native_fault eq_refl
             eq_refl).
Defined.

(** Two files and a thread: the order of the teardown, and what is
    left. *)
Lemma dispose_tears_down_in_order_witness :
  ∃ w1,
    sample_dispose (with_vm (set_thread (Some main_thread)) two_files) =
      Ok tt w1
        [EvDisposeFile loaded_file; EvDisposeFile pending_file;
         EvDisposeThread main_thread; EvDisposeFileManager] ∧
    _status (vm w1) = RUNNING ∧
    _files (vm w1) = None ∧
    pools_empty (proc w1).
Proof.
  destruct (dispose_tears_down_in_order (λ _, quiet) (λ _, quiet) quiet
              (with_vm (set_thread (Some main_thread)) two_files)
              (mkFileManager []) eq_refl (λ _ _, eq_refl) (λ _ _, eq_refl)
              (λ _ _, eq_refl) (λ _ _, eq_refl) (λ _, eq_refl)
              (λ _, eq_refl)) as (w1 & Hrun & Hvm & Hpools).
  exists w1. split; [exact Hrun|]. rewrite Hvm. by split.
Defined.

(** After [dispose] on the sample VM. *)
Lemma use_after_dispose_witness :
  ∃ w1,
    sample_dispose idle = Ok tt w1 [EvDisposeFileManager] ∧
    sample_getGlobal "print" w1 =
      Raise (TypeError "Cannot read properties of undefined") w1 [] ∧
    constructed_of (trace_of (sample_execute None (Some loaded_file) w1)) =
      [Thread loaded_file 100 None].
Proof.
  eexists. split; [reflexivity|].
  destruct (use_after_dispose rethrow (λ _, quiet) (λ _, quiet)
              (λ _ _, DEAD) (λ _, quiet) (λ _, quiet) (λ _, quiet) quiet
              prototype (λ _ _, quiet) idle _ _ eq_refl (λ _, eq_refl))
    as (Hget & _ & _ & _ & Hexec).
  split; [exact (Hget "print")|exact (Hexec None loaded_file 100%nat eq_refl)].
Defined.

(** A file manager whose [dispose] raises: the VM has lost its globals
    and kept its file manager, and the pools are still in use.  A file
    whose [dispose] raises: nothing is deleted. *)
Lemma dispose_fault_aborts_witness :
  (∃ w1,
     dispose (λ _, quiet) (λ _, quiet) (raising native_fault) idle =
       Raise native_fault w1 [EvDisposeFileManager] ∧
     _env (vm w1) = None ∧
     fileManager (vm w1) = Some (mkFileManager []) ∧
     ¬ pools_empty (proc w1)) ∧
  dispose (λ _, raising native_fault) (λ _, quiet) quiet two_files =
    Raise native_fault two_files [EvDisposeFile loaded_file].
Proof.
  split.
  - eexists. split.
    + exact (proj2 (dispose_fault_aborts (λ _, quiet) (λ _, quiet)
                      (raising native_fault) idle)
               (mkFileManager []) _ native_fault eq_refl eq_refl eq_refl
               eq_refl).
    + split; [reflexivity|]. split; [reflexivity|]. by intros [? _].
  - exact (proj1 (dispose_fault_aborts (λ _, raising native_fault)
                    (λ _, quiet) quiet two_files)
             loaded_file [pending_file] two_files native_fault eq_refl
             eq_refl).
Defined.

(** On a VM whose globals bind [x]: [y] is set and read back, [x] reads
    as before, and the unbound [constructor] reads as what the prototype
    has. *)
Lemma setGlobal_getGlobal_witness :
  ∃ w',
    sample_setGlobal "constructor" (VScalar (SNum 2)) other_vm = Ok tt w' [] ∧
    sample_getGlobal "constructor" w' = Ok (VScalar (SNum 2)) w' [] ∧
    sample_getGlobal "constructor" other_vm = Ok (VFunc 7) other_vm [] ∧
    ∃ x, sample_getGlobal "x" other_vm = Ok x other_vm [] ∧
         sample_getGlobal "x" w' = Ok x w' [].
Proof.
  destruct (setGlobal_getGlobal prototype (λ _ _, quiet) other_vm 0
              {[ "x" := VScalar (SNum 1) ]} "constructor" (VScalar (SNum 2))
              eq_refl eq_refl) as (w' & Hset & Hget & Hother & _ & _ & Hfresh);
    [discriminate|].
  exists w'. split; [exact Hset|]. split; [exact Hget|].
  split; [exact (Hfresh eq_refl)|].
  apply (Hother "x"). discriminate.
Defined.

(** Construction on the sample library with a host environment that binds
    [string] and [host]. *)
Lemma construction_binds_library_witness :
  ∃ w,
    sample_new_VM (Some host_env) process = Ok tt w [] ∧
    sample_getGlobal "print" w = Ok (VBound 2) w [] ∧
    sample_getGlobal "table" w = Ok (VScalar SUndefined) w [] ∧
    sample_getGlobal "constructor" w = Ok (VFunc 7) w [] ∧
    ∃ x, sample_getGlobal "package" w = Ok (VTable x) w [].
Proof.
  destruct (construction_binds_library lib prototype (λ _ _, quiet)
              (λ _ _ w, (w, inr true)) (Some host_env) process
              sample_lib_has_package_loaded host_env_is_plain)
    as (w & Hnew & Hk).
  exists w. split; [exact Hnew|].
  split; [exact (Hk "print" eq_refl)|].
  split; [exact (Hk "table" eq_refl)|].
  split; [exact (Hk "constructor" eq_refl)|].
  destruct (Hk "package" eq_refl) as (x & Hx & _). by exists x.
Defined.

(** A second VM constructed in the process of a first: the first one's
    global [x] reads as before. *)
Lemma construction_is_isolated_witness :
  ∃ w g,
    sample_new_VM None (proc other_vm) = Ok tt w [] ∧
    _globals (vm w) = Some g ∧ (1 ≤ g)%nat ∧
    pcs (proc w) = pcs (proc other_vm) ∧
    sample_getGlobal "x" (mkWorld (vm other_vm) (proc w)) =
      Ok (VScalar (SNum 1)) (mkWorld (vm other_vm) (proc w)) [].
Proof.
  destruct (construction_is_isolated lib prototype (λ _ _, quiet)
              (λ _ _ w, (w, inr true)) None (proc other_vm)
              sample_lib_has_package_loaded no_env_is_plain)
    as (w & g & Hnew & Hvm & Hg & _ & Hproc & Hget).
  exists w, g. split; [exact Hnew|]. split; [by rewrite Hvm|].
  split; [exact Hg|]. split; [by rewrite Hproc|].
  exact (Hget (vm other_vm) 0%nat "x" (VScalar (SNum 1)) eq_refl
           (le_n 1) eq_refl).
Defined.

(** A library without [package], and a host environment that binds
    [package]. *)
Lemma construction_needs_package_witness :
  ∃ w msg,
    new_VM bare_lib (λ _ _, quiet) (λ _ _ w, (w, inr true))
      (Some host_env_package) process =
      Raise (TypeError msg) w [] ∧
    tables process `prefix_of` tables (proc w) ∧
    proc w = set_tables (tables (proc w)) process.
Proof.
  exact (construction_needs_package bare_lib (λ _ _, quiet)
           (λ _ _ w, (w, inr true)) (Some host_env_package) process
           eq_refl).
Defined.

(** C5 on the sample library: [execute] with no file on the VM just
    constructed. *)
Lemma execute_on_constructed_VM_witness :
  ∃ w,
    sample_new_VM None process = Ok tt w [] ∧
    sample_execute None None w =
      Raise (TypeError "Cannot read properties of undefined") w [] ∧
    sample_execute None (Some pending_file) w =
      Raise (Error "Tried to execute file before data loaded.") w [].
Proof.
  destruct (execute_on_constructed_VM lib rethrow (λ _, quiet) (λ _, quiet)
              (λ _ _, DEAD) (λ _, quiet) (λ _ _, quiet)
              (λ _ _ w, (w, inr true)) None process
              sample_lib_has_package_loaded no_env_is_plain)
    as (w & Hnew & _ & Hexec).
  exists w. split; [exact Hnew|].
  destruct (Hexec None) as (Hnone & _ & Hdata).
  split; [exact Hnone|exact (Hdata pending_file eq_refl)].
Defined.

End Samples.
